(** * Pixiv-Downloader: batch-download orchestration, filter pipeline and
      download history store

    A shallow embedding of
    - [HistoryDb] (the download history store: its constructor,
      [updatePageArray], [add], [bulkAdd], [has], [hasPage], [clear]),
    - the filter pipeline of [defineBatchDownload] ([filterTag],
      [checkValidity] and the selection of include / exclude predicates),
    - the orchestrator of [defineBatchDownload] ([batchDownload],
      [getGenerator], [dispatchDownload], [abort] and the store helpers),
      through one run and through a session of runs that share the stores,
    - the filter [exclude_downloaded] the site modules plug into the
      pipeline, which reads the history store,
    - two discovery functions of the pixiv parser, [illustMangaGenerator]
      and [followLatestGenerator],
    followed by the properties established about them. *)

From Stdlib Require Import ZArith QArith Qcanon Lia.
From stdpp Require Import gmap strings list pretty.

Local Open Scope Z_scope.

(* ===================================================================== *)
(** * JavaScript numbers *)
(* ===================================================================== *)

(** A JS [number] is a double: a finite value (here an exact rational, of
    which the doubles are a subset), [NaN], or an infinity.  The history
    store only classifies numbers ([Number.isSafeInteger], [>= 0]), uses them
    as [Map] keys, and does integer arithmetic on those that passed the
    classification. *)
Module JsNumber.

Inductive number : Type :=
  | Finite (q : Qc)
  | NaN
  | Infinity (negative : bool).

#[global] Instance number_eq_dec : EqDecision number.
Proof. solve_decision. Defined.

#[global] Instance number_countable : Countable number.
Proof.
  refine (inj_countable'
    (fun n => match n with
              | Finite q => inl q
              | NaN => inr None
              | Infinity b => inr (Some b)
              end)
    (fun x => match x with
              | inl q => Finite q
              | inr None => NaN
              | inr (Some b) => Infinity b
              end) _).
  by intros [].
Defined.

(** The double with integral value [z]. *)
Definition of_Z (z : Z) : number := Finite (Q2Qc (inject_Z z)).

Definition MAX_SAFE_INTEGER : Z := 2 ^ 53 - 1.

(** [Number.isSafeInteger(num)] *)
Definition isSafeInteger (num : number) : bool :=
  match num with
  | Finite q =>
      (Z.pos (Qden (this q)) =? 1) && (Z.abs (Qnum (this q)) <=? MAX_SAFE_INTEGER)
  | NaN | Infinity _ => false
  end.

(** [num >= 0] *)
Definition geq0 (num : number) : bool :=
  match num with
  | Finite q => 0 <=? Qnum (this q)
  | NaN => false
  | Infinity negative => negb negative
  end.

(** The integral value of a number that is an integer (its floor otherwise;
    only used after [isSafeInteger] succeeded). *)
Definition to_Z (num : number) : Z :=
  match num with
  | Finite q => Qnum (this q) / Z.pos (Qden (this q))
  | NaN | Infinity _ => 0
  end.

End JsNumber.

(* ===================================================================== *)
(** * The history store ([HistoryDb]) *)
(* ===================================================================== *)

Module HistoryDb.
Import JsNumber.

(** [HistoryItemBase] without its key. *)
Record HistoryInfo : Type := {
  userId : option number;
  user : option string;
  title : option string;
  comment : option string;
  tags : option (list string)
}.

Definition no_info : HistoryInfo :=
  {| userId := None; user := None; title := None; comment := None; tags := None |}.

(** [HistoryData = HistoryItemBase & { page?: number }] *)
Record HistoryData : Type := {
  pid : number;
  info : HistoryInfo;
  page : option number
}.

(** A [Uint8Array]: its bytes, each in [0, 256). *)
Abbreviation Uint8Array := (list Z).

(** [HistoryItem = HistoryItemBase & { page?: Uint8Array }] *)
Record HistoryItem : Type := {
  item_pid : number;
  item_info : HistoryInfo;
  item_page : option Uint8Array
}.

(** The state of the store: the Dexie table [history], keyed by [pid], and
    the in-memory mirror [caches] ([Map<number, Uint8Array | null>], [null]
    being [None]).  [caches] is [undefined] from the constructor until the
    callback of the [toArray] it issued has run; while it is, that read is
    pending. *)
Record db : Type := {
  history : gmap number HistoryItem;
  caches : option (gmap number (option Uint8Array))
}.

Inductive error : Type :=
  | InvalidNumber (num : number)  (* thrown by [logger.throw] *)
  | TypeError.                    (* a method call on [undefined] *)

Inductive outcome (A : Type) : Type :=
  | Ok (a : A)
  | Throw (e : error).
Arguments Ok {A} a.
Arguments Throw {A} e.

(** Store operations: a state and error monad.  An operation that throws
    leaves the store as it was: the only statements that can throw after a
    table write sit inside a Dexie transaction, which is rolled back, and
    [caches] is never written before a throwing statement. *)
Definition M (A : Type) : Type := db -> outcome (A * db).

#[global] Instance M_ret : MRet M := fun A a st => Ok (a, st).
#[global] Instance M_bind : MBind M := fun A B f m st =>
  match m st with
  | Ok (a, st') => f a st'
  | Throw e => Throw e
  end.

Definition throw {A : Type} (e : error) : M A := fun _ => Throw e.

(** Modelled from the spec: [logger.throw], of the module [./logger], whose
    code is not embedded here; a violation "is a fatal, immediately-raised
    error", so it raises. *)
Definition logger_throw {A : Type} (num : number) : M A := throw (InvalidNumber num).

Definition get_state : M db := fun st => Ok (st, st).

(** [this.history.get(pid)] *)
Definition history_get (k : number) : M (option HistoryItem) :=
  fun st => Ok (history st !! k, st).

(** [this.history.put(item)] *)
Definition history_put (item : HistoryItem) : M unit :=
  fun st => Ok (tt, {| history := <[item_pid item := item]> (history st);
                       caches := caches st |}).

(** [this.caches.set(pid, v)]; a [TypeError] while the mirror is still
    [undefined]. *)
Definition caches_set (k : number) (v : option Uint8Array) : M unit :=
  fun st =>
    match caches st with
    | Some c => Ok (tt, {| history := history st; caches := Some (<[k := v]> c) |})
    | None => Throw TypeError
    end.

(** The callback of the constructor, on the rows [datas] that
    [this.history.toArray()] delivered:
    [new Map(datas.map((data) => [data.pid, data.page || null]))], a later
    entry replacing an earlier one with the same key. *)
Definition mirror_of (datas : list HistoryItem) : gmap number (option Uint8Array) :=
  foldl (fun c data => <[item_pid data := item_page data]> c) ∅ datas.

(** The rows of the table, as [toArray] reads them. *)
Definition rows (st : db) : list HistoryItem := (map_to_list (history st)).*2.

(** A request of a read-write transaction on the table is answered after
    the transactions created before it have finished.  The [toArray] of the
    constructor is one of them, so by then its callback has run: [caches]
    is assigned, from the rows as the table held them (no write to the
    table gets through while [caches] is [undefined]). *)
Definition await_load : M unit :=
  fun st =>
    Ok (tt, match caches st with
            | Some _ => st
            | None => {| history := history st; caches := Some (mirror_of (rows st)) |}
            end).

Definition valid_number (num : number) : bool := isSafeInteger num && geq0 num.

Definition throwIfInvalidNumber (num : number) : M unit :=
  if negb (isSafeInteger num && geq0 num) then logger_throw num else mret tt.

(** [new Uint8Array(n)], for a length the engine can allocate (beyond that
    the constructor throws a [RangeError], which is not followed here). *)
Definition new_Uint8Array (n : Z) : Uint8Array := replicate (Z.to_nat n) 0.

(** [arr[i]], read as a number operand ([undefined] out of range acts as 0
    under the bit operators). *)
Definition u8_get (arr : Uint8Array) (i : Z) : Z := default 0 (arr !! Z.to_nat i).

(** [arr[i] |= 1 << bitIndex]: the stored value is truncated to a byte and
    a write out of range is dropped. *)
Definition u8_or_bit (arr : Uint8Array) (i bitIndex : Z) : Uint8Array :=
  <[Z.to_nat i := Z.land (Z.lor (u8_get arr i) (Z.shiftl 1 bitIndex)) 255]> arr.

(** [newArr.set(src)], for a source that fits (the only use). *)
Definition u8_set (newArr src : Uint8Array) : Uint8Array :=
  src ++ drop (length src) newArr.

Definition byteIndex_of (page : number) : Z := to_Z page / 8.
Definition bitIndex_of (page : number) : Z := to_Z page mod 8.

Definition updatePageArray (page : number) (pageArray : option Uint8Array) : Uint8Array :=
  let byteIndex := byteIndex_of page in
  let bitIndex := bitIndex_of page in
  match pageArray with
  | None =>
      let newArr := new_Uint8Array (byteIndex + 1) in
      u8_or_bit newArr byteIndex bitIndex
  | Some pageArray =>
      if byteIndex >? Z.of_nat (length pageArray) - 1 then
        let newArr := new_Uint8Array (byteIndex + 1) in
        let newArr := u8_set newArr pageArray in
        u8_or_bit newArr byteIndex bitIndex
      else
        u8_or_bit pageArray byteIndex bitIndex
  end.

(** [add]: the body of the transaction.  With a page it first awaits
    [this.history.get(pid)], a request of the read-write transaction;
    without one it calls [this.history.put] and [this.caches.set] at once,
    in the turn in which the transaction body starts. *)
Definition add (historyData : HistoryData) : M unit :=
  let pid := pid historyData in
  throwIfInvalidNumber pid ;;
  match page historyData with
  | Some page =>
      throwIfInvalidNumber page ;;
      await_load ;;
      historyItem ← history_get pid ;
      match historyItem with
      | Some {| item_page := Some arr |} =>
          (* not fully downloaded *)
          let u8arr := updatePageArray page (Some arr) in
          history_put {| item_pid := pid; item_info := info historyData;
                         item_page := Some u8arr |} ;;
          caches_set pid (Some u8arr)
      | Some _ =>
          (* fully downloaded *)
          history_put {| item_pid := pid; item_info := info historyData;
                         item_page := None |}
      | None =>
          (* new download *)
          let u8arr := updatePageArray page None in
          history_put {| item_pid := pid; item_info := info historyData;
                         item_page := Some u8arr |} ;;
          caches_set pid (Some u8arr)
      end
  | None =>
      history_put {| item_pid := pid; item_info := info historyData;
                     item_page := None |} ;;
      caches_set pid None
  end.

(** [historyDatas.forEach(data => this.caches.set(data.pid, data.page || null))] *)
Fixpoint bulk_cache (historyDatas : list HistoryItem) : M unit :=
  match historyDatas with
  | [] => mret tt
  | data :: rest => caches_set (item_pid data) (item_page data) ;; bulk_cache rest
  end.

(** [this.history.bulkPut(historyDatas)] *)
Fixpoint history_bulkPut (historyDatas : list HistoryItem) : M unit :=
  match historyDatas with
  | [] => mret tt
  | data :: rest => history_put data ;; history_bulkPut rest
  end.

(** [bulkAdd]: the [forEach] runs at once; [bulkPut] is a read-write
    transaction of its own. *)
Definition bulkAdd (historyDatas : list HistoryItem) : M unit :=
  bulk_cache historyDatas ;; await_load ;; history_bulkPut historyDatas.

Section WithNumber.

(** [Number(s)] on a string argument. *)
Variable Number : string -> number.

Definition to_number (pid : number + string) : number :=
  match pid with
  | inl n => n
  | inr s => Number s
  end.

Definition has (pid : number + string) : M bool :=
  let pid := to_number pid in
  throwIfInvalidNumber pid ;;
  st ← get_state ;
  match caches st with
  | Some c => mret (bool_decide (is_Some (c !! pid)))
  | None => mret (bool_decide (is_Some (history st !! pid)))
  end.

(** [!(byteIndex > arr.length - 1) && (arr[byteIndex] & (1 << bitIndex)) !== 0] *)
Definition page_bit_set (arr : Uint8Array) (byteIndex bitIndex : Z) : bool :=
  negb (byteIndex >? Z.of_nat (length arr) - 1)
  && negb (Z.land (u8_get arr byteIndex) (Z.shiftl 1 bitIndex) =? 0).

Definition hasPage (pid : number + string) (page : number) : M bool :=
  let pid := to_number pid in
  throwIfInvalidNumber pid ;;
  throwIfInvalidNumber page ;;
  let byteIndex := byteIndex_of page in
  let bitIndex := bitIndex_of page in
  st ← get_state ;
  match caches st with
  | Some c =>
      match c !! pid with
      | Some None => mret true
      | Some (Some cachesData) => mret (page_bit_set cachesData byteIndex bitIndex)
      | None => mret false
      end
  | None =>
      match history st !! pid with
      | None => mret false
      | Some {| item_page := None |} => mret true
      | Some {| item_page := Some arr |} => mret (page_bit_set arr byteIndex bitIndex)
      end
  end.

End WithNumber.

(** The store an operation leaves (unchanged when it throws). *)
Definition exec {A : Type} (m : M A) (st : db) : db :=
  match m st with
  | Ok (_, st') => st'
  | Throw _ => st
  end.

(** The store right after an empty table has been loaded. *)
Definition empty_store : db := {| history := ∅; caches := Some ∅ |}.

(** [{ pid }] and [{ pid, page }] *)
Definition full_data (pid : Z) : HistoryData :=
  {| pid := of_Z pid; info := no_info; page := None |}.
Definition page_data (pid page : Z) : HistoryData :=
  {| pid := of_Z pid; info := no_info; page := Some (of_Z page) |}.

(** The partial page record of a work, as the table and the mirror hold it. *)
Definition table_page (st : db) (k : number) : option (option Uint8Array) :=
  item_page <$> history st !! k.
Definition mirror_page (st : db) (k : number) : option (option Uint8Array) :=
  c ← caches st; c !! k.

(** A work is marked fully downloaded: the table holds a record without page
    bitset, and so does the mirror once it is loaded. *)
Definition fully_downloaded (st : db) (k : number) : Prop :=
  table_page st k = Some None /\
  (forall c, caches st = Some c -> c !! k = Some None).

(** A work holds a partial (page-level) record. *)
Definition partially_downloaded (st : db) (k : number) : Prop :=
  exists arr, table_page st k = Some (Some arr).

(** [this.caches.clear()] *)
Definition caches_clear : M unit :=
  fun st => Ok (tt, {| history := history st; caches := Some ∅ |}).

(** [this.history.clear()], a read-write transaction of its own. *)
Definition history_clear : M unit :=
  await_load ;; ((fun st => Ok (tt, {| history := ∅; caches := caches st |})) : M unit).

(** [clear]: [this.caches && this.caches.clear(); return this.history.clear()].
    [this.caches] is tested at once, the table is cleared when its
    transaction gets its turn. *)
Definition clear : M unit :=
  st ← get_state ;
  match caches st with
  | Some _ => caches_clear
  | None => mret tt
  end ;;
  history_clear.

(** The callback of the constructor at the time it runs, on the rows
    [datas]. *)
Definition load (datas : list HistoryItem) : M unit :=
  fun st => Ok (tt, {| history := history st; caches := Some (mirror_of datas) |}).

(** [datas] are the rows of the table, in some order. *)
Definition rows_of (st : db) (datas : list HistoryItem) : Prop :=
  datas ≡ₚ (map_to_list (history st)).*2.

(** [pid] is the primary key of the table: a row is stored under its own
    [pid]. *)
Definition keyed (st : db) : Prop :=
  forall k item, history st !! k = Some item -> item_pid item = k.

(** The mirror, once loaded, holds for every work what the table holds. *)
Definition in_sync (st : db) : Prop :=
  forall c, caches st = Some c -> forall k, c !! k = item_page <$> history st !! k.

Definition consistent (st : db) : Prop := keyed st /\ in_sync st.

(** The store before the mirror is loaded. *)
Definition unloaded (st : db) : db := {| history := history st; caches := None |}.

(** The store once the mirror is loaded. *)
Definition loaded (st : db) : db := exec await_load st.

(** The value an operation returns, if it returns. *)
Definition result {A : Type} (o : outcome (A * db)) : option A :=
  match o with
  | Ok (a, _) => Some a
  | Throw _ => None
  end.

(** What [has] and [hasPage] read for a work: the entry of the mirror, or of
    the table while the mirror is not loaded. *)
Definition page_entry (st : db) (k : number) : option (option Uint8Array) :=
  match caches st with
  | Some c => c !! k
  | None => table_page st k
  end.

(** The answer of [hasPage] on such an entry. *)
Definition page_answer (entry : option (option Uint8Array)) (page : number) : bool :=
  match entry with
  | Some None => true
  | Some (Some arr) => page_bit_set arr (byteIndex_of page) (bitIndex_of page)
  | None => false
  end.

(** The page bitset [add] stores with [historyData]: none for a full
    record, and none for a page of a work that is marked fully downloaded;
    otherwise the bitset of the work, if any, with the page added. *)
Definition added_page (st : db) (historyData : HistoryData) : option Uint8Array :=
  match page historyData with
  | None => None
  | Some page =>
      match table_page st (pid historyData) with
      | Some None => None
      | Some (Some arr) => Some (updatePageArray page (Some arr))
      | None => Some (updatePageArray page None)
      end
  end.

(** The store with a row written to the table and its page entry written to
    the mirror, if loaded. *)
Definition record (st : db) (k : number) (i : HistoryInfo) (pg : option Uint8Array) : db :=
  {| history := <[k := {| item_pid := k; item_info := i; item_page := pg |}]> (history st);
     caches := (fun c => <[k := pg]> c) <$> caches st |}.

(** A page is recorded in a page bitset, if there is one. *)
Definition recorded (pageArray : option Uint8Array) (page : number) : bool :=
  match pageArray with
  | Some arr => page_bit_set arr (byteIndex_of page) (bitIndex_of page)
  | None => false
  end.

End HistoryDb.


(* ===================================================================== *)
(** * The batch downloader ([defineBatchDownload]) *)
(* ===================================================================== *)

Module BatchDownload.

Local Open Scope string_scope.
Local Open Scope list_scope.

(** ** Values handed around by the orchestrator *)

(** A rejection reason ([reason: any]): a [RequestError], another [Error],
    a string, or any other value. *)
Inductive reason : Type :=
  | RequestError (url : string) (status : Z)
  | ErrorObj (name message : string)
  | Text (msg : string)
  | Opaque.

Definition CancelError : reason := ErrorObj "CancelError" "User aborted.".

(** [reason instanceof Error] *)
Definition is_Error (r : reason) : bool :=
  match r with
  | RequestError _ _ | ErrorObj _ _ => true
  | Text _ | Opaque => false
  end.

Definition error_name (r : reason) : string :=
  match r with
  | RequestError _ _ => "RequestError"
  | ErrorObj name _ => name
  | Text _ | Opaque => ""
  end.

(** [super(status + ' ' + url)] for a [RequestError]. *)
Definition error_message (r : reason) : string :=
  match r with
  | RequestError url status => pretty status +:+ " " +:+ url
  | ErrorObj _ message => message
  | Text _ | Opaque => ""
  end.

(** [reason instanceof RequestError && reason.status === 429] *)
Definition is_429 (r : reason) : bool :=
  match r with
  | RequestError _ status => (status =? 429)%Z
  | _ => false
  end.

Record FailedItem : Type := { failed_id : string; failed_reason : reason }.

Inductive LogType : Type := Info | Add | Complete | Fail | Error.

Record LogItem : Type := { log_type : LogType; log_message : string }.

Record YieldArtworkId : Type := {
  total : Z;
  page : Z;
  avaliable : list string;
  invalid : list string;
  unavaliable : list string
}.

Inductive filter_type : Type := include | exclude.

(** The settlement of [waitUntilDownloadComplete]. *)
Inductive completion : Type :=
  | Pending
  | Fulfilled
  | Rejected (r : reason).

(** How [batchDownload] ended. *)
Inductive outcome : Type :=
  | Completed
  | Errored (r : reason).

(** What the orchestrator does to the outside, in order. *)
Inductive action : Type :=
  | Log (item : LogItem)                 (* [log.set(item)] *)
  | Sleep (ms : Z)                       (* [sleep(ms)] started *)
  | ParseMeta (id : string)              (* [parseMetaByArtworkId(id)] *)
  | Download (id taskId : string)        (* [downloadByArtworkId(meta, taskId)] *)
  | OnDownloadAbort (taskIds : list string)
  | GeneratorReturn.                     (* [generator.return()] *)

Section WithMeta.

(** The artwork metadata [T], and the view [filterTag] takes of it: its tag
    list when ['tags' in partialMeta] and [Array.isArray(partialMeta.tags)]. *)
Context {Meta : Type}.
Variable meta_tags : Meta -> option (list string).

(** ** The filter pipeline *)

(** A filter function; [None] when it throws or its promise rejects. *)
Definition predicate : Type := Meta -> option bool.

Record FilterSpec : Type := {
  filter_id : string;
  filter_kind : filter_type;
  fn : predicate
}.

(** What [defineBatchDownload] is given and what it reads from the option
    store; [random n] is the string [Math.random().toString(36).slice(2)]
    produced by the [n]-th call, and [pageMatch] lists, for each page
    configuration, the ids of its [genPageId] items. *)
Record config : Type := {
  filters : list FilterSpec;
  enableTagFilter : bool;
  filterWhenGenerateIngPage : bool;
  pageMatch : list (list string);
  selectedFilters : option (list string);
  blacklistTag : list string;
  whitelistTag : list string;
  downloadAllPages : bool;
  pageStart : Z;
  pageEnd : Z;
  random : nat -> string
}.

Variable cfg : config.

(** [partialMeta.tags.includes(tag)] *)
Definition includes (tags : list string) (tag : string) : bool :=
  bool_decide (tag ∈ tags).

Definition filterTag (partialMeta : Meta) : bool :=
  match meta_tags partialMeta with
  | None => true
  | Some tags =>
      if negb (length (whitelistTag cfg) =? 0)%nat then
        existsb (includes tags) (whitelistTag cfg)
      else if negb (length (blacklistTag cfg) =? 0)%nat then
        negb (existsb (includes tags) (blacklistTag cfg))
      else true
  end.

(** The subscriber of [selectedFilters]: both lists are emptied and refilled
    from the selected ids, in order; nothing happens on a falsy selection. *)
Definition push_selected (acc : list predicate * list predicate) (id : string)
  : list predicate * list predicate :=
  match find (fun f => String.eqb (filter_id f) id) (filters cfg) with
  | Some f =>
      match filter_kind f with
      | include => (fst acc ++ [fn f], snd acc)
      | exclude => (fst acc, snd acc ++ [fn f])
      end
  | None => acc
  end.

Definition select_filters (previous : list predicate * list predicate)
  : list predicate * list predicate :=
  match selectedFilters cfg with
  | None => previous
  | Some selected => fold_left push_selected selected ([], [])
  end.

Definition includeFilters : list predicate := fst (select_filters ([], [])).
Definition excludeFilters : list predicate := snd (select_filters ([], [])).

(** One of the two [for] loops of [checkValidity]: [Some true] at the first
    function that answers [true], [None] at the first one that throws. *)
Fixpoint first_true (fns : list predicate) (partialMeta : Meta) : option bool :=
  match fns with
  | [] => Some false
  | f :: rest =>
      match f partialMeta with
      | None => None
      | Some true => Some true
      | Some false => first_true rest partialMeta
      end
  end.

Definition checkValidity_with (includeFns excludeFns : list predicate)
    (partialMeta : Meta) : bool :=
  if enableTagFilter cfg && negb (filterTag partialMeta) then false
  else if (length includeFns =? 0)%nat then false
  else
    match first_true excludeFns partialMeta with
    | None => false            (* caught *)
    | Some true => false
    | Some false =>
        match first_true includeFns partialMeta with
        | Some true => true
        | Some false => false
        | None => false        (* caught *)
        end
    end.

Definition checkValidity (partialMeta : Meta) : bool :=
  checkValidity_with includeFilters excludeFilters partialMeta.

(** ** The state of the orchestrator *)

(** The points at which [batchDownload] is suspended: before its first call,
    at one of the [await]s of [dispatchDownload] (with the ids of the current
    batch still to be handled), or after it settled. *)
Inductive point : Type :=
  | Idle
  | AwaitBatch                                   (* [generator.next()] raced *)
  | AwaitPoliteness                              (* [sleep(1500)] raced *)
  | AwaitCooldown (id : string) (rest : list string)   (* [sleep(30000)] raced *)
  | AwaitParse (id : string) (rest : list string)
  | AwaitValidity (id : string) (artworkMeta : Meta) (rest : list string)
  | AwaitThreshold (rest : list string)          (* [...dlPromise] raced *)
  | AwaitDelay (rest : list string)              (* [sleep(1000)] raced *)
  | AwaitCompletion                              (* [return waitUntilDownloadComplete] *)
  | Finished (o : outcome).

Record state : Type := mkState {
  artworkCount : option Z;
  successd : list string;
  failed : list FailedItem;
  excluded : list string;
  downloading : bool;
  isDone : bool;
  tasks : list string;
  controller : bool;
  aborted : option reason;
  hooked : bool;
  waitUntilDownloadComplete : completion;
  dlPromise : list nat;
  status429 : bool;
  inflight : list (nat * string);
  dispatched : nat;
  pc : point;
  trace : list action
}.

(** Field by field:
    - [artworkCount]: the store [artworkCount] ([None] is [null]);
    - [successd]: the store [successd];
    - [failed]: the store [failed];
    - [excluded]: the store [excluded];
    - [downloading]: the store [downloading];
    - [isDone]: the value the derived store [checkIfDownloadCompleted] holds;
    - [tasks]: the array [tasks];
    - [controller]: [controller] is not [null];
    - [aborted]: [signal.reason] once [signal.aborted];
    - [hooked]: [downloadCompleted] / [downloadAbort] and the abort listener are those of [dispatchDownload];
    - [waitUntilDownloadComplete]: the completion promise;
    - [dlPromise]: [dlPromise], each promise by the handle of its download;
    - [status429]: the flag [status429];
    - [inflight]: downloads not settled yet: handle and artwork id;
    - [dispatched]: downloads dispatched so far; the next handle;
    - [pc]: where [batchDownload] is suspended;
    - [trace]: the actions so far, oldest first. *)

Definition set_artworkCount (v : option Z) (s : state) : state :=
  mkState v (successd s) (failed s) (excluded s) (downloading s) (isDone s) (tasks s) (controller s) (aborted s) (hooked s) (waitUntilDownloadComplete s) (dlPromise s) (status429 s) (inflight s) (dispatched s) (pc s) (trace s).
Definition set_successd (v : list string) (s : state) : state :=
  mkState (artworkCount s) v (failed s) (excluded s) (downloading s) (isDone s) (tasks s) (controller s) (aborted s) (hooked s) (waitUntilDownloadComplete s) (dlPromise s) (status429 s) (inflight s) (dispatched s) (pc s) (trace s).
Definition set_failed (v : list FailedItem) (s : state) : state :=
  mkState (artworkCount s) (successd s) v (excluded s) (downloading s) (isDone s) (tasks s) (controller s) (aborted s) (hooked s) (waitUntilDownloadComplete s) (dlPromise s) (status429 s) (inflight s) (dispatched s) (pc s) (trace s).
Definition set_excluded (v : list string) (s : state) : state :=
  mkState (artworkCount s) (successd s) (failed s) v (downloading s) (isDone s) (tasks s) (controller s) (aborted s) (hooked s) (waitUntilDownloadComplete s) (dlPromise s) (status429 s) (inflight s) (dispatched s) (pc s) (trace s).
Definition set_downloading (v : bool) (s : state) : state :=
  mkState (artworkCount s) (successd s) (failed s) (excluded s) v (isDone s) (tasks s) (controller s) (aborted s) (hooked s) (waitUntilDownloadComplete s) (dlPromise s) (status429 s) (inflight s) (dispatched s) (pc s) (trace s).
Definition set_isDone (v : bool) (s : state) : state :=
  mkState (artworkCount s) (successd s) (failed s) (excluded s) (downloading s) v (tasks s) (controller s) (aborted s) (hooked s) (waitUntilDownloadComplete s) (dlPromise s) (status429 s) (inflight s) (dispatched s) (pc s) (trace s).
Definition set_tasks (v : list string) (s : state) : state :=
  mkState (artworkCount s) (successd s) (failed s) (excluded s) (downloading s) (isDone s) v (controller s) (aborted s) (hooked s) (waitUntilDownloadComplete s) (dlPromise s) (status429 s) (inflight s) (dispatched s) (pc s) (trace s).
Definition set_controller (v : bool) (s : state) : state :=
  mkState (artworkCount s) (successd s) (failed s) (excluded s) (downloading s) (isDone s) (tasks s) v (aborted s) (hooked s) (waitUntilDownloadComplete s) (dlPromise s) (status429 s) (inflight s) (dispatched s) (pc s) (trace s).
Definition set_aborted (v : option reason) (s : state) : state :=
  mkState (artworkCount s) (successd s) (failed s) (excluded s) (downloading s) (isDone s) (tasks s) (controller s) v (hooked s) (waitUntilDownloadComplete s) (dlPromise s) (status429 s) (inflight s) (dispatched s) (pc s) (trace s).
Definition set_hooked (v : bool) (s : state) : state :=
  mkState (artworkCount s) (successd s) (failed s) (excluded s) (downloading s) (isDone s) (tasks s) (controller s) (aborted s) v (waitUntilDownloadComplete s) (dlPromise s) (status429 s) (inflight s) (dispatched s) (pc s) (trace s).
Definition set_waitUntilDownloadComplete (v : completion) (s : state) : state :=
  mkState (artworkCount s) (successd s) (failed s) (excluded s) (downloading s) (isDone s) (tasks s) (controller s) (aborted s) (hooked s) v (dlPromise s) (status429 s) (inflight s) (dispatched s) (pc s) (trace s).
Definition set_dlPromise (v : list nat) (s : state) : state :=
  mkState (artworkCount s) (successd s) (failed s) (excluded s) (downloading s) (isDone s) (tasks s) (controller s) (aborted s) (hooked s) (waitUntilDownloadComplete s) v (status429 s) (inflight s) (dispatched s) (pc s) (trace s).
Definition set_status429 (v : bool) (s : state) : state :=
  mkState (artworkCount s) (successd s) (failed s) (excluded s) (downloading s) (isDone s) (tasks s) (controller s) (aborted s) (hooked s) (waitUntilDownloadComplete s) (dlPromise s) v (inflight s) (dispatched s) (pc s) (trace s).
Definition set_inflight (v : list (nat * string)) (s : state) : state :=
  mkState (artworkCount s) (successd s) (failed s) (excluded s) (downloading s) (isDone s) (tasks s) (controller s) (aborted s) (hooked s) (waitUntilDownloadComplete s) (dlPromise s) (status429 s) v (dispatched s) (pc s) (trace s).
Definition set_dispatched (v : nat) (s : state) : state :=
  mkState (artworkCount s) (successd s) (failed s) (excluded s) (downloading s) (isDone s) (tasks s) (controller s) (aborted s) (hooked s) (waitUntilDownloadComplete s) (dlPromise s) (status429 s) (inflight s) v (pc s) (trace s).
Definition set_pc (v : point) (s : state) : state :=
  mkState (artworkCount s) (successd s) (failed s) (excluded s) (downloading s) (isDone s) (tasks s) (controller s) (aborted s) (hooked s) (waitUntilDownloadComplete s) (dlPromise s) (status429 s) (inflight s) (dispatched s) v (trace s).
Definition set_trace (v : list action) (s : state) : state :=
  mkState (artworkCount s) (successd s) (failed s) (excluded s) (downloading s) (isDone s) (tasks s) (controller s) (aborted s) (hooked s) (waitUntilDownloadComplete s) (dlPromise s) (status429 s) (inflight s) (dispatched s) (pc s) v.


Definition emit (a : action) (s : state) : state := set_trace (trace s ++ [a]) s.

(** ** Logging *)

Definition type_name (t : LogType) : string :=
  match t with
  | Info => "Info" | Add => "Add" | Complete => "Complete"
  | Fail => "Fail" | Error => "Error"
  end.

(** [writeLog('Error', error)] *)
Definition writeLog_Error (arg : reason) (s : state) : state :=
  emit (Log {| log_type := Error;
               log_message := "[" +:+ error_name arg +:+ "] " +:+ error_message arg |}) s.

(** [writeLog('Fail', id, error)], for an [error] that is an [Error] or a
    string. *)
Definition writeLog_Fail (arg : string) (error : reason) (s : state) : state :=
  let message :=
    match error with
    | Text msg => "[Fail] " +:+ arg +:+ "..." +:+ msg
    | _ => "[Fail] " +:+ arg +:+ "..." +:+ error_name error +:+ ":" +:+ error_message error
    end in
  emit (Log {| log_type := Fail; log_message := message |}) s.

(** [writeLog(type, idOrMsg)] for the other types. *)
Definition writeLog (type : LogType) (arg : string) (s : state) : state :=
  emit (Log {| log_type := type; log_message := "[" +:+ type_name type +:+ "] " +:+ arg |}) s.

(** ** The stores and the completion condition *)

(** The derived store [checkIfDownloadCompleted].  Its statement
    [if ($artworkCount === null) false;] has no effect; on [null] the strict
    comparison with a number is [false]. *)
Definition checkIfDownloadCompleted (s : state) : bool :=
  match artworkCount s with
  | None => false
  | Some count =>
      (count =? Z.of_nat (length (successd s) + length (failed s) + length (excluded s)))%Z
  end.

(** [resolve()] of [waitUntilDownloadComplete] *)
Definition resolve (s : state) : state :=
  match waitUntilDownloadComplete s with
  | Pending => set_waitUntilDownloadComplete Fulfilled s
  | _ => s
  end.

(** [reject(r)] of [waitUntilDownloadComplete] *)
Definition reject (r : reason) (s : state) : state :=
  match waitUntilDownloadComplete s with
  | Pending => set_waitUntilDownloadComplete (Rejected r) s
  | _ => s
  end.

(** [downloadCompleted?.()]: a no-op outside [dispatchDownload]. *)
Definition downloadCompleted (s : state) : state :=
  if hooked s then resolve s else s.

(** [downloadAbort?.(reason)] *)
Definition downloadAbort (r : reason) (s : state) : state :=
  if hooked s then reject r s else s.

(** One of the four stores was set: the derived store is recomputed and its
    subscriber, [isDone && downloadCompleted?.()], runs if the value
    changed. *)
Definition notify (s : state) : state :=
  let done := checkIfDownloadCompleted s in
  if Bool.eqb done (isDone s) then s
  else
    let s := set_isDone done s in
    if done then downloadCompleted s else s.

Definition setArtworkCount (num : Z) (s : state) : state :=
  notify (set_artworkCount (Some num) s).

Definition addSuccessd (id : string) (s : state) : state :=
  notify (writeLog Complete id (set_successd (successd s ++ [id]) s)).

Definition log_failed (item : FailedItem) (s : state) : state :=
  match failed_reason item with
  | Opaque => s
  | reason => writeLog_Fail (failed_id item) reason s
  end.

(** [addFailed(item)] for one item. *)
Definition addFailed (item : FailedItem) (s : state) : state :=
  notify (log_failed item (set_failed (failed s ++ [item]) s)).

(** [addFailed(items)] for a non-empty array: the last item is logged. *)
Definition addFailed_array (items : list FailedItem) (s : state) : state :=
  let s := set_failed (failed s ++ items) s in
  notify (match last items with
          | Some lastItem => log_failed lastItem s
          | None => s
          end).

(** [addExcluded(id)] for one id. *)
Definition addExcluded (id : string) (s : state) : state :=
  notify (writeLog Info (id +:+ " was excluded...") (set_excluded (excluded s ++ [id]) s)).

(** [addExcluded(ids)] for an array. *)
Definition addExcluded_array (ids : list string) (s : state) : state :=
  notify (writeLog Info (pretty (length ids) +:+ " was excluded...")
            (set_excluded (excluded s ++ ids) s)).

Definition reset (s : state) : state :=
  let s := notify (set_artworkCount None s) in
  let s := notify (set_successd [] s) in
  let s := notify (set_failed [] s) in
  let s := notify (set_excluded [] s) in
  let s := set_tasks [] s in
  let s := set_controller false s in
  let s := set_hooked false s in
  writeLog Info "Reset store." s.

(** ** Leaving [batchDownload] *)

(** [controller.abort(r)] on a signal not aborted yet: the listener added by
    [dispatchDownload], if any, rejects the completion promise and hands
    [tasks] to [onDownloadAbort]. *)
Definition controller_abort (r : reason) (s : state) : state :=
  let s := set_aborted (Some r) s in
  if hooked s then
    let s := downloadAbort r s in
    emit (OnDownloadAbort (tasks s)) s
  else s.

(** The [catch] block of [batchDownload] and what follows it; [started]
    tells whether [generator] had been assigned. *)
Definition catch_error (started : bool) (error : reason) (s : state) : state :=
  let s := if started then emit GeneratorReturn s else s in
  let s := match aborted s with
           | None => controller_abort error s
           | Some _ => s
           end in
  let s := if is_Error error then writeLog_Error error s else s in
  set_pc (Finished (Errored error)) (set_downloading false s).

(** [dispatchDownload] returned: the rest of the [try] block and what
    follows it. *)
Definition finish (s : state) : state :=
  let s := writeLog Info "Download complete." s in
  set_pc (Finished Completed) (set_downloading false s).

(** ** The body of [dispatchDownload], from one [await] to the next *)

(** [return waitUntilDownloadComplete] *)
Definition arrive_completion (s : state) : state :=
  match waitUntilDownloadComplete s with
  | Fulfilled => finish s
  | Rejected r => catch_error true r s
  | Pending => set_pc AwaitCompletion s
  end.

(** The [while] condition: [generator.next()] is the pending promise of an
    asynchronous generator, so a completion promise that is already settled
    wins the race; fulfilled, it makes [result] undefined and ends the loop. *)
Definition arrive_batch (s : state) : state :=
  match waitUntilDownloadComplete s with
  | Fulfilled => arrive_completion s
  | Rejected r => catch_error true r s
  | Pending => set_pc AwaitBatch s
  end.

(** [await Promise.race([sleep(ms), waitUntilDownloadComplete])], then [k];
    suspended at [park] while both are pending. *)
Definition race_sleep (ms : Z) (k : state -> state) (park : point) (s : state) : state :=
  let s := emit (Sleep ms) s in
  match waitUntilDownloadComplete s with
  | Fulfilled => k s
  | Rejected r => catch_error true r s
  | Pending => set_pc park s
  end.

Definition start_parse (id : string) (rest : list string) (s : state) : state :=
  set_pc (AwaitParse id rest) (emit (ParseMeta id) s).

(** After the cooldown: [status429 = false], then the id is parsed. *)
Definition after_cooldown (id : string) (rest : list string) (s : state) : state :=
  start_parse id rest (set_status429 false s).

(** The head of [for (const id of avaliable)] with [ids] still to go; the
    [while] condition once they are exhausted. *)
Definition next_id (ids : list string) (s : state) : state :=
  match ids with
  | [] => arrive_batch s
  | id :: rest =>
      if status429 s then
        let s := writeLog_Error (ErrorObj "Error" "Http status: 429, wait for 30 seconds.") s in
        race_sleep 30000 (after_cooldown id rest) (AwaitCooldown id rest) s
      else start_parse id rest s
  end.

Definition THRESHOLD : nat := 5.

(** After [await Promise.race([...dlPromise, waitUntilDownloadComplete])]:
    [dlPromise.length = 0]. *)
Definition after_threshold (rest : list string) (s : state) : state :=
  next_id rest (set_dlPromise [] s).

(** The download with handle [h] has settled. *)
Definition settled (s : state) (h : nat) : bool :=
  negb (bool_decide (h ∈ (inflight s).*1)).

Definition generateTaskID (id : string) (s : state) : string :=
  id +:+ "_" +:+ random cfg (dispatched s).

(** From [writeLog('Add', id)] to the end of the loop body.  In the race on
    [dlPromise] the promises come first, so one that is already settled wins
    over the completion promise. *)
Definition dispatch (id : string) (rest : list string) (s : state) : state :=
  let s := writeLog Add id s in
  let taskId := generateTaskID id s in
  let h := dispatched s in
  let s := emit (Download id taskId) s in
  let s := set_inflight (inflight s ++ [(h, id)]) s in
  let s := set_dispatched (S h) s in
  let s := set_tasks (tasks s ++ [taskId]) s in
  let s := set_dlPromise (dlPromise s ++ [h]) s in
  if (THRESHOLD <=? length (dlPromise s))%nat then
    if existsb (settled s) (dlPromise s) then after_threshold rest s
    else
      match waitUntilDownloadComplete s with
      | Fulfilled => after_threshold rest s
      | Rejected r => catch_error true r s
      | Pending => set_pc (AwaitThreshold rest) s
      end
  else race_sleep 1000 (next_id rest) (AwaitDelay rest) s.

(** The handler made by [failedHanlderFactory(id)]. *)
Definition failedHandler (id : string) (r : reason) (s : state) : state :=
  match aborted s with
  | None =>
      let s := addFailed {| failed_id := id; failed_reason := r |} s in
      if is_429 r then set_status429 true s else s
  | Some _ => s
  end.

(** [handleSucccess]: [!signal.aborted && addSuccessd(id)] *)
Definition handleSucccess (id : string) (s : state) : state :=
  match aborted s with
  | None => addSuccessd id s
  | Some _ => s
  end.

(** [signal.throwIfAborted()], then [k]. *)
Definition throwIfAborted (k : state -> state) (s : state) : state :=
  match aborted s with
  | Some r => catch_error true r s
  | None => k s
  end.

(** The loop body from the destructuring of [result.value] to the first
    [await]. *)
Definition on_yield (b : YieldArtworkId) (s : state) : state :=
  throwIfAborted (fun s =>
    let s := setArtworkCount (total b) s in
    let s := if (length (invalid b) =? 0)%nat then s
             else addExcluded_array (invalid b) s in
    let s := if (length (unavaliable b) =? 0)%nat then s
             else addFailed_array
                    (map (fun id => {| failed_id := id; failed_reason := Text "Masked." |})
                         (unavaliable b)) s in
    if (length (avaliable b) =? 0)%nat
    then race_sleep 1500 (next_id []) AwaitPoliteness s
    else next_id (avaliable b) s) s.

(** [parseMetaByArtworkId(id).catch(failedHanlderFactory(id))] settled, with
    the metadata or with the reason of its failure. *)
Definition on_parse (id : string) (rest : list string) (res : Meta + reason)
    (s : state) : state :=
  let s := match res with
           | inr r => failedHandler id r s
           | inl _ => s
           end in
  throwIfAborted (fun s =>
    match res with
    | inr _ => next_id rest s                      (* [if (!artworkMeta) continue] *)
    | inl artworkMeta =>
        if filterWhenGenerateIngPage cfg then dispatch id rest s
        else set_pc (AwaitValidity id artworkMeta rest) s
    end) s.

(** [await checkValidity(artworkMeta)] settled. *)
Definition on_validity (id : string) (artworkMeta : Meta) (rest : list string)
    (s : state) : state :=
  if checkValidity artworkMeta then dispatch id rest s
  else next_id rest (addExcluded id s).

(** [removeTask]: [tasks.findIndex((storeId) => storeId === id)] and the
    [splice] of that index. *)
Fixpoint remove_first (id : string) (stored : list string) : list string :=
  match stored with
  | [] => []
  | storeId :: rest =>
      if String.eqb storeId id then rest else storeId :: remove_first id rest
  end.

Definition removeTask (id : string) (s : state) : state :=
  set_tasks (remove_first id (tasks s)) s.

(** The completion promise got settled: a coroutine suspended in a race
    against it goes on. *)
Definition wake (s : state) : state :=
  match waitUntilDownloadComplete s with
  | Pending => s
  | Fulfilled =>
      match pc s with
      | AwaitBatch => arrive_completion s
      | AwaitPoliteness => next_id [] s
      | AwaitCooldown id rest => after_cooldown id rest s
      | AwaitThreshold rest => after_threshold rest s
      | AwaitDelay rest => next_id rest s
      | AwaitCompletion => finish s
      | _ => s
      end
  | Rejected r =>
      match pc s with
      | AwaitBatch | AwaitPoliteness | AwaitCooldown _ _ | AwaitThreshold _
      | AwaitDelay _ | AwaitCompletion => catch_error true r s
      | _ => s
      end
  end.

(** The download with handle [h], of artwork [id], the [i]-th of those in
    flight, settled: fulfilled ([None]) or rejected; then [removeTask], then
    whoever waits for it. *)
Definition on_settle (i h : nat) (id : string) (res : option reason) (s : state) : state :=
  let s := set_inflight (delete i (inflight s)) s in
  let s := match res with
           | None => handleSucccess id s
           | Some r => failedHandler id r s
           end in
  let s := removeTask id s in
  match pc s with
  | AwaitThreshold rest =>
      if bool_decide (h ∈ dlPromise s) then after_threshold rest s else wake s
  | _ => wake s
  end.

(** [abort()] *)
Definition abort (s : state) : state :=
  if controller s then
    match aborted s with
    | None => wake (controller_abort CancelError s)
    | Some _ => s
    end
  else s.

(** ** [batchDownload] up to its first [await] *)

Inductive setup : Type :=
  | Generator
  | SetupError (error : reason).

Definition getGenerator (fnId : string) : setup :=
  if negb (existsb (fun ids => bool_decide (fnId ∈ ids)) (pageMatch cfg)) then
    SetupError (ErrorObj "Error" ("Invalid generator id: " +:+ fnId))
  else if negb (downloadAllPages cfg) && (pageEnd cfg <? pageStart cfg)%Z then
    SetupError (ErrorObj "Error" "End page must not be less than the start page.")
  else Generator.

(** [dispatchDownload] up to the [while] loop. *)
Definition dispatchDownload (s : state) : state :=
  throwIfAborted (fun s =>
    let s := set_waitUntilDownloadComplete Pending s in
    let s := set_hooked true s in
    let s := set_dlPromise [] s in
    let s := set_status429 false s in
    arrive_batch s) s.

Definition AlreadyDownloading : reason := ErrorObj "Error" "Already downloading.".

(** The call [batchDownload(fnId)]: the error it is rejected with, if any,
    and the state it leaves. *)
Definition batchDownload (fnId : string) (s : state) : option reason * state :=
  if downloading s then (Some AlreadyDownloading, s)   (* [setDownloading(true)] throws *)
  else
    let s := set_downloading true s in
    let s := writeLog Info "Start download..." s in
    let s := reset s in
    let s := set_aborted None (set_controller true s) in
    match getGenerator fnId with
    | SetupError error => (None, catch_error false error s)
    | Generator => (None, dispatchDownload s)
    end.

(** ** What happens to the orchestrator *)

(** [batchDownload] runs as a coroutine: it goes from one [await] to the next
    without interruption, and between two of them anything of the following
    may happen.  The discovery functions are asynchronous generators
    ([async *]), the metadata request answers with a metadata object or
    fails, [sleep] is a timer, and a coroutine suspended in a race goes on in
    the turn in which one of the raced promises settles. *)
Inductive event : Type :=
  | Call (fnId : string)                     (* [batchDownload(fnId)] is called *)
  | AbortReq                                 (* [abort()] is called *)
  | GenYield (b : YieldArtworkId)            (* [generator.next()]: a batch *)
  | GenDone                                  (* [generator.next()]: done *)
  | GenThrow (r : reason)                    (* [generator.next()] rejects *)
  | TimerFired                               (* the pending [sleep] is over *)
  | Parsed (res : Meta + reason)             (* [parseMetaByArtworkId] settles *)
  | ValidityDone                             (* [checkValidity] settles *)
  | Settle (h : nat) (res : option reason).  (* a download settles *)

(** The state when [defineBatchDownload] returns. *)
Definition init : state :=
  {| artworkCount := Some 0%Z; successd := []; failed := []; excluded := [];
     downloading := false; isDone := true; tasks := []; controller := false;
     aborted := None; hooked := false; waitUntilDownloadComplete := Pending;
     dlPromise := []; status429 := false; inflight := []; dispatched := 0;
     pc := Idle; trace := [] |}.

(** One event; [None] when it cannot happen in that state.  This machine
    follows the stores through the first run; a call of [batchDownload]
    after a run has ended is followed by [session_step] below, which keeps
    track of the downloads the earlier runs left behind. *)
Definition step (s : state) (e : event) : option state :=
  match e with
  | Call fnId =>
      match pc s with
      | Idle => Some (batchDownload fnId s).2
      | Finished _ => None
      | _ => if downloading s then Some (batchDownload fnId s).2 else None
      end
  | AbortReq => Some (abort s)
  | Settle h res =>
      match list_find (fun t => (t.1 =? h)%nat) (inflight s) with
      | Some (i, (_, id)) => Some (on_settle i h id res s)
      | None => None
      end
  | GenYield b =>
      match pc s with
      | AwaitBatch => Some (on_yield b s)
      | _ => None
      end
  | GenDone =>
      match pc s with
      | AwaitBatch => Some (arrive_completion s)
      | _ => None
      end
  | GenThrow r =>
      match pc s with
      | AwaitBatch => Some (catch_error true r s)
      | _ => None
      end
  | TimerFired =>
      match pc s with
      | AwaitPoliteness => Some (next_id [] s)
      | AwaitCooldown id rest => Some (after_cooldown id rest s)
      | AwaitDelay rest => Some (next_id rest s)
      | _ => None
      end
  | Parsed res =>
      match pc s with
      | AwaitParse id rest => Some (on_parse id rest res s)
      | _ => None
      end
  | ValidityDone =>
      match pc s with
      | AwaitValidity id artworkMeta rest => Some (on_validity id artworkMeta rest s)
      | _ => None
      end
  end.

Fixpoint run (s : state) (events : list event) : option state :=
  match events with
  | [] => Some s
  | e :: rest =>
      match step s e with
      | Some s' => run s' rest
      | None => None
      end
  end.


(** ** One run after the other *)

(** No run is under way. *)
Definition ended (p : point) : bool :=
  match p with
  | Idle | Finished _ => true
  | _ => false
  end.

(** A download of an earlier run that has not settled yet: its handle, the
    id of its artwork, and whether the signal of that run is aborted.  Its
    handlers, [handleSucccess] and the one made by [failedHanlderFactory],
    are closures of that run and test that signal, which nothing aborts any
    more once [controller] holds the controller of a later run. *)
Record leftover : Type := {
  left_handle : nat;
  left_id : string;
  left_aborted : bool
}.

(** The stores with the run under way, or the one that ended last, and the
    downloads that earlier runs left behind. *)
Record session : Type := {
  now : state;
  earlier : list leftover
}.

(** The downloads of the run of [s] that are still in flight, as a later
    run finds them. *)
Definition left_behind (s : state) : list leftover :=
  map (fun t => {| left_handle := t.1; left_id := t.2;
                   left_aborted := match aborted s with
                                   | Some _ => true
                                   | None => false
                                   end |})
      (inflight s).

(** [batchDownload(fnId)] called while no run is under way.  [reset] empties
    the stores and [tasks] and cancels nothing: the downloads still in
    flight go on, and their handlers keep writing to the stores. *)
Definition start_run (fnId : string) (ss : session) : session :=
  {| now := (batchDownload fnId (set_inflight [] (now ss))).2;
     earlier := earlier ss ++ left_behind (now ss) |}.

(** A download of an earlier run settled.  Unless the signal of its run is
    aborted, its handler adds the id to [successd] or to [failed], the
    stores of the run under way (the flag [status429] it may set is the one
    of its own run); then [removeTask], then whoever is suspended on the
    completion promise, which the subscriber of the stores may have just
    resolved. *)
Definition on_leftover_settle (l : leftover) (res : option reason) (s : state) : state :=
  let s := if left_aborted l then s
           else match res with
                | None => addSuccessd (left_id l) s
                | Some r => addFailed {| failed_id := left_id l; failed_reason := r |} s
                end in
  wake (removeTask (left_id l) s).

(** The run under way moves on; the downloads left behind stay. *)
Definition keep (ss : session) (o : option state) : option session :=
  (fun s => {| now := s; earlier := earlier ss |}) <$> o.

(** One event of a session: as [step], except that a call of
    [batchDownload] while no run is under way starts the next run, and that
    the downloads left behind settle too. *)
Definition session_step (ss : session) (e : event) : option session :=
  match e with
  | Call fnId =>
      if ended (pc (now ss)) && negb (downloading (now ss))
      then Some (start_run fnId ss)
      else keep ss (step (now ss) e)
  | Settle h res =>
      match list_find (fun l => (left_handle l =? h)%nat) (earlier ss) with
      | Some (i, l) =>
          Some {| now := on_leftover_settle l res (now ss);
                  earlier := delete i (earlier ss) |}
      | None => keep ss (step (now ss) e)
      end
  | _ => keep ss (step (now ss) e)
  end.

Fixpoint session_run (ss : session) (events : list event) : option session :=
  match events with
  | [] => Some ss
  | e :: rest =>
      match session_step ss e with
      | Some ss' => session_run ss' rest
      | None => None
      end
  end.

Definition session_init : session := {| now := init; earlier := [] |}.

(** ** Quantities the properties are stated with *)

(** The number of items on the three result lists. *)
Definition settled_count (s : state) : nat :=
  length (successd s) + length (failed s) + length (excluded s).

(** The ids of the current batch that the loop has not finished with. *)
Definition pending (p : point) : nat :=
  match p with
  | AwaitCooldown _ rest | AwaitParse _ rest | AwaitValidity _ _ rest => S (length rest)
  | AwaitThreshold rest | AwaitDelay rest => length rest
  | Idle | AwaitBatch | AwaitPoliteness | AwaitCompletion | Finished _ => 0
  end.

(** The candidates of a batch. *)
Definition candidates (b : YieldArtworkId) : nat :=
  length (avaliable b) + length (invalid b) + length (unavaliable b).

(** The discovery sequence keeps its [total] at or above the number of
    candidates it has yielded so far, this batch included ([seen] counts
    those of the batches before). *)
Fixpoint totals_cover (seen : nat) (events : list event) : Prop :=
  match events with
  | [] => True
  | GenYield b :: rest =>
      (Z.of_nat (seen + candidates b) <= total b)%Z /\
      totals_cover (seen + candidates b) rest
  | _ :: rest => totals_cover seen rest
  end.

Definition is_cooldown (a : action) : bool :=
  match a with
  | Sleep ms => (ms =? 30000)%Z
  | _ => false
  end.

(** The 30-second cooldowns started so far. *)
Definition cooldowns (t : list action) : nat := length (List.filter is_cooldown t).

(** The failures carrying a 429 among the events. *)
Definition is_signal (e : event) : bool :=
  match e with
  | Settle _ (Some r) => is_429 r
  | Parsed (inr r) => is_429 r
  | _ => false
  end.

Definition signals (events : list event) : nat := length (List.filter is_signal events).

(** ** Invariants *)

(** The fields the accounting depends on. *)
Definition core_view (s : state) :=
  (artworkCount s, successd s, failed s, excluded s, isDone s, hooked s,
   waitUntilDownloadComplete s, aborted s).

(** What the store helpers leave alone. *)
Definition ctl_view (s : state) :=
  (pc s, inflight s, aborted s, dlPromise s, dispatched s, controller s, hooked s).

Definition count_ok (n : nat) (s : state) : Prop :=
  match artworkCount s with
  | None => n = 0%nat
  | Some t => (Z.of_nat n <= t)%Z
  end.

(** [n] candidates were yielded and [k] of them are not on a result list
    yet. *)
Definition Core (n k : nat) (s : state) : Prop :=
  hooked s = true /\ isDone s = checkIfDownloadCompleted s /\
  match waitUntilDownloadComplete s with
  | Pending =>
      aborted s = None /\ isDone s = false /\ n = (settled_count s + k)%nat /\ count_ok n s
  | Fulfilled => artworkCount s = Some (Z.of_nat (settled_count s)) /\ k = 0%nat
  | Rejected _ => aborted s <> None
  end.

(** The accounting invariant, for a discovery sequence that has yielded [n]
    candidates: those not on a result list are in flight or still to be
    handled by the loop. *)
Definition Inv (n : nat) (s : state) : Prop :=
  match pc s with
  | Idle => n = 0%nat /\ inflight s = [] /\ controller s = false
  | Finished Completed =>
      waitUntilDownloadComplete s = Fulfilled /\
      artworkCount s = Some (Z.of_nat (settled_count s)) /\ inflight s = []
  | Finished (Errored _) => True
  | p => Core n (length (inflight s) + pending p) s /\
         waitUntilDownloadComplete s <> Fulfilled
  end.

(** [batchDownload] is under way. *)
Definition running (p : point) : Prop :=
  match p with
  | Idle | Finished _ => False
  | _ => True
  end.

Definition weight (e : event) : nat :=
  match e with
  | GenYield b => candidates b
  | _ => 0
  end.

Definition can_cool (p : point) : bool :=
  match p with
  | AwaitCooldown _ _ | Finished _ => false
  | _ => true
  end.

(** A cooldown is still owed: the flag is set and the loop has not started
    the pause for it. *)
Definition armed (s : state) : nat :=
  if can_cool (pc s) && status429 s then 1 else 0.

Definition window_ok (s : state) : Prop :=
  match pc s with
  | AwaitThreshold _ => length (dlPromise s) = THRESHOLD
  | Finished _ => (length (dlPromise s) <= THRESHOLD)%nat
  | _ => (length (dlPromise s) < THRESHOLD)%nat
  end.

(** A coroutine suspended in a race against the completion promise sees it
    pending. *)
Definition parked_pending (s : state) : Prop :=
  match pc s with
  | AwaitBatch | AwaitPoliteness | AwaitCooldown _ _ | AwaitThreshold _
  | AwaitDelay _ | AwaitCompletion => waitUntilDownloadComplete s = Pending
  | _ => True
  end.

Definition K0 (m : nat) (s : state) : Prop :=
  window_ok s /\ (cooldowns (trace s) + armed s <= m)%nat.

(** The control invariant, after [m] failures carrying a 429. *)
Definition K (m : nat) (s : state) : Prop := K0 m s /\ parked_pending s.

(** What a continuation of the loop needs. *)
Definition Pre (m : nat) (s : state) : Prop :=
  (length (dlPromise s) < THRESHOLD)%nat /\
  (cooldowns (trace s) + (if status429 s then 1 else 0) <= m)%nat.

Definition kview (s : state) := (pc s, dlPromise s, status429 s, cooldowns (trace s)).

(** [s'] comes after [s] without a dispatch or a change of the result
    lists, and with the completion promise still settled if it was. *)
Definition follows (s s' : state) : Prop :=
  dispatched s' = dispatched s /\ inflight s' = inflight s /\
  excluded s' = excluded s /\
  (waitUntilDownloadComplete s <> Pending -> waitUntilDownloadComplete s' <> Pending).

(** No selected filter id names an include filter. *)
Definition no_include_selected : Prop :=
  forall selected id f,
    selectedFilters cfg = Some selected -> id ∈ selected ->
    find (fun f => String.eqb (filter_id f) id) (filters cfg) = Some f ->
    filter_kind f = exclude.

(** ** The life cycle of a run *)

Definition is_abort_call (a : action) : bool :=
  match a with
  | OnDownloadAbort _ => true
  | _ => false
  end.

(** The calls of [onDownloadAbort] so far. *)
Definition abort_calls (t : list action) : nat := length (List.filter is_abort_call t).

(** 1 once the abort signal has fired. *)
Definition signalled (s : state) : nat :=
  match aborted s with
  | Some _ => 1
  | None => 0
  end.

(** What the life cycle depends on. *)
Definition life_view (s : state) :=
  (pc s, downloading s, controller s, aborted s, hooked s, abort_calls (trace s)).

(** What holds while [dispatchDownload] runs: the [downloading] store is
    [true], the controller and the abort listener are in place, and the
    listener has called [onDownloadAbort] if and only if the signal has
    fired. *)
Definition Live (s : state) : Prop :=
  downloading s = true /\ controller s = true /\ hooked s = true /\
  abort_calls (trace s) = signalled s.

(** The life-cycle invariant. *)
Definition Life (s : state) : Prop :=
  match pc s with
  | Idle =>
      downloading s = false /\ controller s = false /\ aborted s = None /\
      abort_calls (trace s) = 0%nat
  | Finished Completed =>
      downloading s = false /\ controller s = true /\ hooked s = true /\
      abort_calls (trace s) = signalled s
  | Finished (Errored _) =>
      downloading s = false /\ controller s = true /\ aborted s <> None /\
      abort_calls (trace s) = (if hooked s then 1 else 0)%nat
  | _ => Live s
  end.

(** [s'] comes after [s] with the count and the lists of succeeded and
    failed works as they were, and with the abort signal still fired if it
    had. *)
Definition frozen (s s' : state) : Prop :=
  artworkCount s' = artworkCount s /\ successd s' = successd s /\
  failed s' = failed s /\
  (aborted s <> None -> aborted s' <> None) /\ (pc s <> Idle -> pc s' <> Idle).

(** The count and the three result lists. *)
Definition results (s : state) := (artworkCount s, successd s, failed s, excluded s).

Definition is_log (a : action) : bool :=
  match a with
  | Log _ => true
  | _ => false
  end.

(** What the orchestrator did to the outside, the log apart. *)
Definition effects (t : list action) : list action :=
  List.filter (fun a => negb (is_log a)) t.

(** ** Sessions *)

(** No download of an earlier run can write to the stores any more: those
    left behind belong to runs whose signal is aborted, and so do those of
    the run that ended last, if any of them is still in flight. *)
Definition clean (ss : session) : Prop :=
  Forall (fun l => left_aborted l = true) (earlier ss) /\
  (aborted (now ss) = None -> inflight (now ss) = []).

(** A run that ended with an error has its signal aborted. *)
Definition errored_aborted (s : state) : Prop :=
  match pc s with
  | Finished (Errored _) => aborted s <> None
  | _ => True
  end.

Definition is_download (a : action) : bool :=
  match a with
  | Download _ _ => true
  | _ => false
  end.

(** The calls of [downloadByArtworkId] so far. *)
Definition downloads (t : list action) : list action := List.filter is_download t.

(** What tells whether anything was dispatched. *)
Definition dview (s : state) := (dispatched s, inflight s, downloads (trace s)).

(** The loop has no id of a batch in hand. *)
Definition between_batches (p : point) : Prop :=
  match p with
  | Idle | AwaitBatch | AwaitPoliteness | AwaitCompletion | Finished _ => True
  | _ => False
  end.

(** The discovery sequences did the filtering they are handed
    [checkValidity] for: every id a batch lists as [avaliable] is the id of
    a work whose metadata passed [checkValidity]. *)
Definition filtered_by_generator (events : list event) : Prop :=
  forall b id, GenYield b ∈ events -> id ∈ avaliable b ->
    exists partialMeta, checkValidity partialMeta = true.

(** Nothing was ever dispatched. *)
Definition Quiet (ss : session) : Prop :=
  dview (now ss) = (0%nat, [], []) /\ earlier ss = [] /\
  (filterWhenGenerateIngPage cfg = true -> between_batches (pc (now ss))).

End WithMeta.

(** ** Concrete configurations and runs *)

Module Examples.

(** Metadata reduced to its tag list. *)
Definition tags_of (m : option (list string)) : option (list string) := m.

Definition accept_all : FilterSpec (Meta := option (list string)) :=
  {| filter_id := "all"; filter_kind := include; fn := fun _ => Some true |}.

Definition reject_all : FilterSpec (Meta := option (list string)) :=
  {| filter_id := "none"; filter_kind := exclude; fn := fun _ => Some true |}.

(** Filtering is left to the discovery sequence; the generator ["gen"] is
    the only one on offer, and the [n]-th random suffix is ["r" ++ n]. *)
Definition inline_cfg : config (Meta := option (list string)) :=
  {| filters := [accept_all; reject_all]; enableTagFilter := true;
     filterWhenGenerateIngPage := true; pageMatch := [["gen"]];
     selectedFilters := Some ["all"]; blacklistTag := []; whitelistTag := [];
     downloadAllPages := true; pageStart := 1; pageEnd := 1;
     random := fun n => "r" +:+ pretty n |}.

(** The same with the filter pipeline run by the orchestrator and nothing
    selected for inclusion. *)
Definition deferred_cfg : config (Meta := option (list string)) :=
  {| filters := [accept_all; reject_all]; enableTagFilter := true;
     filterWhenGenerateIngPage := false; pageMatch := [["gen"]];
     selectedFilters := Some ["none"]; blacklistTag := []; whitelistTag := [];
     downloadAllPages := true; pageStart := 1; pageEnd := 1;
     random := fun n => "r" +:+ pretty n |}.

(** An allow list and a deny list, with everything selected for inclusion. *)
Definition tagged_cfg : config (Meta := option (list string)) :=
  {| filters := [accept_all; reject_all]; enableTagFilter := true;
     filterWhenGenerateIngPage := false; pageMatch := [["gen"]];
     selectedFilters := Some ["all"]; blacklistTag := ["b"]; whitelistTag := ["a"];
     downloadAllPages := true; pageStart := 1; pageEnd := 1;
     random := fun n => "r" +:+ pretty n |}.

Definition meta0 : option (list string) := Some [].

Definition batch (n : Z) (ids : list string) : YieldArtworkId :=
  {| total := n; page := 1; avaliable := ids; invalid := []; unavaliable := [] |}.

Definition too_many_requests : reason := RequestError "https://www.pixiv.net/ajax" 429.

(** The state a run leaves. *)
Definition state_after (cfg : config) (events : list event) : state :=
  default init (run tags_of cfg init events).

(** One batch whose [total], 1, is below its two candidates. *)
Definition short_total : list (event (Meta := option (list string))) :=
  [Call "gen";
   GenYield {| total := 1; page := 1; avaliable := [];
               invalid := ["x"]; unavaliable := ["y"] |}].

(** Two artworks, both downloaded. *)
Definition two_done : list (event (Meta := option (list string))) :=
  [Call "gen"; GenYield (batch 2 ["a"; "b"]);
   Parsed (inl meta0); TimerFired; Parsed (inl meta0);
   Settle 0 None; Settle 1 None].

(** Seven artworks: the first five are dispatched, the first download
    succeeds, and two more are dispatched while four are still in flight. *)
Definition six_in_flight : list (event (Meta := option (list string))) :=
  [Call "gen"; GenYield (batch 7 ["1"; "2"; "3"; "4"; "5"; "6"; "7"]);
   Parsed (inl meta0); TimerFired; Parsed (inl meta0); TimerFired;
   Parsed (inl meta0); TimerFired; Parsed (inl meta0); TimerFired;
   Parsed (inl meta0);
   Settle 0 None;
   Parsed (inl meta0); TimerFired; Parsed (inl meta0)].

(** The first five of seven dispatched, none settled. *)
Definition five_waiting : list (event (Meta := option (list string))) :=
  [Call "gen"; GenYield (batch 7 ["1"; "2"; "3"; "4"; "5"; "6"; "7"]);
   Parsed (inl meta0); TimerFired; Parsed (inl meta0); TimerFired;
   Parsed (inl meta0); TimerFired; Parsed (inl meta0); TimerFired;
   Parsed (inl meta0)].

(** Two artworks in flight; the first download succeeds, then the run is
    cancelled. *)
Definition cancel_after_success : list (event (Meta := option (list string))) :=
  [Call "gen"; GenYield (batch 2 ["1"; "2"]);
   Parsed (inl meta0); TimerFired; Parsed (inl meta0);
   Settle 0 None; AbortReq].

(** With the filter pipeline run by the orchestrator: the run is cancelled
    while [checkValidity] is awaited. *)
Definition cancel_during_validity : list (event (Meta := option (list string))) :=
  [Call "gen"; GenYield (batch 1 ["1"]); Parsed (inl (Some ["a"]));
   AbortReq; ValidityDone].

(** Three artworks: the first two downloads fail with a 429 before the
    third id is taken up; the third succeeds. *)
Definition two_signals : list (event (Meta := option (list string))) :=
  [Call "gen"; GenYield (batch 3 ["a"; "b"; "c"]);
   Parsed (inl meta0); TimerFired; Parsed (inl meta0);
   Settle 0 (Some too_many_requests); Settle 1 (Some too_many_requests);
   TimerFired; TimerFired; Parsed (inl meta0); Settle 2 None].

(** One artwork dispatched and waiting out the delay. *)
Definition one_dispatched : list (event (Meta := option (list string))) :=
  [Call "gen"; GenYield (batch 2 ["a"; "b"]); Parsed (inl meta0)].

(** One artwork parsed, the filter pipeline about to answer. *)
Definition one_parsed : list (event (Meta := option (list string))) :=
  [Call "gen"; GenYield (batch 1 ["a"]); Parsed (inl meta0)].

(** Filtering is left to the discovery sequence, and nothing is selected
    for inclusion. *)
Definition unfiltered_cfg : config (Meta := option (list string)) :=
  {| filters := [accept_all; reject_all]; enableTagFilter := true;
     filterWhenGenerateIngPage := true; pageMatch := [["gen"]];
     selectedFilters := Some ["none"]; blacklistTag := []; whitelistTag := [];
     downloadAllPages := true; pageStart := 1; pageEnd := 1;
     random := fun n => "r" +:+ pretty n |}.

(** The state a session leaves. *)
Definition session_after (cfg : config) (events : list event) : session :=
  default session_init (session_run tags_of cfg session_init events).

(** A run of two artworks after [cancel_after_success]: both are
    downloaded, and the download the cancelled run left behind settles in
    between. *)
Definition second_run : list (event (Meta := option (list string))) :=
  [GenYield (batch 2 ["a"; "b"]);
   Parsed (inl meta0); TimerFired; Parsed (inl meta0);
   Settle 1 None; Settle 2 None; Settle 3 None].

(** A run whose [total], 1, is below its two candidates: it completes when
    the first download succeeds, the second one still in flight.  Then a
    run of two artworks, during which that download succeeds. *)
Definition short_then_two : list (event (Meta := option (list string))) :=
  [Call "gen"; GenYield (batch 1 ["a"; "b"]);
   Parsed (inl meta0); TimerFired; Parsed (inl meta0); Settle 0 None;
   Call "gen"; GenYield (batch 2 ["c"; "d"]);
   Parsed (inl meta0); Settle 1 None; TimerFired; Parsed (inl meta0);
   Settle 2 None].

(** With the filter pipeline run by the orchestrator and nothing selected
    for inclusion: two runs of one artwork each. *)
Definition two_excluded : list (event (Meta := option (list string))) :=
  [Call "gen"; GenYield (batch 1 ["a"]); Parsed (inl meta0); ValidityDone;
   Call "gen"; GenYield (batch 1 ["b"]); Parsed (inl meta0); ValidityDone].

End Examples.

End BatchDownload.

(* ===================================================================== *)
(** * What the site modules plug into the batch downloader *)
(* ===================================================================== *)

Module Sites.
Import JsNumber HistoryDb BatchDownload.

Local Open Scope string_scope.

Section WithStore.

Context {Meta : Type}.

(** [Number(s)] on a string; [meta.id], [None] when it is [undefined]; and
    the history store at the time the filter runs. *)
Variable Number : string -> number.
Variable meta_id : Meta -> option string.
Variable st : db.

(** The filter [exclude_downloaded] of the e621 and rule34vault modules:
    [fn(meta) { return !!meta.id && historyDb.has(meta.id); }].  The empty
    string is falsy; a rejected [has] makes the predicate throw. *)
Definition exclude_downloaded_fn : predicate (Meta := Meta) :=
  fun meta =>
    match meta_id meta with
    | None => Some false
    | Some id =>
        if String.eqb id "" then Some false
        else
          match has Number (inr id) st with
          | Ok (downloaded, _) => Some downloaded
          | Throw _ => None
          end
    end.

Definition exclude_downloaded : FilterSpec (Meta := Meta) :=
  {| filter_id := "exclude_downloaded"; filter_kind := exclude;
     fn := exclude_downloaded_fn |}.

(** What [downloadArtworkByMeta] of these modules records once the download
    is over: [historyDb.add({ pid: Number(meta.id), ... })]. *)
Definition downloaded_record (id : string) (i : HistoryInfo) : HistoryData :=
  {| pid := Number id; info := i; HistoryDb.page := None |}.

End WithStore.

End Sites.

(* ===================================================================== *)
(** * A discovery function: [illustMangaGenerator] of the pixiv parser *)
(* ===================================================================== *)

Module PixivGenerator.
Import BatchDownload.

Local Open Scope string_scope.
Local Open Scope list_scope.

(** [arr.slice(start, end)]: a negative index counts from the end, and both
    are clamped to the array. *)
Definition slice {A : Type} (arr : list A) (start final : Z) : list A :=
  let len := Z.of_nat (length arr) in
  let k := if (start <? 0)%Z then Z.max (len + start) 0 else Z.min start len in
  let final := if (final <? 0)%Z then Z.max (len + final) 0 else Z.min final len in
  take (Z.to_nat (Z.max (final - k) 0)) (drop (Z.to_nat k) arr).

(** How the iteration of a generator ends. *)
Inductive ending : Type :=
  | Done
  | Thrown (r : reason).

Section WithApi.

(** A work as the API describes it ([work] is handed to [checkValidity] as
    it is), with [String(work.id)] and [work.isMasked]; the validity
    function the generator is given; the user; the comparison sort
    [ids.sort((a, b) => Number(b) - Number(a))]; and the API: the works of
    the response to the request for a chunk of ids, as
    [Object.values(data.works).sort(...)] leaves them, or the reason the
    request is rejected with. *)
Context {Meta : Type}.
Variable work_id : Meta -> string.
Variable isMasked : Meta -> bool.
Variable checkValidity : Meta -> bool.
Variable userId : string.
Variable sort_desc : list string -> list string.
Variable getWorks : list string -> list Meta + reason.

Definition ARTWORKS_PER_PAGE : nat := 48.

(** One turn of the loop over [workDatas]. *)
Definition sort_work (acc : list string * list string * list string) (work : Meta)
  : list string * list string * list string :=
  let '(avaliable, invalid, unavaliable) := acc in
  if isMasked work then (avaliable, invalid, unavaliable ++ [work_id work])
  else if checkValidity work then (avaliable ++ [work_id work], invalid, unavaliable)
  else (avaliable, invalid ++ [work_id work], unavaliable).

Definition classify (workDatas : list Meta) : list string * list string * list string :=
  fold_left sort_work workDatas ([], [], []).

(** The [do ... while (selectedIds.length > 0)] loop: the chunks requested
    with the batches yielded for them, and how the iteration ends; [None]
    when [fuel] turns of the loop were not enough. *)
Fixpoint pages (fuel : nat) (total page : Z) (selectedIds : list string)
  : option (list (list string * YieldArtworkId) * ending) :=
  match fuel with
  | O => None
  | S fuel =>
      let chunk := take ARTWORKS_PER_PAGE selectedIds in
      let selectedIds := drop ARTWORKS_PER_PAGE selectedIds in
      match getWorks chunk with
      | inr r => Some ([], Thrown r)
      | inl workDatas =>
          let '(avaliable, invalid, unavaliable) := classify workDatas in
          let batch := {| total := total; page := page; avaliable := avaliable;
                          invalid := invalid; unavaliable := unavaliable |} in
          if (0 <? length selectedIds)%nat then
            match pages fuel total (page + 1) selectedIds with
            | Some (rest, e) => Some ((chunk, batch) :: rest, e)
            | None => None
            end
          else Some ([(chunk, batch)], Done)
      end
  end.

(** The ids the page range selects among the sorted ids of the profile. *)
Definition selected (pageRange : option (Z * Z)) (ids : list string) : list string :=
  let sliceStart := match pageRange with
                    | Some (startPage, _) => ((startPage - 1) * Z.of_nat ARTWORKS_PER_PAGE)%Z
                    | None => 0%Z
                    end in
  let sliceEnd := match pageRange with
                  | Some (_, endPage) => (endPage * Z.of_nat ARTWORKS_PER_PAGE)%Z
                  | None => Z.of_nat (length ids)
                  end in
  slice ids sliceStart sliceEnd.

(** [illustMangaGenerator(pageRange, checkValidity, userId)] iterated to its
    end, on a profile whose [illusts] and [manga] have the given keys
    ([None] where the property is not an object). *)
Definition illustMangaGenerator (pageRange : option (Z * Z))
    (illusts manga : option (list string))
  : option (list (list string * YieldArtworkId) * ending) :=
  let ids := default [] illusts ++ default [] manga in
  if (length ids =? 0)%nat then
    Some ([], Thrown (ErrorObj "Error" ("User " +:+ userId +:+ " has no illusts or mangas.")))
  else
    let ids := sort_desc ids in
    let page := match pageRange with
                | Some (startPage, _) => startPage
                | None => 1%Z
                end in
    let selectedIds := selected pageRange ids in
    if (length selectedIds =? 0)%nat then
      Some ([], Thrown (ErrorObj "RangeError"
                          ("Page " +:+ pretty page +:+ " exceeds the limit.")))
    else pages (length selectedIds) (Z.of_nat (length selectedIds)) page selectedIds.

End WithApi.

(** ** [followLatestGenerator] *)

(** [Math.min(...ids)]: [Infinity] on the empty list. *)
Inductive bound : Type :=
  | Fin (z : Z)
  | Infinity.

Definition bound_min (a b : bound) : bound :=
  match a, b with
  | Fin x, Fin y => Fin (Z.min x y)
  | Fin x, Infinity => Fin x
  | Infinity, b => b
  end.

(** [a < b] *)
Definition bound_lt (a b : bound) : bool :=
  match a, b with
  | Fin x, Fin y => (x <? y)%Z
  | Fin _, Infinity => true
  | Infinity, _ => false
  end.

Definition findEarliestId (ids : list Z) : bound :=
  fold_right (fun id m => bound_min (Fin id) m) Infinity ids.

(** [FollowLatest], as far as the generator reads it: [data.page.ids] and
    [data.thumbnails.illust]. *)
Record FollowLatest {Meta : Type} : Type := {
  page_ids : list Z;
  thumbnails_illust : list Meta
}.
Arguments FollowLatest Meta : clear implicits.

(** What reading [data.thumbnails] throws when [data] is [undefined] (the
    message is the engine's). *)
Definition undefined_data : reason :=
  ErrorObj "TypeError" "Cannot read properties of undefined (reading 'thumbnails')".

(** A batch was yielded, or the generator threw: what comes first, then the
    rest. *)
Definition then_ (first : YieldArtworkId + reason)
    (rest : option (list YieldArtworkId * ending))
  : option (list YieldArtworkId * ending) :=
  match first with
  | inr r => Some ([], Thrown r)
  | inl batch =>
      match rest with
      | Some (batches, e) => Some (batch :: batches, e)
      | None => None
      end
  end.

Section WithFollowApi.

(** A work of [data.thumbnails.illust], with [String(work.id)], the number
    [+work.id] ([None] when it is [NaN]) and [work.isMasked]; the validity
    function; and the API: the response for a page of the feed, or the
    reason the request is rejected with. *)
Context {Meta : Type}.
Variable work_id : Meta -> string.
Variable work_number : Meta -> option Z.
Variable isMasked : Meta -> bool.
Variable checkValidity : Meta -> bool.
Variable getFollowLatestWorks : Z -> FollowLatest Meta + reason.

Definition PAGE_LIMIT : Z := 34.
Definition FOLLOW_PER_PAGE : Z := 60.

(** [ids.filter((id) => !illust.some((item) => +item.id === id))] *)
Definition idDiff (ids : list Z) (illust : list Meta) : list Z :=
  List.filter
    (fun id => negb (existsb (fun item => bool_decide (work_number item = Some id)) illust))
    ids.

(** [yieldData(data, page)] with the current value of [total]; [data] is
    [None] when the variable holds [undefined]. *)
Definition yieldData (total : Z) (data : option (FollowLatest Meta)) (page : Z)
  : YieldArtworkId + reason :=
  match data with
  | None => inr undefined_data
  | Some data =>
      let illust := thumbnails_illust data in
      let '(avaliable, invalid, unavaliable) :=
        classify work_id isMasked checkValidity illust in
      let ids := page_ids data in
      let unavaliable :=
        if negb (length ids =? length illust)%nat
        then unavaliable ++ map pretty (idDiff ids illust)
        else unavaliable in
      inl {| total := total; page := page; avaliable := avaliable;
             invalid := invalid; unavaliable := unavaliable |}
  end.

(** The loop [while (++page <= endPage)] and the statement after it, from
    the test of the loop with [page] not yet incremented; [None] when [fuel]
    turns were not enough. *)
Fixpoint follow_loop (fuel : nat) (page endPage : Z) (earliestId : bound) (total : Z)
    (cache : option (FollowLatest Meta)) : option (list YieldArtworkId * ending) :=
  let page := (page + 1)%Z in
  if (page <=? endPage)%Z then
    match fuel with
    | O => None
    | S fuel =>
        match getFollowLatestWorks page with
        | inr r => Some ([], Thrown r)
        | inl data =>
            let ids := page_ids data in
            let pageEarliestId := findEarliestId ids in
            if negb (bound_lt pageEarliestId earliestId) then
              (* duplicate works: the cached page, [break], the last page *)
              then_ (yieldData total cache (page - 1))
                (then_ (yieldData total cache (page - 1)) (Some ([], Done)))
            else
              let total := (total + Z.of_nat (length ids))%Z in
              then_ (yieldData total cache (page - 1))
                (follow_loop fuel page endPage pageEarliestId total (Some data))
        end
    end
  else then_ (yieldData total cache (page - 1)) (Some ([], Done)).

(** [followLatestGenerator(pageRange, checkValidity, mode)] iterated to its
    end. *)
Definition followLatestGenerator (pageRange : option (Z * Z))
  : option (list YieldArtworkId * ending) :=
  let startPage := match pageRange with
                   | Some (startPage, _) => startPage
                   | None => 1%Z
                   end in
  let endPage := match pageRange with
                 | Some (_, endPage) =>
                     if (endPage >? PAGE_LIMIT)%Z then PAGE_LIMIT else endPage
                 | None => PAGE_LIMIT
                 end in
  if (startPage >? PAGE_LIMIT)%Z then
    Some ([], Thrown (ErrorObj "RangeError"
                        ("Page " +:+ pretty startPage +:+ " exceeds the limit.")))
  else
    match getFollowLatestWorks startPage with
    | inr r => Some ([], Thrown r)
    | inl data =>
        let ids := page_ids data in
        let total := Z.of_nat (length ids) in
        let earliestId := findEarliestId ids in
        if (endPage =? startPage)%Z then
          then_ (yieldData total (Some data) startPage) (Some ([], Done))
        else
          let second :=
            if (total =? FOLLOW_PER_PAGE)%Z then
              match getFollowLatestWorks (startPage + 1) with
              | inr r => inr r
              | inl secondPageData =>
                  let secondIds := page_ids secondPageData in
                  let secondPageEarliestId := findEarliestId secondIds in
                  if bound_lt secondPageEarliestId earliestId then
                    inl ((startPage + 1)%Z, secondPageEarliestId, Some secondPageData,
                         (total + Z.of_nat (length secondIds))%Z)
                  else inl ((startPage + 1)%Z, earliestId, None, total)
              end
            else inl (startPage, earliestId, None, total) in
          match second with
          | inr r => Some ([], Thrown r)
          | inl (page, earliestId, cache, total) =>
              then_ (yieldData total (Some data) startPage)
                (if (total =? FOLLOW_PER_PAGE)%Z then Some ([], Done)
                 else if (total <? FOLLOW_PER_PAGE * 2)%Z
                         || (endPage - startPage =? 1)%Z then
                   then_ (yieldData total cache page) (Some ([], Done))
                 else
                   follow_loop (Z.to_nat (endPage - page)) page endPage earliestId total
                     cache)
          end
    end.

End WithFollowApi.

(** The batches among the events of a run, in order. *)
Definition yields {Meta : Type} (events : list (event (Meta := Meta)))
  : list YieldArtworkId :=
  omap (fun e => match e with
                 | GenYield b => Some b
                 | _ => None
                 end) events.

(** The totals of the batches cover the candidates yielded so far, this
    batch included ([seen] counts those of the batches before): what
    [totals_cover] asks of the batches among the events of a run. *)
Fixpoint batches_cover (seen : nat) (batches : list YieldArtworkId) : Prop :=
  match batches with
  | [] => True
  | b :: rest =>
      (Z.of_nat (seen + candidates b) <= total b)%Z /\
      batches_cover (seen + candidates b) rest
  end.

(** All batches are covered, or all but a last batch that repeats the one
    before it. *)
Definition covered_up_to_repeat (seen : nat) (batches : list YieldArtworkId) : Prop :=
  batches_cover seen batches \/
  exists batches' b,
    batches = batches' ++ [b; b] /\ batches_cover seen (batches' ++ [b]).

End PixivGenerator.

(* ===================================================================== *)
(** * Properties of the history store *)
(* ===================================================================== *)

Module HistoryDbSpec.
Import JsNumber HistoryDb.

Lemma throwIfInvalidNumber_valid (num : number) (st : db) :
  valid_number num = true -> throwIfInvalidNumber num st = Ok (tt, st).
Proof.
  unfold valid_number, throwIfInvalidNumber. intros ->. reflexivity.
Qed.

Lemma throwIfInvalidNumber_invalid (num : number) (st : db) :
  valid_number num = false -> throwIfInvalidNumber num st = Throw (InvalidNumber num).
Proof.
  unfold valid_number, throwIfInvalidNumber. intros ->. reflexivity.
Qed.

(** [add], [has] and [hasPage] throw on an invalid identifier before they
    touch the store. *)
Lemma add_invalid_pid (d : HistoryData) (st : db) :
  valid_number (pid d) = false -> add d st = Throw (InvalidNumber (pid d)).
Proof.
  intros H. unfold add, mbind, M_bind.
  rewrite (throwIfInvalidNumber_invalid _ _ H). reflexivity.
Qed.

Lemma add_invalid_page (d : HistoryData) (q : number) (st : db) :
  valid_number (pid d) = true -> page d = Some q -> valid_number q = false ->
  add d st = Throw (InvalidNumber q).
Proof.
  intros Hp Hq H. unfold add, mbind, M_bind.
  rewrite (throwIfInvalidNumber_valid _ _ Hp), Hq.
  rewrite (throwIfInvalidNumber_invalid _ _ H). reflexivity.
Qed.

Lemma has_invalid (Number : string -> number) (k : number + string) (st : db) :
  valid_number (to_number Number k) = false ->
  has Number k st = Throw (InvalidNumber (to_number Number k)).
Proof.
  intros H. unfold has, mbind, M_bind.
  rewrite (throwIfInvalidNumber_invalid _ _ H). reflexivity.
Qed.

Lemma hasPage_invalid (Number : string -> number) (k : number + string) (p : number)
    (st : db) :
  valid_number (to_number Number k) = false \/ valid_number p = false ->
  exists num, hasPage Number k p st = Throw (InvalidNumber num).
Proof.
  intros H. unfold hasPage, mbind, M_bind.
  destruct (valid_number (to_number Number k)) eqn:Hk.
  - destruct H as [H | H]; [discriminate |].
    rewrite (throwIfInvalidNumber_valid _ _ Hk), (throwIfInvalidNumber_invalid _ _ H).
    eauto.
  - rewrite (throwIfInvalidNumber_invalid _ _ Hk). eauto.
Qed.

Lemma hasPage_full (Number : string -> number) (st : db) (k p : number) :
  fully_downloaded st k -> valid_number k = true -> valid_number p = true ->
  hasPage Number (inl k) p st = Ok (true, st).
Proof.
  intros [Ht Hc] Hk Hp. unfold hasPage, mbind, M_bind. simpl.
  rewrite (throwIfInvalidNumber_valid _ _ Hk), (throwIfInvalidNumber_valid _ _ Hp).
  unfold get_state. simpl.
  destruct (caches st) as [c |] eqn:Hcs.
  - rewrite (Hc c eq_refl). reflexivity.
  - unfold table_page in Ht. destruct (history st !! k) as [[? ? [arr |]] |]; simpl in Ht;
      try discriminate; reflexivity.
Qed.

Lemma fully_downloaded_put (st : db) (d : HistoryData) c :
  (forall c', c = Some c' -> c' !! pid d = Some None) ->
  fully_downloaded
    {| history := <[pid d := {| item_pid := pid d; item_info := info d;
                                item_page := None |}]> (history st);
       caches := c |} (pid d).
Proof.
  intros Hc. split; [| exact Hc].
  unfold table_page. simpl. by rewrite lookup_insert_eq.
Qed.

(** C7. On the empty store, [add] of page 3 of work 1 leaves the one-byte
    bitset [8], bit 3; [hasPage] then answers true for page 3, false for
    page 4, and false, without throwing, for page 9, whose byte lies beyond
    the bitset; [add] of page 10 then leaves the two-byte bitset [8; 4],
    bit 3 and bit 10, and [hasPage] answers true for both pages. *)
Theorem page_roundtrip_and_growth (Number : string -> number) :
  let one := of_Z 1 in
  let st1 := exec (add (page_data 1 3)) empty_store in
  let st2 := exec (add (page_data 1 10)) st1 in
  add (page_data 1 3) empty_store = Ok (tt, st1) /\
  table_page st1 one = Some (Some [8]) /\
  mirror_page st1 one = Some (Some [8]) /\
  page_bit_set [8] 0 3 = true /\
  hasPage Number (inl one) (of_Z 3) st1 = Ok (true, st1) /\
  hasPage Number (inl one) (of_Z 4) st1 = Ok (false, st1) /\
  hasPage Number (inl one) (of_Z 9) st1 = Ok (false, st1) /\
  add (page_data 1 10) st1 = Ok (tt, st2) /\
  table_page st2 one = Some (Some [8; 4]) /\
  mirror_page st2 one = Some (Some [8; 4]) /\
  page_bit_set [8; 4] 0 3 = true /\ page_bit_set [8; 4] 1 2 = true /\
  hasPage Number (inl one) (of_Z 3) st2 = Ok (true, st2) /\
  hasPage Number (inl one) (of_Z 10) st2 = Ok (true, st2).
Proof.
  intros one st1 st2.
  repeat match goal with |- _ /\ _ => split end; vm_compute; reflexivity.
Qed.

(** C9: the code at a failing input.  [bulkAdd] does not validate: a
    record whose id is -1, or 3/2, is written to the mirror and to the table
    without an error, whereas [add] throws on the same ids. *)
Theorem bulkAdd_accepts_invalid_pid :
  let minus_one := of_Z (-1) in
  let three_halves := Finite (Q2Qc (3 # 2)) in
  let item k := {| item_pid := k; item_info := no_info; item_page := None |} in
  let st' := exec (bulkAdd [item minus_one; item three_halves]) empty_store in
  valid_number minus_one = false /\ valid_number three_halves = false /\
  bulkAdd [item minus_one; item three_halves] empty_store = Ok (tt, st') /\
  history st' !! minus_one = Some (item minus_one) /\
  history st' !! three_halves = Some (item three_halves) /\
  mirror_page st' minus_one = Some None /\
  mirror_page st' three_halves = Some None /\
  add (full_data (-1)) empty_store = Throw (InvalidNumber minus_one).
Proof.
  intros minus_one three_halves item st'.
  repeat match goal with |- _ /\ _ => split end; vm_compute; reflexivity.
Qed.


(** ** Numbers that pass the validation *)

Lemma Qred_inject_Z (z : Z) : Qred (inject_Z z) = inject_Z z.
Proof. apply Qred_identity. simpl. apply Z.gcd_1_r. Qed.

Lemma to_Z_of_Z (z : Z) : to_Z (of_Z z) = z.
Proof. unfold to_Z, of_Z. simpl. rewrite Qred_inject_Z. simpl. apply Z.div_1_r. Qed.

Lemma valid_of_Z (z : Z) : 0 <= z <= MAX_SAFE_INTEGER -> valid_number (of_Z z) = true.
Proof.
  intros [H0 H1]. unfold valid_number, isSafeInteger, geq0, of_Z. simpl.
  rewrite Qred_inject_Z. simpl.
  rewrite Z.abs_eq by exact H0.
  apply andb_true_intro. split; [apply Z.leb_le, H1 | apply Z.leb_le, H0].
Qed.

Lemma valid_number_inv (n : number) :
  valid_number n = true -> n = of_Z (to_Z n) /\ 0 <= to_Z n <= MAX_SAFE_INTEGER.
Proof.
  unfold valid_number, isSafeInteger, geq0.
  destruct n as [q | |]; [| simpl; discriminate ..].
  intros H. apply andb_prop in H as [H Hg]. apply andb_prop in H as [Hd Hn].
  apply Z.eqb_eq in Hd. apply Z.leb_le in Hn. apply Z.leb_le in Hg.
  unfold to_Z. rewrite Hd, Z.div_1_r. rewrite Z.abs_eq in Hn by exact Hg.
  split; [| lia].
  unfold of_Z. f_equal. apply Qc_is_canon.
  destruct q as [[num den] Hq]. simpl in *.
  injection Hd as ->. unfold Q2Qc. simpl. rewrite Qred_correct. reflexivity.
Qed.

Lemma to_Z_inj (p q : number) :
  valid_number p = true -> valid_number q = true -> to_Z p = to_Z q -> p = q.
Proof.
  intros Hp Hq H. apply valid_number_inv in Hp as [Ep _], Hq as [Eq _].
  rewrite Ep, H. symmetry. exact Eq.
Qed.

(** X1. [throwIfInvalidNumber] returns normally exactly on the doubles that
    are an integer between 0 and [Number.MAX_SAFE_INTEGER]; on every other
    number (negative, fractional, too large, [NaN], infinite) it throws, and
    the error names the number. *)
Theorem throwIfInvalidNumber_passes_iff (n : number) (st : db) :
  (throwIfInvalidNumber n st = Ok (tt, st) <->
   exists z, 0 <= z <= MAX_SAFE_INTEGER /\ n = of_Z z) /\
  (throwIfInvalidNumber n st = Ok (tt, st) \/
   throwIfInvalidNumber n st = Throw (InvalidNumber n)).
Proof.
  destruct (valid_number n) eqn:Hv.
  - rewrite (throwIfInvalidNumber_valid _ _ Hv). split; [| by left].
    split; [| done]. intros _. apply valid_number_inv in Hv as [Hn Hr]. eauto.
  - rewrite (throwIfInvalidNumber_invalid _ _ Hv). split; [| by right].
    split; [done |]. intros (z & Hz & ->). by rewrite valid_of_Z in Hv.
Qed.

(** ** The page bitset *)

Lemma land_bit (x k : Z) :
  0 <= k -> (Z.land x (Z.shiftl 1 k) =? 0) = negb (Z.testbit x k).
Proof.
  intros Hk. rewrite Z.shiftl_1_l.
  destruct (Z.testbit x k) eqn:Hb; simpl.
  - apply Z.eqb_neq. intros H. apply (f_equal (fun v => Z.testbit v k)) in H.
    rewrite Z.land_spec, Hb, Z.pow2_bits_true, Z.bits_0 in H by exact Hk.
    discriminate.
  - apply Z.eqb_eq. apply Z.bits_inj'. intros n Hn.
    rewrite Z.land_spec, Z.bits_0, Z.pow2_bits_eqb by exact Hk.
    destruct (Z.eqb_spec k n) as [<- |]; [by rewrite Hb | apply andb_false_r].
Qed.

Lemma page_bit_set_lookup (arr : Uint8Array) (i j : Z) :
  0 <= i -> 0 <= j ->
  page_bit_set arr i j =
  match arr !! Z.to_nat i with
  | Some b => Z.testbit b j
  | None => false
  end.
Proof.
  intros Hi Hj. unfold page_bit_set, u8_get. rewrite land_bit by exact Hj.
  destruct (arr !! Z.to_nat i) as [b |] eqn:E; simpl.
  - apply lookup_lt_Some in E.
    destruct (Z.gtb_spec i (Z.of_nat (length arr) - 1)); [lia |].
    simpl. apply negb_involutive.
  - apply lookup_ge_None_1 in E.
    destruct (Z.gtb_spec i (Z.of_nat (length arr) - 1)); [reflexivity | lia].
Qed.

Lemma or_bit_testbit (b j k : Z) :
  0 <= j -> 0 <= k < 8 ->
  Z.testbit (Z.land (Z.lor b (Z.shiftl 1 j)) 255) k = Z.testbit b k || (k =? j).
Proof.
  intros Hj Hk. change 255 with (Z.ones 8).
  rewrite Z.land_spec, Z.lor_spec, Z.shiftl_1_l, Z.pow2_bits_eqb by exact Hj.
  rewrite Z.ones_spec_low by exact Hk. rewrite andb_true_r, (Z.eqb_sym j k).
  reflexivity.
Qed.

(** [updatePageArray] as one list expression: the bitset is padded with
    zero bytes up to the byte of the page, and that byte gets the bit. *)
Lemma updatePageArray_eq (p : number) (pageArray : option Uint8Array) :
  0 <= to_Z p ->
  let arr := default [] pageArray in
  let n := Z.to_nat (byteIndex_of p) in
  updatePageArray p pageArray =
  <[n := Z.land (Z.lor (default 0 (arr !! n)) (Z.shiftl 1 (bitIndex_of p))) 255]>
    (arr ++ replicate (n + 1 - length arr) 0).
Proof.
  intros Hp arr n.
  assert (Hi : 0 <= byteIndex_of p) by (unfold byteIndex_of; apply Z.div_pos; lia).
  assert (Hn : Z.to_nat (byteIndex_of p + 1) = (n + 1)%nat) by (unfold n; lia).
  unfold updatePageArray, u8_or_bit, u8_get, u8_set, new_Uint8Array. fold n.
  rewrite Hn.
  destruct pageArray as [a |]; simpl in arr; subst arr.
  - destruct (Z.gtb_spec (byteIndex_of p) (Z.of_nat (length a) - 1)) as [Hg | Hg].
    + rewrite drop_replicate.
      rewrite (lookup_ge_None_2 a n) by (unfold n; lia).
      rewrite lookup_app_r by (unfold n; lia).
      rewrite lookup_replicate_2 by (unfold n; lia). reflexivity.
    + replace (n + 1 - length a)%nat with 0%nat by (unfold n; lia).
      simpl. rewrite app_nil_r. reflexivity.
  - simpl. rewrite Nat.sub_0_r.
    rewrite lookup_replicate_2 by lia. reflexivity.
Qed.

Lemma updatePageArray_length (p : number) (pageArray : option Uint8Array) :
  0 <= to_Z p ->
  length (updatePageArray p pageArray) =
  max (length (default [] pageArray)) (Z.to_nat (byteIndex_of p) + 1).
Proof.
  intros Hp. rewrite updatePageArray_eq by exact Hp. simpl.
  rewrite length_insert, length_app, length_replicate. lia.
Qed.

Lemma updatePageArray_recorded (p q : number) (pageArray : option Uint8Array) :
  valid_number p = true -> valid_number q = true ->
  recorded (Some (updatePageArray p pageArray)) q =
  bool_decide (q = p) || recorded pageArray q.
Proof.
  intros Hp Hq.
  destruct (valid_number_inv _ Hp) as [_ [Hp0 _]].
  destruct (valid_number_inv _ Hq) as [_ [Hq0 _]].
  assert (Hpi : 0 <= byteIndex_of p) by (unfold byteIndex_of; apply Z.div_pos; lia).
  assert (Hqi : 0 <= byteIndex_of q) by (unfold byteIndex_of; apply Z.div_pos; lia).
  assert (Hpj : 0 <= bitIndex_of p < 8) by (unfold bitIndex_of; apply Z.mod_pos_bound; lia).
  assert (Hqj : 0 <= bitIndex_of q < 8) by (unfold bitIndex_of; apply Z.mod_pos_bound; lia).
  assert (Hold : recorded pageArray q =
            Z.testbit (default 0 (default [] pageArray !! Z.to_nat (byteIndex_of q)))
              (bitIndex_of q)).
  { destruct pageArray as [a |]; simpl.
    - rewrite page_bit_set_lookup by lia.
      destruct (a !! _); simpl; [reflexivity | by rewrite Z.bits_0].
    - by rewrite Z.bits_0. }
  unfold recorded at 1. rewrite page_bit_set_lookup by lia.
  rewrite updatePageArray_eq by exact Hp0. simpl.
  remember (default [] pageArray) as arr eqn:Ea.
  remember (Z.to_nat (byteIndex_of p)) as n eqn:En.
  remember (Z.to_nat (byteIndex_of q)) as m eqn:Em.
  destruct (decide (m = n)) as [Hmn | Hne].
  - assert (Hbyte : byteIndex_of q = byteIndex_of p) by lia.
    rewrite Hmn in *.
    rewrite list_lookup_insert_eq by (rewrite length_app, length_replicate; lia).
    rewrite or_bit_testbit by lia. rewrite Hold.
    rewrite orb_comm. f_equal.
    destruct (Z.eqb_spec (bitIndex_of q) (bitIndex_of p)) as [Hbit | Hbit].
    + rewrite bool_decide_eq_true_2; [reflexivity |].
      apply to_Z_inj; [exact Hq | exact Hp |].
      unfold byteIndex_of, bitIndex_of in *.
      rewrite (Z.div_mod (to_Z q) 8), (Z.div_mod (to_Z p) 8) by lia. lia.
    + rewrite bool_decide_eq_false_2; [reflexivity |]. by intros ->.
  - rewrite list_lookup_insert_ne by done.
    rewrite bool_decide_eq_false_2 by (intros ->; apply Hne; congruence). simpl.
    rewrite Hold. destruct (decide (m < length arr)%nat) as [Hlt | Hge].
    + rewrite lookup_app_l by exact Hlt.
      destruct (arr !! m); simpl; [reflexivity | by rewrite Z.bits_0].
    + rewrite lookup_app_r by lia. rewrite (lookup_ge_None_2 arr m) by lia.
      simpl. rewrite Z.bits_0.
      destruct (replicate _ _ !! _) as [b |] eqn:E; [| reflexivity].
      apply lookup_replicate_1 in E as [-> _]. by rewrite Z.bits_0.
Qed.

(** X2. [updatePageArray] records exactly the page it is given: in the
    bitset it returns, a page is set if it is that page or was set before
    (no earlier page is lost, no other page appears); the bitset is as long
    as the longer of the old one and of what the byte of the page needs, so
    it never shrinks. *)
Theorem updatePageArray_records_exactly (p : number) (pageArray : option Uint8Array)
    (Hp : valid_number p = true) :
  (forall q, valid_number q = true ->
     recorded (Some (updatePageArray p pageArray)) q =
     bool_decide (q = p) || recorded pageArray q) /\
  length (updatePageArray p pageArray) =
  max (length (default [] pageArray)) (Z.to_nat (to_Z p / 8) + 1).
Proof.
  split.
  - intros q Hq. by apply updatePageArray_recorded.
  - apply updatePageArray_length. by destruct (valid_number_inv _ Hp) as [_ [? _]].
Qed.

Lemma updatePageArray_records_exactly_witness :
  (forall q, valid_number q = true ->
     recorded (Some (updatePageArray (of_Z 10) (Some [8]))) q =
     bool_decide (q = of_Z 10) || recorded (Some [8]) q) /\
  length (updatePageArray (of_Z 10) (Some [8])) = 2%nat.
Proof.
  apply (updatePageArray_records_exactly (of_Z 10) (Some [8])).
  vm_compute. reflexivity.
Defined.

(** ** Reading and writing the store *)

Lemma mirror_of_lookup (datas : list HistoryItem) :
  NoDup (item_pid <$> datas) ->
  forall (acc : gmap number (option Uint8Array)) (k : number),
    (forall d, d ∈ datas -> item_pid d = k ->
       foldl (fun c data => <[item_pid data := item_page data]> c) acc datas !! k
       = Some (item_page d)) /\
    ((forall d, d ∈ datas -> item_pid d <> k) ->
       foldl (fun c data => <[item_pid data := item_page data]> c) acc datas !! k
       = acc !! k).
Proof.
  induction datas as [| d0 datas IH]; intros Hnd acc k.
  - split; [intros d Hd; by apply elem_of_nil in Hd | reflexivity].
  - rewrite fmap_cons in Hnd. apply NoDup_cons in Hnd as [Hnotin Hnd].
    specialize (IH Hnd (<[item_pid d0 := item_page d0]> acc) k) as [IH1 IH2].
    simpl. split.
    + intros d Hd Hk. apply elem_of_cons in Hd as [-> | Hd]; [| by apply IH1].
      rewrite IH2.
      * subst k. apply lookup_insert_eq.
      * intros d' Hd' Hk'. apply Hnotin. rewrite Hk, <- Hk'.
        by apply list_elem_of_fmap_2.
    + intros Hno. rewrite IH2.
      * apply lookup_insert_ne. apply Hno. left.
      * intros d' Hd'. apply Hno. by right.
Qed.

(** The mirror built from the rows of the table agrees with the table,
    whatever their order. *)
Lemma mirror_agrees (st : db) (datas : list HistoryItem) :
  keyed st -> rows_of st datas ->
  forall k, mirror_of datas !! k = item_page <$> history st !! k.
Proof.
  intros Hkey Hrows k.
  assert (Hin : forall d, d ∈ datas <-> history st !! item_pid d = Some d).
  { intros d. unfold rows_of in Hrows. rewrite Hrows. split.
    - intros Hd. apply list_elem_of_fmap in Hd as ([k' d'] & -> & Hd). simpl.
      apply elem_of_map_to_list in Hd. by rewrite (Hkey _ _ Hd).
    - intros Hd. apply list_elem_of_fmap. exists (item_pid d, d).
      split; [reflexivity |]. by apply elem_of_map_to_list. }
  assert (Hnd : NoDup (item_pid <$> datas)).
  { unfold rows_of in Hrows. rewrite Hrows.
    replace (item_pid <$> (map_to_list (history st)).*2)
      with ((map_to_list (history st)).*1).
    - apply NoDup_fst_map_to_list.
    - rewrite <- list_fmap_compose. apply list_fmap_ext.
      intros i [k' d'] Hd. simpl. symmetry. apply Hkey.
      apply elem_of_map_to_list. by eapply list_elem_of_lookup_2. }
  destruct (mirror_of_lookup datas Hnd ∅ k) as [H1 H2]. unfold mirror_of.
  destruct (history st !! k) as [item |] eqn:Hh; simpl.
  - apply H1; [| by apply Hkey]. apply Hin. by rewrite (Hkey _ _ Hh).
  - rewrite H2; [apply lookup_empty |].
    intros d Hd Hk. apply Hin in Hd. rewrite Hk in Hd. congruence.
Qed.

Lemma rows_of_rows (st : db) : rows_of st (rows st).
Proof. unfold rows_of, rows. reflexivity. Qed.

(** The pending load, once it has answered. *)
Lemma loaded_eq (st : db) :
  loaded st =
  match caches st with
  | Some _ => st
  | None => {| history := history st; caches := Some (mirror_of (rows st)) |}
  end.
Proof. reflexivity. Qed.

Lemma await_load_eq (st : db) : await_load st = Ok (tt, loaded st).
Proof. reflexivity. Qed.

Lemma loaded_history (st : db) : history (loaded st) = history st.
Proof. rewrite loaded_eq. by destruct (caches st). Qed.

Lemma loaded_is_Some (st : db) : is_Some (caches (loaded st)).
Proof. rewrite loaded_eq. destruct (caches st) eqn:E; [rewrite E |]; by eexists. Qed.

Lemma loaded_consistent (st : db) : consistent st -> consistent (loaded st).
Proof.
  intros [Hkey Hsync]. rewrite loaded_eq.
  destruct (caches st) eqn:Hc; [by split |].
  split; [exact Hkey |]. intros c [= <-] k. simpl.
  apply mirror_agrees; [exact Hkey | apply rows_of_rows].
Qed.


Lemma hasPage_eq (Number : string -> number) (pid : number + string) (p : number)
    (st : db) :
  valid_number (to_number Number pid) = true -> valid_number p = true ->
  hasPage Number pid p st =
  Ok (page_answer (page_entry st (to_number Number pid)) p, st).
Proof.
  intros Hk Hp. unfold hasPage, mbind, M_bind.
  rewrite (throwIfInvalidNumber_valid _ _ Hk), (throwIfInvalidNumber_valid _ _ Hp).
  unfold get_state, page_entry, table_page. simpl.
  destruct (caches st) as [c |].
  - by destruct (c !! _) as [[arr |] |].
  - by destruct (history st !! _) as [[? ? [arr |]] |].
Qed.

Lemma has_eq (Number : string -> number) (pid : number + string) (st : db) :
  valid_number (to_number Number pid) = true ->
  has Number pid st =
  Ok (bool_decide (is_Some (page_entry st (to_number Number pid))), st).
Proof.
  intros Hk. unfold has, mbind, M_bind.
  rewrite (throwIfInvalidNumber_valid _ _ Hk).
  unfold get_state, page_entry, table_page. simpl.
  destruct (caches st) as [c |]; [reflexivity |].
  unfold mret, M_ret. do 2 f_equal. apply bool_decide_ext. by rewrite fmap_is_Some.
Qed.

(** [add] with the mirror loaded. *)
Lemma add_loaded (d : HistoryData) (st : db) :
  in_sync st -> is_Some (caches st) ->
  valid_number (pid d) = true -> (forall q, page d = Some q -> valid_number q = true) ->
  add d st = Ok (tt, record st (pid d) (info d) (added_page st d)).
Proof.
  intros Hs [c Hc] Hk Hq. unfold add, added_page, record, table_page, mbind, M_bind.
  rewrite (throwIfInvalidNumber_valid _ _ Hk).
  destruct (page d) as [q |] eqn:Hp.
  - rewrite (throwIfInvalidNumber_valid _ _ (Hq q eq_refl)).
    rewrite await_load_eq, loaded_eq, Hc.
    unfold history_get. specialize (Hs c Hc (pid d)).
    destruct (history st !! pid d) as [[k i [arr |]] |] eqn:Hh; simpl in *.
    + unfold history_put, caches_set. simpl. rewrite Hc. reflexivity.
    + unfold history_put. simpl. rewrite Hc. simpl.
      rewrite (insert_id c) by exact Hs. reflexivity.
    + unfold history_put, caches_set. simpl. rewrite Hc. reflexivity.
  - unfold history_put, caches_set. simpl. rewrite Hc. reflexivity.
Qed.

(** [add] of a page: the mirror is loaded by the time the table answers. *)
Lemma add_page_eq (d : HistoryData) (st : db) (q : number) :
  consistent st -> valid_number (pid d) = true ->
  page d = Some q -> valid_number q = true ->
  add d st = Ok (tt, record (loaded st) (pid d) (info d) (added_page st d)).
Proof.
  intros Hst Hk Hp Hq.
  pose proof (loaded_consistent st Hst) as [_ Hs].
  pose proof (loaded_is_Some st) as Hl.
  assert (H : add d (loaded st) =
              Ok (tt, record (loaded st) (pid d) (info d) (added_page (loaded st) d)))
    by (apply add_loaded; [exact Hs | exact Hl | exact Hk | intros q' Hq'; congruence]).
  replace (added_page (loaded st) d) with (added_page st d) in H
    by (unfold added_page, table_page; by rewrite loaded_history).
  rewrite <- H. unfold add, mbind, M_bind.
  rewrite !(throwIfInvalidNumber_valid _ _ Hk), Hp.
  rewrite !(throwIfInvalidNumber_valid _ _ Hq). rewrite !await_load_eq.
  replace (loaded (loaded st)) with (loaded st); [reflexivity |].
  rewrite (loaded_eq (loaded st)). by destruct Hl as [c ->].
Qed.

(** [add] of a full record: [this.caches.set] is called at once. *)
Lemma add_full_unloaded (d : HistoryData) (st : db) :
  caches st = None -> valid_number (pid d) = true -> page d = None ->
  add d st = Throw TypeError.
Proof.
  intros Hc Hk Hp. unfold add, mbind, M_bind.
  rewrite (throwIfInvalidNumber_valid _ _ Hk), Hp.
  unfold history_put, caches_set. simpl. by rewrite Hc.
Qed.

(** What a successful [add] did. *)
Lemma add_inv (d : HistoryData) (st st' : db) :
  consistent st -> add d st = Ok (tt, st') ->
  st' = record (loaded st) (pid d) (info d) (added_page st d) /\
  valid_number (pid d) = true /\ (forall q, page d = Some q -> valid_number q = true).
Proof.
  intros Hst Hadd.
  destruct (valid_number (pid d)) eqn:Hk;
    [| rewrite (add_invalid_pid _ _ Hk) in Hadd; discriminate].
  assert (Hq : forall q, page d = Some q -> valid_number q = true).
  { intros q Hp. destruct (valid_number q) eqn:Hv; [reflexivity |].
    rewrite (add_invalid_page _ _ _ Hk Hp Hv) in Hadd. discriminate. }
  split; [| by split].
  destruct (page d) as [q |] eqn:Hp.
  - rewrite (add_page_eq d st q Hst Hk Hp (Hq q eq_refl)) in Hadd. congruence.
  - destruct (caches st) as [c |] eqn:Hc.
    + rewrite (add_loaded d st (proj2 Hst)) in Hadd
        by (rewrite ?Hc, ?Hp; eauto; discriminate).
      rewrite loaded_eq, Hc. congruence.
    + rewrite (add_full_unloaded d st Hc Hk Hp) in Hadd. discriminate.
Qed.

Lemma record_entry (st : db) (k k' : number) (i : HistoryInfo) (pg : option Uint8Array) :
  page_entry (record st k i pg) k' =
  if decide (k' = k) then Some pg else page_entry st k'.
Proof.
  unfold page_entry, record, table_page. simpl.
  destruct (caches st) as [c |]; simpl; destruct (decide (k' = k)) as [-> | Hne];
    rewrite ?lookup_insert_eq, ?lookup_insert_ne by done; reflexivity.
Qed.

Lemma record_consistent (st : db) (k : number) (i : HistoryInfo) (pg : option Uint8Array) :
  consistent st -> consistent (record st k i pg).
Proof.
  intros [Hkey Hsync]. split.
  - intros k' item. unfold record. simpl. intros H.
    apply lookup_insert_Some in H as [[<- <-] | [_ H]]; [reflexivity | by apply Hkey].
  - intros c' Hc' k'. unfold record in *. simpl in *.
    destruct (caches st) as [c |] eqn:Hc; [| discriminate]. injection Hc' as <-.
    destruct (decide (k' = k)) as [-> | Hne].
    + by rewrite !lookup_insert_eq.
    + rewrite !lookup_insert_ne by done. exact (Hsync c Hc k').
Qed.

(** In a consistent store both read paths see the same entry. *)
Lemma consistent_entry (st : db) (k : number) :
  consistent st -> page_entry st k = table_page st k.
Proof.
  intros [_ Hs]. unfold page_entry, table_page.
  destruct (caches st) as [c |] eqn:Hc; [exact (Hs c Hc k) | reflexivity].
Qed.

Lemma loaded_entry (st : db) (k : number) :
  consistent st -> page_entry (loaded st) k = page_entry st k.
Proof.
  intros Hst. rewrite (consistent_entry _ _ (loaded_consistent st Hst)).
  rewrite (consistent_entry _ _ Hst). unfold table_page. by rewrite loaded_history.
Qed.

Lemma added_page_answer (st : db) (d : HistoryData) (q p : number) :
  page d = Some q -> valid_number q = true -> valid_number p = true ->
  page_answer (Some (added_page st d)) p =
  page_answer (table_page st (pid d)) p || bool_decide (p = q).
Proof.
  intros Hp Hq Hv. unfold added_page. rewrite Hp.
  destruct (table_page st (pid d)) as [[arr |] |]; unfold page_answer.
  - pose proof (updatePageArray_recorded q p (Some arr) Hq Hv) as H.
    unfold recorded in H. rewrite H. apply orb_comm.
  - reflexivity.
  - pose proof (updatePageArray_recorded q p None Hq Hv) as H.
    unfold recorded in H. rewrite H. apply orb_false_r.
Qed.

Lemma empty_store_consistent : consistent empty_store.
Proof.
  split.
  - intros k item H. simpl in H. by rewrite lookup_empty in H.
  - intros c Hc k. injection Hc as <-. simpl. by rewrite !lookup_empty.
Qed.

(** X3. In a store whose mirror agrees with the table, an [add] of a page
    of a work that returns keeps them in agreement; afterwards [hasPage]
    answers [true] for that page of that work, and for every other page and
    every other work it answers what it answered before. *)
Theorem add_page_then_hasPage (Number : string -> number) (st st' : db)
    (d : HistoryData) (q : number)
    (Hst : consistent st) (Hp : page d = Some q)
    (Hadd : add d st = Ok (tt, st')) :
  consistent st' /\
  forall k p, valid_number k = true -> valid_number p = true ->
    exists b, hasPage Number (inl k) p st = Ok (b, st) /\
      hasPage Number (inl k) p st' = Ok (b || bool_decide (k = pid d /\ p = q), st').
Proof.
  destruct (add_inv d st st' Hst Hadd) as (-> & Hk & Hq).
  specialize (Hq q Hp).
  split; [by apply record_consistent, loaded_consistent |].
  intros k p Hvk Hvp. eexists. rewrite !hasPage_eq by assumption.
  split; [reflexivity |]. do 2 f_equal. simpl. rewrite record_entry.
  destruct (decide (k = pid d)) as [-> | Hne].
  - rewrite (added_page_answer st d q p Hp Hq Hvp).
    rewrite (consistent_entry st (pid d) Hst). f_equal.
    apply bool_decide_ext. tauto.
  - rewrite (bool_decide_eq_false_2 (k = pid d /\ p = q)) by tauto.
    by rewrite orb_false_r, loaded_entry.
Qed.

Lemma add_page_then_hasPage_witness :
  let Number := fun _ : string => NaN in
  let st := exec (add (page_data 1 3)) empty_store in
  let st' := exec (add (page_data 1 10)) st in
  consistent st' /\
  forall k p, valid_number k = true -> valid_number p = true ->
    exists b, hasPage Number (inl k) p st = Ok (b, st) /\
      hasPage Number (inl k) p st' =
      Ok (b || bool_decide (k = of_Z 1 /\ p = of_Z 10), st').
Proof.
  intros Number st st'.
  apply (add_page_then_hasPage Number st st' (page_data 1 10) (of_Z 10)).
  - apply (record_consistent empty_store), empty_store_consistent.
  - reflexivity.
  - vm_compute. reflexivity.
Defined.

(** X4. In a store whose mirror agrees with the table, a successful [add]
    keeps them in agreement; afterwards [has] answers [true] for the work
    added, and for every other work what it answered before. *)
Theorem add_then_has (Number : string -> number) (st st' : db) (d : HistoryData)
    (Hst : consistent st) (Hadd : add d st = Ok (tt, st')) :
  consistent st' /\
  forall k, valid_number k = true ->
    exists b, has Number (inl k) st = Ok (b, st) /\
      has Number (inl k) st' = Ok (b || bool_decide (k = pid d), st').
Proof.
  destruct (add_inv d st st' Hst Hadd) as (-> & Hk & Hq).
  split; [by apply record_consistent, loaded_consistent |].
  intros k Hvk. eexists. rewrite !has_eq by assumption.
  split; [reflexivity |]. do 2 f_equal. simpl. rewrite record_entry.
  destruct (decide (k = pid d)) as [-> | Hne].
  - rewrite (bool_decide_eq_true_2 (pid d = pid d)) by reflexivity.
    rewrite orb_true_r. by apply bool_decide_eq_true_2.
  - rewrite (bool_decide_eq_false_2 (k = pid d)) by exact Hne.
    by rewrite orb_false_r, loaded_entry.
Qed.

Lemma add_then_has_witness :
  let Number := fun _ : string => NaN in
  let st' := exec (add (full_data 7)) empty_store in
  consistent st' /\
  forall k, valid_number k = true ->
    exists b, has Number (inl k) empty_store = Ok (b, empty_store) /\
      has Number (inl k) st' = Ok (b || bool_decide (k = of_Z 7), st').
Proof.
  intros Number st'.
  apply (add_then_has Number empty_store st' (full_data 7) empty_store_consistent).
  vm_compute. reflexivity.
Defined.

(** X5. [has] and [hasPage] answer the same from the mirror as from the
    table: in a store whose mirror agrees with the table, each returns what
    it returns before the mirror is loaded. *)
Theorem reads_agree_without_mirror (Number : string -> number) (st : db)
    (pid : number + string) (Hst : consistent st)
    (Hk : valid_number (to_number Number pid) = true) :
  result (has Number pid st) = result (has Number pid (unloaded st)) /\
  forall p, valid_number p = true ->
    result (hasPage Number pid p st) = result (hasPage Number pid p (unloaded st)).
Proof.
  assert (He : page_entry (unloaded st) (to_number Number pid) =
               page_entry st (to_number Number pid)).
  { by rewrite (consistent_entry st _ Hst). }
  split.
  - rewrite !has_eq by exact Hk. simpl. by rewrite He.
  - intros p Hp. rewrite !hasPage_eq by assumption. simpl. by rewrite He.
Qed.

Lemma reads_agree_without_mirror_witness :
  let Number := fun _ : string => of_Z 1 in
  let st := exec (add (page_data 1 3)) empty_store in
  result (has Number (inr "1") st) = result (has Number (inr "1") (unloaded st)) /\
  forall p, valid_number p = true ->
    result (hasPage Number (inr "1") p st) =
    result (hasPage Number (inr "1") p (unloaded st)).
Proof.
  intros Number st.
  apply (reads_agree_without_mirror Number st (inr "1")).
  - apply (record_consistent empty_store), empty_store_consistent.
  - vm_compute. reflexivity.
Defined.

Lemma clear_eq (st : db) :
  clear st =
  Ok (tt, {| history := ∅;
             caches := match caches st with
                       | Some _ => Some ∅
                       | None => Some (mirror_of (rows st))
                       end |}).
Proof.
  unfold clear, history_clear, caches_clear, get_state, mbind, M_bind, mret, M_ret.
  destruct (caches st) eqn:Hc; rewrite await_load_eq, loaded_eq; simpl; by rewrite ?Hc.
Qed.

(** X6. [clear] never throws and empties the table.  With the mirror
    loaded it empties the mirror too: [has] and [hasPage] then answer
    [false] for every work and page.  Called before the mirror is loaded it
    leaves the mirror alone, [this.caches] being [undefined] when it is
    tested; the mirror is then filled from the rows read before the table
    is cleared, so that [has] and [hasPage] go on answering, from the
    mirror, what the table held before. *)
Theorem clear_forgets_what_is_loaded (Number : string -> number) (st : db)
    (Hkey : keyed st) :
  exists st', clear st = Ok (tt, st') /\ history st' = ∅ /\ is_Some (caches st') /\
    (is_Some (caches st) ->
       consistent st' /\
       forall k, valid_number k = true ->
         has Number (inl k) st' = Ok (false, st') /\
         forall p, valid_number p = true ->
           hasPage Number (inl k) p st' = Ok (false, st')) /\
    (caches st = None ->
       forall k, valid_number k = true ->
         has Number (inl k) st' = Ok (bool_decide (is_Some (history st !! k)), st') /\
         forall p, valid_number p = true ->
           hasPage Number (inl k) p st' = Ok (page_answer (table_page st k) p, st')).
Proof.
  eexists. split; [apply clear_eq |]. split; [reflexivity |].
  split; [simpl; destruct (caches st); by eexists |]. split.
  - intros [c Hc]. simpl. rewrite Hc.
    split; [exact empty_store_consistent |].
    intros k Hk. split.
    + rewrite has_eq by exact Hk. unfold page_entry. simpl. rewrite lookup_empty.
      by rewrite bool_decide_eq_false_2 by (intros [? ?]; discriminate).
    + intros p Hp. rewrite hasPage_eq by assumption. unfold page_entry. simpl.
      by rewrite lookup_empty.
  - intros Hc. simpl. rewrite Hc. intros k Hk.
    assert (He : mirror_of (rows st) !! k = table_page st k)
      by (apply mirror_agrees; [exact Hkey | apply rows_of_rows]).
    split.
    + rewrite has_eq by exact Hk. unfold page_entry. simpl. rewrite He.
      do 2 f_equal. apply bool_decide_ext. unfold table_page. by rewrite fmap_is_Some.
    + intros p Hp. rewrite hasPage_eq by assumption. unfold page_entry. simpl.
      by rewrite He.
Qed.

Lemma clear_forgets_what_is_loaded_witness :
  let Number := fun _ : string => NaN in
  let st := exec (add (full_data 7)) empty_store in
  (exists st', clear st = Ok (tt, st') /\ history st' = ∅ /\
     has Number (inl (of_Z 7)) st' = Ok (false, st')) /\
  (exists st', clear (unloaded st) = Ok (tt, st') /\ history st' = ∅ /\
     has Number (inl (of_Z 7)) st' = Ok (true, st') /\
     hasPage Number (inl (of_Z 7)) (of_Z 0) st' = Ok (true, st')).
Proof.
  intros Number st.
  assert (Hkey : keyed st)
    by exact (proj1 (record_consistent empty_store (of_Z 7) no_info None
                       empty_store_consistent)).
  assert (H7 : valid_number (of_Z 7) = true) by (vm_compute; reflexivity).
  assert (H0 : valid_number (of_Z 0) = true) by (vm_compute; reflexivity).
  split.
  - destruct (clear_forgets_what_is_loaded Number st Hkey)
      as (st' & Hclear & Hh & _ & Hloaded & _).
    exists st'. split; [exact Hclear |]. split; [exact Hh |].
    apply Hloaded; [eexists; vm_compute; reflexivity | exact H7].
  - destruct (clear_forgets_what_is_loaded Number (unloaded st) Hkey)
      as (st' & Hclear & Hh & _ & _ & Hstale).
    exists st'. split; [exact Hclear |]. split; [exact Hh |].
    destruct (Hstale eq_refl (of_Z 7) H7) as [Hhas Hpage].
    split; [exact Hhas | exact (Hpage (of_Z 0) H0)].
Defined.

(** X7. The mirror the constructor builds from the rows of the table
    agrees with the table, whatever the order in which [toArray] delivered
    the rows. *)
Theorem load_builds_agreeing_mirror (st : db) (datas : list HistoryItem)
    (Hkey : keyed st) (Hrows : rows_of st datas) :
  exists st', load datas st = Ok (tt, st') /\
    history st' = history st /\ is_Some (caches st') /\ consistent st'.
Proof.
  eexists. split; [reflexivity |]. simpl.
  split; [reflexivity |]. split; [by eexists |]. split; [exact Hkey |].
  intros c Hc k. simpl in *. injection Hc as <-.
  by apply mirror_agrees.
Qed.

Lemma load_builds_agreeing_mirror_witness :
  let st := unloaded (exec (add (page_data 1 3)) empty_store) in
  let row := {| item_pid := of_Z 1; item_info := no_info; item_page := Some [8] |} in
  exists st', load [row] st = Ok (tt, st') /\
    history st' = history st /\ is_Some (caches st') /\ consistent st'.
Proof.
  intros st row. apply (load_builds_agreeing_mirror st [row]).
  - apply (record_consistent empty_store (of_Z 1) no_info (Some [8])),
      empty_store_consistent.
  - unfold rows_of. vm_compute. reflexivity.
Defined.

Lemma bulk_cache_unloaded (data : HistoryItem) (rest : list HistoryItem) (st : db) :
  caches st = None -> bulkAdd (data :: rest) st = Throw TypeError.
Proof.
  intros Hc. unfold bulkAdd, mbind, M_bind. simpl.
  unfold mbind, M_bind, caches_set. by rewrite Hc.
Qed.

(** X8. Before the mirror is loaded, [add] of a full record throws a
    [TypeError], and so does [bulkAdd] of a non-empty list: both call
    [this.caches.set] at once.  [add] of a page does not: it first awaits
    the table inside its transaction, and when it returns the mirror is
    loaded, it agrees with the table, and [hasPage] answers [true] for the
    page.  [has] and [hasPage] answer from the table. *)
Theorem add_before_mirror_loaded (Number : string -> number) (st : db)
    (d : HistoryData)
    (Hc : caches st = None) (Hkey : keyed st) (Hk : valid_number (pid d) = true)
    (Hq : forall q, page d = Some q -> valid_number q = true) :
  (page d = None -> add d st = Throw TypeError) /\
  (forall q, page d = Some q ->
     add d st <> Throw TypeError /\
     forall st', add d st = Ok (tt, st') ->
       is_Some (caches st') /\ consistent st' /\
       hasPage Number (inl (pid d)) q st' = Ok (true, st')) /\
  (forall data rest, bulkAdd (data :: rest) st = Throw TypeError) /\
  (forall k, valid_number k = true ->
     has Number (inl k) st = Ok (bool_decide (is_Some (table_page st k)), st) /\
     forall p, valid_number p = true ->
       hasPage Number (inl k) p st = Ok (page_answer (table_page st k) p, st)).
Proof.
  assert (Hst : consistent st).
  { split; [exact Hkey |]. intros c Hc'. congruence. }
  split; [| split; [| split]].
  - intros Hp. by apply add_full_unloaded.
  - intros q Hp. rewrite (add_page_eq d st q Hst Hk Hp (Hq q Hp)).
    split; [discriminate |]. intros st' [= <-].
    split; [| split].
    + unfold record. simpl. destruct (loaded_is_Some st) as [c ->]. by eexists.
    + by apply record_consistent, loaded_consistent.
    + rewrite hasPage_eq by (simpl; auto). simpl. rewrite record_entry.
      rewrite decide_True by reflexivity.
      rewrite (added_page_answer st d q q Hp (Hq q Hp) (Hq q Hp)).
      rewrite (bool_decide_eq_true_2 (q = q)) by reflexivity.
      by rewrite orb_true_r.
  - intros data rest. by apply bulk_cache_unloaded.
  - intros k Hvk. split.
    + rewrite has_eq by exact Hvk. unfold page_entry. by rewrite Hc.
    + intros p Hp. rewrite hasPage_eq by assumption. unfold page_entry. by rewrite Hc.
Qed.

Lemma add_before_mirror_loaded_witness :
  let Number := fun _ : string => NaN in
  let st := unloaded (exec (add (page_data 1 3)) empty_store) in
  let st' := exec (add (page_data 1 10)) st in
  add (full_data 1) st = Throw TypeError /\
  (add (page_data 1 10) st = Ok (tt, st') /\
   is_Some (caches st') /\ consistent st' /\
   hasPage Number (inl (of_Z 1)) (of_Z 10) st' = Ok (true, st')) /\
  (forall data rest, bulkAdd (data :: rest) st = Throw TypeError) /\
  (forall k, valid_number k = true ->
     has Number (inl k) st = Ok (bool_decide (is_Some (table_page st k)), st) /\
     forall p, valid_number p = true ->
       hasPage Number (inl k) p st = Ok (page_answer (table_page st k) p, st)).
Proof.
  intros Number st st'.
  assert (Hkey : keyed st)
    by exact (proj1 (record_consistent empty_store (of_Z 1) no_info (Some [8])
                       empty_store_consistent)).
  assert (Hk : valid_number (of_Z 1) = true) by (vm_compute; reflexivity).
  assert (H10 : valid_number (of_Z 10) = true) by (vm_compute; reflexivity).
  assert (Hadd : add (page_data 1 10) st = Ok (tt, st')) by (vm_compute; reflexivity).
  destruct (add_before_mirror_loaded Number st (full_data 1) eq_refl Hkey Hk)
    as (Hfull & _ & Hbulk & Hread); [intros q Hq; discriminate |].
  destruct (add_before_mirror_loaded Number st (page_data 1 10) eq_refl Hkey Hk)
    as (_ & Hpage & _ & _); [intros q [= <-]; exact H10 |].
  split; [apply Hfull; reflexivity |].
  split; [| split; [exact Hbulk | exact Hread]].
  split; [exact Hadd |].
  exact (proj2 (Hpage (of_Z 10) eq_refl) st' Hadd).
Defined.

(** X9. Every entry point that takes an identifier or a page, except
    [bulkAdd], rejects an invalid number before it reads or writes
    anything: [add], [has] and [hasPage] throw the error that names the
    number, for an invalid identifier and for an invalid page. *)
Theorem entry_points_reject_invalid_numbers (Number : string -> number) (st : db)
    (n : number) (Hn : valid_number n = false) :
  (forall d, pid d = n -> add d st = Throw (InvalidNumber n)) /\
  (forall d, valid_number (pid d) = true -> page d = Some n ->
     add d st = Throw (InvalidNumber n)) /\
  (forall pid, to_number Number pid = n -> has Number pid st = Throw (InvalidNumber n)) /\
  (forall pid p, to_number Number pid = n ->
     hasPage Number pid p st = Throw (InvalidNumber n)) /\
  (forall pid, valid_number (to_number Number pid) = true ->
     hasPage Number pid n st = Throw (InvalidNumber n)).
Proof.
  repeat match goal with |- _ /\ _ => split end.
  - intros d <-. by apply add_invalid_pid.
  - intros d Hk Hp. by apply add_invalid_page.
  - intros k <-. by apply has_invalid.
  - intros k p <-. unfold hasPage, mbind, M_bind.
    by rewrite (throwIfInvalidNumber_invalid _ _ Hn).
  - intros k Hk. unfold hasPage, mbind, M_bind.
    by rewrite (throwIfInvalidNumber_valid _ _ Hk), (throwIfInvalidNumber_invalid _ _ Hn).
Qed.

Lemma entry_points_reject_invalid_numbers_witness :
  let Number := fun _ : string => NaN in
  let n := of_Z (-1) in
  (forall d, pid d = n -> add d empty_store = Throw (InvalidNumber n)) /\
  (forall d, valid_number (pid d) = true -> page d = Some n ->
     add d empty_store = Throw (InvalidNumber n)) /\
  (forall pid, to_number Number pid = n ->
     has Number pid empty_store = Throw (InvalidNumber n)) /\
  (forall pid p, to_number Number pid = n ->
     hasPage Number pid p empty_store = Throw (InvalidNumber n)) /\
  (forall pid, valid_number (to_number Number pid) = true ->
     hasPage Number pid n empty_store = Throw (InvalidNumber n)).
Proof.
  intros Number n.
  apply (entry_points_reject_invalid_numbers Number empty_store n).
  vm_compute. reflexivity.
Defined.

(** X10. [has] and [hasPage] answer [false], without an error, for a work
    the store has no record of; and [hasPage] answers [false], without an
    error, for a page whose byte lies beyond the page bitset of the work. *)
Theorem unknown_work_or_page_is_false (Number : string -> number) (st : db)
    (k p : number) (Hst : consistent st)
    (Hk : valid_number k = true) (Hp : valid_number p = true) :
  (history st !! k = None ->
     has Number (inl k) st = Ok (false, st) /\ hasPage Number (inl k) p st = Ok (false, st))
  /\
  (forall arr, table_page st k = Some (Some arr) ->
     (Z.of_nat (length arr) <= to_Z p / 8) ->
     hasPage Number (inl k) p st = Ok (false, st)).
Proof.
  split.
  - intros Hh. rewrite has_eq, hasPage_eq by assumption. simpl.
    rewrite (consistent_entry st k Hst). unfold table_page. rewrite Hh. simpl.
    split; [| reflexivity].
    first [reflexivity
          | by rewrite bool_decide_eq_false_2 by (intros [? ?]; discriminate)].
  - intros arr Ht Hlen. rewrite hasPage_eq by assumption. simpl.
    rewrite (consistent_entry st k Hst), Ht. unfold page_answer, page_bit_set.
    fold (byteIndex_of p) in Hlen.
    destruct (Z.gtb_spec (byteIndex_of p) (Z.of_nat (length arr) - 1));
      [reflexivity | lia].
Qed.

Lemma unknown_work_or_page_is_false_witness :
  let Number := fun _ : string => NaN in
  let st := exec (add (page_data 1 3)) empty_store in
  (has Number (inl (of_Z 2)) st = Ok (false, st) /\
   hasPage Number (inl (of_Z 2)) (of_Z 9) st = Ok (false, st)) /\
  hasPage Number (inl (of_Z 1)) (of_Z 9) st = Ok (false, st).
Proof.
  intros Number st.
  assert (Hst : consistent st)
    by apply (record_consistent empty_store), empty_store_consistent.
  assert (H1 : valid_number (of_Z 1) = true) by (vm_compute; reflexivity).
  assert (H2 : valid_number (of_Z 2) = true) by (vm_compute; reflexivity).
  assert (H9 : valid_number (of_Z 9) = true) by (vm_compute; reflexivity).
  split.
  - apply (proj1 (unknown_work_or_page_is_false Number st (of_Z 2) (of_Z 9) Hst H2 H9)).
    vm_compute. reflexivity.
  - apply (proj2 (unknown_work_or_page_is_false Number st (of_Z 1) (of_Z 9) Hst H1 H9))
      with (arr := [8]).
    + vm_compute. reflexivity.
    + vm_compute. discriminate.
Defined.

(** ** [bulkAdd] *)

Lemma bulk_cache_eq (l : list HistoryItem) (st : db) (c : gmap number (option Uint8Array)) :
  caches st = Some c ->
  bulk_cache l st =
  Ok (tt, {| history := history st;
             caches := Some (foldl (fun c data => <[item_pid data := item_page data]> c)
                               c l) |}).
Proof.
  revert st c. induction l as [| d l IH]; intros st c Hc.
  - simpl. unfold mret, M_ret. destruct st. simpl in Hc. by rewrite Hc.
  - simpl. unfold mbind, M_bind, caches_set. rewrite Hc.
    by rewrite (IH _ (<[item_pid d := item_page d]> c)).
Qed.

Lemma history_bulkPut_eq (l : list HistoryItem) (st : db) :
  history_bulkPut l st =
  Ok (tt, {| history := foldl (fun h data => <[item_pid data := data]> h) (history st) l;
             caches := caches st |}).
Proof.
  revert st. induction l as [| d l IH]; intros st.
  - simpl. unfold mret, M_ret. by destruct st.
  - simpl. unfold mbind, M_bind, history_put. by rewrite IH.
Qed.

Lemma bulk_sync (l : list HistoryItem) :
  forall (h : gmap number HistoryItem) (c : gmap number (option Uint8Array)),
    (forall k, c !! k = item_page <$> h !! k) ->
    forall k,
      foldl (fun c data => <[item_pid data := item_page data]> c) c l !! k =
      item_page <$> foldl (fun h data => <[item_pid data := data]> h) h l !! k.
Proof.
  induction l as [| d l IH]; intros h c H k; [apply H |].
  simpl. apply IH. intros k'.
  destruct (decide (k' = item_pid d)) as [-> | Hne].
  - by rewrite !lookup_insert_eq.
  - rewrite !lookup_insert_ne by done. apply H.
Qed.

Lemma bulk_keyed (l : list HistoryItem) :
  forall h : gmap number HistoryItem,
    (forall k item, h !! k = Some item -> item_pid item = k) ->
    forall k item,
      foldl (fun h data => <[item_pid data := data]> h) h l !! k = Some item ->
      item_pid item = k.
Proof.
  induction l as [| d l IH]; intros h H k item; [apply H |].
  simpl. apply IH. intros k' item' Hl.
  apply lookup_insert_Some in Hl as [[<- <-] | [_ Hl]]; [reflexivity | by apply H].
Qed.

Lemma bulk_is_Some (l : list HistoryItem) :
  forall (c : gmap number (option Uint8Array)) (k : number),
    is_Some (c !! k) \/ k ∈ item_pid <$> l ->
    is_Some (foldl (fun c data => <[item_pid data := item_page data]> c) c l !! k).
Proof.
  induction l as [| d l IH]; intros c k H.
  - destruct H as [H | H]; [exact H | by apply elem_of_nil in H].
  - simpl. apply IH. rewrite fmap_cons in H.
    destruct H as [H | H].
    + left. destruct (decide (k = item_pid d)) as [-> | Hne].
      * rewrite lookup_insert_eq. by eexists.
      * by rewrite lookup_insert_ne.
    + apply elem_of_cons in H as [-> | H]; [| by right].
      left. rewrite lookup_insert_eq. by eexists.
Qed.

(** X11. With the mirror loaded and in agreement with the table, [bulkAdd]
    of records with valid identifiers succeeds and keeps them in agreement;
    afterwards [has] answers [true] for every record of the list, and for
    every work it answered [true] for before. *)
Theorem bulkAdd_records_all (Number : string -> number) (st : db)
    (historyDatas : list HistoryItem)
    (Hst : consistent st) (Hload : is_Some (caches st))
    (Hv : Forall (fun data => valid_number (item_pid data) = true) historyDatas) :
  exists st', bulkAdd historyDatas st = Ok (tt, st') /\ consistent st' /\
    (forall data, data ∈ historyDatas ->
       has Number (inl (item_pid data)) st' = Ok (true, st')) /\
    (forall k, valid_number k = true -> has Number (inl k) st = Ok (true, st) ->
       has Number (inl k) st' = Ok (true, st')).
Proof.
  destruct Hload as [c Hc]. destruct Hst as [Hkey Hsync].
  eexists. split.
  - unfold bulkAdd, mbind, M_bind. rewrite (bulk_cache_eq _ _ c Hc).
    rewrite await_load_eq, loaded_eq. simpl.
    rewrite history_bulkPut_eq. reflexivity.
  - simpl. split; [split |].
    + intros k item. simpl. by apply bulk_keyed.
    + intros c' Hc' k. simpl in *. injection Hc' as <-.
      apply bulk_sync. by apply Hsync.
    + split.
      * intros data Hd. rewrite Forall_forall in Hv.
        rewrite has_eq by (apply Hv, Hd). unfold page_entry. simpl.
        rewrite bool_decide_eq_true_2; [reflexivity |].
        apply bulk_is_Some. right. by apply list_elem_of_fmap_2.
      * intros k Hk Hhas. rewrite has_eq in Hhas by exact Hk.
        rewrite has_eq by exact Hk. unfold page_entry in *. simpl in *.
        rewrite Hc in Hhas. injection Hhas as Hhas.
        apply bool_decide_eq_true_1 in Hhas.
        rewrite bool_decide_eq_true_2; [reflexivity |].
        apply bulk_is_Some. by left.
Qed.

Lemma bulkAdd_records_all_witness :
  let Number := fun _ : string => NaN in
  let rows := [ {| item_pid := of_Z 1; item_info := no_info; item_page := None |};
                {| item_pid := of_Z 2; item_info := no_info; item_page := Some [1] |} ] in
  exists st', bulkAdd rows empty_store = Ok (tt, st') /\ consistent st' /\
    (forall data, data ∈ rows -> has Number (inl (item_pid data)) st' = Ok (true, st')) /\
    (forall k, valid_number k = true ->
       has Number (inl k) empty_store = Ok (true, empty_store) ->
       has Number (inl k) st' = Ok (true, st')).
Proof.
  intros Number rows.
  apply (bulkAdd_records_all Number empty_store rows empty_store_consistent).
  - eexists. reflexivity.
  - repeat constructor.
Defined.
(** ** Full records and page records *)





End HistoryDbSpec.


(* ===================================================================== *)
(** * Properties of the batch downloader *)
(* ===================================================================== *)

Module BatchDownloadSpec.
Import BatchDownload.

Local Open Scope string_scope.
Local Open Scope list_scope.

Section WithMeta.

Context {Meta : Type}.
Variable meta_tags : Meta -> option (list string).
Variable cfg : config (Meta := Meta).

Local Abbreviation state := (BatchDownload.state (Meta := Meta)).
Local Abbreviation event := (BatchDownload.event (Meta := Meta)).
Local Abbreviation dispatch := (BatchDownload.dispatch cfg).
Local Abbreviation on_parse := (BatchDownload.on_parse cfg).
Local Abbreviation on_validity := (BatchDownload.on_validity meta_tags cfg).
Local Abbreviation getGenerator := (BatchDownload.getGenerator cfg).
Local Abbreviation batchDownload := (BatchDownload.batchDownload cfg).
Local Abbreviation step := (BatchDownload.step meta_tags cfg).
Local Abbreviation run := (BatchDownload.run meta_tags cfg).
Local Abbreviation checkValidity := (BatchDownload.checkValidity meta_tags cfg).
Local Abbreviation includeFilters := (BatchDownload.includeFilters cfg).
Local Abbreviation no_include_selected := (BatchDownload.no_include_selected cfg).

(** ** The accounting invariant *)

Lemma Core_view n k (s s' : state) :
  core_view s = core_view s' -> Core n k s -> Core n k s'.
Proof.
  unfold core_view, Core, count_ok, checkIfDownloadCompleted, settled_count.
  intros [= -> -> -> -> -> -> -> ->]. auto.
Qed.

Lemma Core_rejected n k k' (s : state) r :
  waitUntilDownloadComplete s = Rejected r -> Core n k s -> Core n k' s.
Proof. unfold Core. intros ->. auto. Qed.

Lemma Core_aborted n k k' (s : state) :
  aborted s <> None -> waitUntilDownloadComplete s <> Fulfilled -> Core n k s -> Core n k' s.
Proof.
  unfold Core. intros Ha Hw (Hh & Hd & H).
  destruct (waitUntilDownloadComplete s); [tauto | congruence | tauto].
Qed.

Lemma Core_not_fulfilled n k (s : state) :
  Core n (S k) s -> waitUntilDownloadComplete s <> Fulfilled.
Proof.
  unfold Core. intros (_ & _ & H).
  destruct (waitUntilDownloadComplete s); [discriminate | lia | discriminate].
Qed.

(** *** The stores *)

Lemma notify_eq (s : state) :
  notify s =
  set_waitUntilDownloadComplete
    (if hooked s && negb (isDone s) && checkIfDownloadCompleted s
     then match waitUntilDownloadComplete s with Pending => Fulfilled | w => w end
     else waitUntilDownloadComplete s)
    (set_isDone (checkIfDownloadCompleted s) s).
Proof.
  destruct s as [a b c d e f g h i j k l m n o p q].
  unfold notify, downloadCompleted, resolve.
  change (checkIfDownloadCompleted (set_isDone _ _)) with
    (checkIfDownloadCompleted (mkState a b c d e f g h i j k l m n o p q)).
  destruct (checkIfDownloadCompleted _), f, j, k; reflexivity.
Qed.

(** Projections through the setters, without touching anything else. *)
Ltac flatten :=
  lazy beta iota zeta delta
   [set_artworkCount set_successd set_failed set_excluded set_downloading set_isDone
    set_tasks set_controller set_aborted set_hooked set_waitUntilDownloadComplete
    set_dlPromise set_status429 set_inflight set_dispatched set_pc set_trace
    artworkCount successd failed excluded downloading isDone tasks controller aborted
    hooked waitUntilDownloadComplete dlPromise status429 inflight dispatched pc trace
    emit writeLog writeLog_Error writeLog_Fail log_failed failed_reason failed_id
    removeTask checkIfDownloadCompleted settled_count count_ok core_view
    settled BatchDownload.generateTaskID
    finish start_parse after_cooldown fst snd] in *.

Ltac core_crush :=
  unfold Core in *; flatten; simpl in *;
  rewrite ?length_app, ?length_map in *; simpl in *;
  repeat match goal with
         | H : _ /\ _ |- _ => destruct H
         end;
  subst; simpl in *;
  repeat match goal with
         | H : context [match ?x with _ => _ end] |- _ => is_var x; destruct x
         | |- context [match ?x with _ => _ end] => is_var x; destruct x
         end;
  simpl in *;
  repeat match goal with
         | H : _ /\ _ |- _ => destruct H
         | H : context [(?a =? ?b)%Z] |- _ => destruct (Z.eqb_spec a b)
         | |- context [(?a =? ?b)%Z] => destruct (Z.eqb_spec a b)
         end;
  simpl in *; repeat split; try congruence; try lia.

Lemma core_addSuccessd n k id (s : state) :
  Core n (S k) s -> Core n k (addSuccessd id s).
Proof.
  intros H. destruct s. unfold addSuccessd. rewrite notify_eq.
  core_crush.
Qed.

Lemma core_addExcluded n k id (s : state) :
  Core n (S k) s -> Core n k (addExcluded id s).
Proof.
  intros H. destruct s. unfold addExcluded. rewrite notify_eq.
  core_crush.
Qed.

Lemma core_addFailed n k item (s : state) :
  Core n (S k) s -> Core n k (addFailed item s).
Proof.
  intros H. destruct s. unfold addFailed. rewrite notify_eq.
  destruct item as [? []]; core_crush.
Qed.

Lemma core_addExcluded_array n k ids (s : state) :
  Core n (length ids + k) s -> Core n k (addExcluded_array ids s).
Proof.
  intros H. destruct s. unfold addExcluded_array. rewrite notify_eq.
  core_crush.
Qed.

Lemma core_addFailed_array n k (ids : list string) (s : state) :
  Core n (length ids + k) s ->
  Core n k (addFailed_array
              (map (fun id => {| failed_id := id; failed_reason := Text "Masked." |}) ids) s).
Proof.
  intros H. destruct s. unfold addFailed_array. rewrite notify_eq.
  destruct (last _) as [[? []] |]; core_crush.
Qed.

Lemma core_setArtworkCount n k c t (s : state) :
  (Z.of_nat (n + c) <= t)%Z -> waitUntilDownloadComplete s <> Fulfilled ->
  Core n k s -> Core (n + c) (k + c) (setArtworkCount t s).
Proof.
  intros Ht Hw H. destruct s. unfold setArtworkCount. rewrite notify_eq.
  core_crush.
Qed.

(** *** From one [await] to the next *)

Lemma Core_eq n k k' (s : state) : k = k' -> Core n k s -> Core n k' s.
Proof. by intros ->. Qed.

(** [Core] carries over to a state with the same stores and promise. *)
Ltac core_frame H :=
  eapply Core_eq; [| eapply Core_view; [| exact H]; reflexivity];
  flatten; simpl; rewrite ?length_app; simpl; lia.

Lemma inv_catch_error n started r (s : state) : Inv n (catch_error started r s).
Proof.
  unfold Inv, catch_error. destruct s. flatten. exact I.
Qed.

Lemma inv_finish n (s : state) :
  waitUntilDownloadComplete s = Fulfilled -> Core n (length (inflight s)) s ->
  Inv n (finish s).
Proof.
  destruct s. unfold Inv, Core. flatten. intros -> (_ & _ & Hc & Hk).
  destruct inflight0; [auto | discriminate].
Qed.

Lemma inv_arrive_completion n (s : state) :
  Core n (length (inflight s)) s -> Inv n (arrive_completion s).
Proof.
  intros H. unfold arrive_completion.
  destruct (waitUntilDownloadComplete s) eqn:Hw.
  - destruct s. unfold Inv. flatten. flatten. split; [| by rewrite Hw].
    core_frame H.
  - by apply inv_finish.
  - apply inv_catch_error.
Qed.

Lemma inv_arrive_batch n (s : state) :
  Core n (length (inflight s)) s -> Inv n (arrive_batch s).
Proof.
  intros H. unfold arrive_batch.
  destruct (waitUntilDownloadComplete s) eqn:Hw.
  - destruct s. unfold Inv. flatten. split; [| by rewrite Hw].
    core_frame H.
  - by apply inv_arrive_completion.
  - apply inv_catch_error.
Qed.

Lemma inv_start_parse n id rest (s : state) :
  Core n (length (inflight s) + S (length rest)) s -> Inv n (start_parse id rest s).
Proof.
  intros H. assert (Hw := H). rewrite Nat.add_succ_r in Hw.
  apply Core_not_fulfilled in Hw.
  destruct s. unfold Inv. flatten. split; [| exact Hw]. core_frame H.
Qed.

Lemma inv_next_id n ids (s : state) :
  Core n (length (inflight s) + length ids) s -> Inv n (next_id ids s).
Proof.
  intros H. unfold next_id. destruct ids as [| id rest].
  - apply inv_arrive_batch. by rewrite Nat.add_0_r in H.
  - simpl in H. assert (Hw := H). rewrite Nat.add_succ_r in Hw.
    apply Core_not_fulfilled in Hw.
    destruct (status429 s) eqn:Hs; [| by apply inv_start_parse].
    unfold race_sleep.
    destruct s. flatten.
    destruct waitUntilDownloadComplete0 eqn:Hc.
    + unfold Inv. flatten. split; [| discriminate]. core_frame H.
    + congruence.
    + apply inv_catch_error.
Qed.

Lemma inv_after_threshold n rest (s : state) :
  Core n (length (inflight s) + length rest) s -> Inv n (after_threshold rest s).
Proof.
  intros H. unfold after_threshold. apply inv_next_id.
  destruct s. flatten. core_frame H.
Qed.

Lemma inv_race_sleep n ms ids park (s : state) :
  pending park = length ids ->
  match park with Idle | Finished _ => False | _ => True end ->
  Core n (length (inflight s) + length ids) s ->
  Inv n (race_sleep ms (next_id ids) park s).
Proof.
  intros Hp Hpark H. unfold race_sleep.
  destruct s. flatten.
  destruct waitUntilDownloadComplete0 eqn:Hc.
  - unfold Inv. flatten.
    assert (Core n (length inflight0 + pending park)
      (mkState artworkCount0 successd0 failed0 excluded0 downloading0 isDone0 tasks0
         controller0 aborted0 hooked0 Pending dlPromise0 status430 inflight0
         dispatched0 park (trace0 ++ [Sleep ms]))) by (rewrite Hp; core_frame H).
    destruct park; try contradiction; (split; [assumption | discriminate]).
  - apply inv_next_id. core_frame H.
  - apply inv_catch_error.
Qed.

Lemma inv_dispatch n id rest (s : state) :
  Core n (length (inflight s) + S (length rest)) s -> Inv n (dispatch id rest s).
Proof.
  intros H. unfold BatchDownload.dispatch. destruct s. flatten.
  match goal with |- context [if ?c then _ else _] => destruct c end.
  - match goal with |- context [if ?c then _ else _] => destruct c end.
    + apply inv_after_threshold. core_frame H.
    + destruct waitUntilDownloadComplete0 eqn:Hc.
      * unfold Inv. flatten. split; [| discriminate]. core_frame H.
      * apply inv_after_threshold. core_frame H.
      * apply inv_catch_error.
  - apply inv_race_sleep; [reflexivity | exact I |]. core_frame H.
Qed.

Lemma inv_wake n (s : state) :
  match pc s with Idle | Finished _ => False | _ => True end ->
  Core n (length (inflight s) + pending (pc s)) s -> Inv n (wake s).
Proof.
  intros Hpc H. unfold wake.
  destruct (waitUntilDownloadComplete s) eqn:Hw.
  - unfold Inv. destruct (pc s); try contradiction; (split; [exact H | congruence]).
  - destruct (pc s) eqn:Hp; try contradiction; simpl in H;
      rewrite ?Nat.add_0_r in H.
    + by apply inv_arrive_completion.
    + by apply inv_next_id; rewrite Nat.add_0_r.
    + rewrite Nat.add_succ_r in H. apply Core_not_fulfilled in H. congruence.
    + rewrite Nat.add_succ_r in H. apply Core_not_fulfilled in H. congruence.
    + rewrite Nat.add_succ_r in H. apply Core_not_fulfilled in H. congruence.
    + by apply inv_after_threshold.
    + by apply inv_next_id.
    + apply inv_finish; assumption.
  - destruct (pc s) eqn:Hp; try contradiction; try apply inv_catch_error;
      unfold Inv; rewrite Hp; (split; [exact H | congruence]).
Qed.

(** *** The handlers *)

Ltac ctl_crush s := destruct s; rewrite ?notify_eq; flatten; reflexivity.

Lemma ctl_setArtworkCount t (s : state) : ctl_view (setArtworkCount t s) = ctl_view s.
Proof. unfold ctl_view, setArtworkCount. ctl_crush s. Qed.

Lemma ctl_addSuccessd id (s : state) : ctl_view (addSuccessd id s) = ctl_view s.
Proof. unfold ctl_view, addSuccessd. ctl_crush s. Qed.

Lemma ctl_addExcluded id (s : state) : ctl_view (addExcluded id s) = ctl_view s.
Proof. unfold ctl_view, addExcluded. ctl_crush s. Qed.

Lemma ctl_addExcluded_array ids (s : state) :
  ctl_view (addExcluded_array ids s) = ctl_view s.
Proof. unfold ctl_view, addExcluded_array. ctl_crush s. Qed.

Lemma ctl_addFailed item (s : state) : ctl_view (addFailed item s) = ctl_view s.
Proof. unfold ctl_view, addFailed. destruct item as [? []]; ctl_crush s. Qed.

Lemma ctl_addFailed_array items (s : state) :
  ctl_view (addFailed_array items s) = ctl_view s.
Proof.
  unfold ctl_view, addFailed_array. destruct (last items) as [[? []] |]; ctl_crush s.
Qed.

Lemma ctl_failedHandler id r (s : state) : ctl_view (failedHandler id r s) = ctl_view s.
Proof.
  unfold failedHandler. destruct (aborted s); [reflexivity |].
  destruct (is_429 r); [| apply ctl_addFailed].
  rewrite <- (ctl_addFailed {| failed_id := id; failed_reason := r |} s).
  destruct (addFailed _ s). reflexivity.
Qed.

Lemma ctl_handleSucccess id (s : state) : ctl_view (handleSucccess id s) = ctl_view s.
Proof.
  unfold handleSucccess. destruct (aborted s); [reflexivity | apply ctl_addSuccessd].
Qed.

Lemma core_failedHandler n k id r (s : state) :
  waitUntilDownloadComplete s <> Fulfilled ->
  Core n (S k) s -> Core n k (failedHandler id r s).
Proof.
  intros Hw H. unfold failedHandler. destruct (aborted s) eqn:Ha.
  - apply (Core_aborted n (S k)); [congruence | exact Hw | exact H].
  - apply (core_addFailed n k {| failed_id := id; failed_reason := r |}) in H.
    destruct (is_429 r); [| exact H].
    eapply Core_view; [| exact H]. destruct (addFailed _ s). reflexivity.
Qed.

Lemma core_handleSucccess n k id (s : state) :
  waitUntilDownloadComplete s <> Fulfilled ->
  Core n (S k) s -> Core n k (handleSucccess id s).
Proof.
  intros Hw H. unfold handleSucccess. destruct (aborted s) eqn:Ha.
  - apply (Core_aborted n (S k)); [congruence | exact Hw | exact H].
  - by apply core_addSuccessd.
Qed.

Lemma ctl_pc (s s' : state) : ctl_view s' = ctl_view s -> pc s' = pc s.
Proof. by intros [= -> _ _ _ _ _ _]. Qed.
Lemma ctl_inflight (s s' : state) : ctl_view s' = ctl_view s -> inflight s' = inflight s.
Proof. by intros [= _ -> _ _ _ _ _]. Qed.
Lemma ctl_aborted (s s' : state) : ctl_view s' = ctl_view s -> aborted s' = aborted s.
Proof. by intros [= _ _ -> _ _ _ _]. Qed.

Lemma Inv_running n (s : state) :
  running (pc s) ->
  Inv n s <->
  Core n (length (inflight s) + pending (pc s)) s /\
  waitUntilDownloadComplete s <> Fulfilled.
Proof. unfold Inv. destruct (pc s); simpl; tauto. Qed.

Lemma wake_finished (s : state) o : pc s = Finished o -> wake s = s.
Proof.
  intros H. unfold wake. rewrite H. by destruct (waitUntilDownloadComplete s).
Qed.

Lemma inv_on_settle n i h id res (s : state) :
  (i < length (inflight s))%nat -> Inv n s -> Inv n (on_settle i h id res s).
Proof.
  intros Hi HI. unfold on_settle.
  set (s1 := set_inflight (delete i (inflight s)) s).
  set (s2 := match res with
             | None => handleSucccess id s1
             | Some r => failedHandler id r s1
             end).
  set (s3 := removeTask id s2).
  assert (Hc12 : ctl_view s2 = ctl_view s1).
  { subst s2. destruct res; [apply ctl_failedHandler | apply ctl_handleSucccess]. }
  assert (Hpc : pc s3 = pc s).
  { transitivity (pc s2); [by destruct s2 |].
    rewrite (ctl_pc _ _ Hc12). by destruct s. }
  assert (Hin : length (inflight s3) = (length (inflight s) - 1)%nat).
  { transitivity (length (inflight s2)); [by destruct s2 |].
    rewrite (ctl_inflight _ _ Hc12). subst s1. destruct s. flatten.
    rewrite length_delete; [reflexivity |]. by apply lookup_lt_is_Some_2. }
  assert (Hcase : running (pc s) \/ pc s = Idle \/ exists o, pc s = Finished o)
    by (destruct (pc s); simpl; eauto).
  destruct Hcase as [Hrun | [Hidle | [o Hfin]]].
  - assert (HI' := HI). apply Inv_running in HI'; [| exact Hrun]. destruct HI' as [HC Hw].
    assert (HC3 : Core n (length (inflight s3) + pending (pc s3)) s3).
    { rewrite Hin, Hpc.
      assert (HC1 : Core n (S (length (inflight s) - 1 + pending (pc s))) s1).
      { subst s1. destruct s. flatten. core_frame HC. }
      eapply Core_view with (s := s2); [by destruct s2 |].
      subst s2. destruct res.
      - apply core_failedHandler; [by destruct s | exact HC1].
      - apply core_handleSucccess; [by destruct s | exact HC1]. }
    rewrite <- Hpc in Hrun.
    destruct (pc s3) eqn:Hp3; try (apply inv_wake; [by rewrite Hp3 | by rewrite Hp3]).
    destruct (bool_decide _); [| apply inv_wake; [by rewrite Hp3 | by rewrite Hp3]].
    by apply inv_after_threshold.
  - unfold Inv in HI. rewrite Hidle in HI. destruct HI as (_ & HI & _).
    rewrite HI in Hi. simpl in Hi. lia.
  - rewrite Hpc, Hfin. rewrite wake_finished with (o := o); [| by rewrite Hpc].
    unfold Inv in *. rewrite Hpc. rewrite Hfin in *. destruct o; [| exact I].
    destruct HI as (_ & _ & HI). rewrite HI in Hi. simpl in Hi. lia.
Qed.

Lemma inv_on_yield n b (s : state) :
  pc s = AwaitBatch -> (Z.of_nat (n + candidates b) <= total b)%Z ->
  Inv n s -> Inv (n + candidates b) (on_yield b s).
Proof.
  intros Hp Ht HI. apply Inv_running in HI; [| by rewrite Hp].
  rewrite Hp in HI. destruct HI as [HC Hw]. simpl in HC.
  unfold on_yield, throwIfAborted.
  destruct (aborted s); [apply inv_catch_error |].
  set (s1 := setArtworkCount (total b) s).
  set (s2 := if (length (invalid b) =? 0)%nat then s1 else addExcluded_array (invalid b) s1).
  set (s3 := if (length (unavaliable b) =? 0)%nat then s2 else addFailed_array _ s2).
  assert (H1 : Core (n + candidates b) (length (inflight s) + 0 + candidates b) s1)
    by (by apply core_setArtworkCount).
  assert (Hi1 : inflight s1 = inflight s) by apply ctl_inflight, ctl_setArtworkCount.
  assert (H2 : Core (n + candidates b)
                 (length (inflight s) + length (avaliable b) + length (unavaliable b)) s2
               /\ inflight s2 = inflight s).
  { subst s2. destruct (Nat.eqb_spec (length (invalid b)) 0) as [He | He].
    - split; [| exact Hi1]. eapply Core_eq; [| exact H1]. unfold candidates. lia.
    - split; [| by rewrite (ctl_inflight _ _ (ctl_addExcluded_array _ _))].
      apply core_addExcluded_array. eapply Core_eq; [| exact H1].
      unfold candidates. lia. }
  destruct H2 as [H2 Hi2].
  assert (H3 : Core (n + candidates b) (length (inflight s3) + length (avaliable b)) s3).
  { subst s3. destruct (Nat.eqb_spec (length (unavaliable b)) 0) as [He | He].
    - rewrite Hi2. eapply Core_eq; [| exact H2]. lia.
    - rewrite (ctl_inflight _ _ (ctl_addFailed_array _ _)), Hi2.
      apply core_addFailed_array. eapply Core_eq; [| exact H2]. lia. }
  destruct (Nat.eqb_spec (length (avaliable b)) 0) as [He | He].
  - apply (inv_race_sleep _ _ []); [reflexivity | exact I |].
    rewrite He in H3. exact H3.
  - by apply inv_next_id.
Qed.

Lemma inv_on_parse n id rest res (s : state) :
  pc s = AwaitParse id rest -> Inv n s -> Inv n (on_parse id rest res s).
Proof.
  intros Hp HI. apply Inv_running in HI; [| by rewrite Hp].
  rewrite Hp in HI. destruct HI as [HC Hw]. simpl in HC.
  unfold BatchDownload.on_parse, throwIfAborted. destruct res as [m | r].
  - destruct (aborted s); [apply inv_catch_error |].
    destruct (filterWhenGenerateIngPage cfg); [by apply inv_dispatch |].
    destruct s. unfold Inv. flatten. split; [| exact Hw]. core_frame HC.
  - destruct (aborted (failedHandler id r s)); [apply inv_catch_error |].
    apply inv_next_id. rewrite (ctl_inflight _ _ (ctl_failedHandler _ _ _)).
    apply core_failedHandler; [exact Hw |]. eapply Core_eq; [| exact HC]. lia.
Qed.

Lemma inv_on_validity n id m rest (s : state) :
  pc s = AwaitValidity id m rest -> Inv n s -> Inv n (on_validity id m rest s).
Proof.
  intros Hp HI. apply Inv_running in HI; [| by rewrite Hp].
  rewrite Hp in HI. destruct HI as [HC Hw]. simpl in HC.
  unfold BatchDownload.on_validity. destruct (checkValidity m); [by apply inv_dispatch |].
  apply inv_next_id. rewrite (ctl_inflight _ _ (ctl_addExcluded _ _)).
  apply core_addExcluded. eapply Core_eq; [| exact HC]. lia.
Qed.

Lemma inv_abort n (s : state) : Inv n s -> Inv n (abort s).
Proof.
  intros HI. unfold abort.
  destruct (controller s) eqn:Hc; [| exact HI].
  destruct (aborted s) eqn:Ha; [exact HI |].
  assert (Hcase : running (pc s) \/ pc s = Idle \/ exists o, pc s = Finished o)
    by (destruct (pc s); simpl; eauto).
  destruct Hcase as [Hrun | [Hidle | [o Hfin]]].
  - assert (HI' := HI). apply Inv_running in HI'; [| exact Hrun]. destruct HI' as [HC Hw].
    apply inv_wake.
    + destruct s. unfold controller_abort, downloadAbort, reject. flatten.
      destruct hooked0, waitUntilDownloadComplete0; exact Hrun.
    + destruct s. unfold controller_abort, downloadAbort, reject, Core in *. flatten.
      destruct HC as (-> & Hd & HC).
      destruct waitUntilDownloadComplete0; flatten; try congruence;
        (split; [reflexivity | split; [exact Hd | discriminate]]).
  - unfold Inv in HI. rewrite Hidle in HI. destruct HI as (_ & _ & HI). congruence.
  - rewrite wake_finished with (o := o).
    + destruct s. unfold controller_abort, downloadAbort, reject, Inv in *. flatten.
      simpl in Hfin. subst pc0.
      destruct hooked0, waitUntilDownloadComplete0, o; flatten; intuition congruence.
    + destruct s. unfold controller_abort, downloadAbort, reject. flatten.
      by destruct hooked0, waitUntilDownloadComplete0.
Qed.

Lemma reset_view (s : state) :
  core_view (reset s) = (None, [], [], [], false, false, waitUntilDownloadComplete s, aborted s)
  /\ inflight (reset s) = inflight s.
Proof.
  destruct s. unfold reset. rewrite !notify_eq. flatten.
  split; [| reflexivity]. repeat f_equal.
  by destruct hooked0, isDone0, waitUntilDownloadComplete0.
Qed.

Lemma batchDownload_busy fnId (s : state) :
  downloading s = true -> batchDownload fnId s = (Some AlreadyDownloading, s).
Proof. unfold BatchDownload.batchDownload. by intros ->. Qed.

Lemma inv_batchDownload n fnId (s : state) :
  pc s = Idle -> Inv n s -> Inv n (batchDownload fnId s).2.
Proof.
  intros Hp HI. unfold BatchDownload.batchDownload.
  destruct (downloading s); [exact HI |].
  destruct (getGenerator fnId); [| apply inv_catch_error].
  unfold Inv in HI. rewrite Hp in HI. destruct HI as (-> & Hin & _).
  remember (reset (writeLog Info "Start download..." (set_downloading true s))) as R eqn:HR.
  destruct (reset_view (writeLog Info "Start download..." (set_downloading true s)))
    as [Hv Hi]. rewrite <- HR in Hv, Hi.
  assert (Hi' : inflight R = []) by (rewrite Hi; destruct s; exact Hin).
  clear HR Hi. destruct R. unfold core_view in Hv. flatten. simpl in Hi'.
  injection Hv as -> -> -> -> -> -> _ _. subst.
  cbn [snd]. unfold dispatchDownload, throwIfAborted, arrive_batch. flatten.
  unfold Inv, Core. flatten. simpl. repeat split; auto; discriminate.
Qed.

Lemma inv_step n (s s' : state) e :
  Inv n s -> step s e = Some s' ->
  (forall b, e = GenYield b -> (Z.of_nat (n + candidates b) <= total b)%Z) ->
  Inv (n + weight e) s'.
Proof.
  intros HI Hs Ht. unfold BatchDownload.step in Hs.
  destruct e; simpl weight; rewrite ?Nat.add_0_r.
  - (* Call *)
    destruct (pc s) eqn:Hp; try discriminate;
      try (destruct (downloading s) eqn:Hd; [| discriminate];
           rewrite (batchDownload_busy _ _ Hd) in Hs; by simplify_eq).
    injection Hs as <-. by apply inv_batchDownload.
  - injection Hs as <-. by apply inv_abort.
  - destruct (pc s) eqn:Hp; try discriminate. injection Hs as <-.
    apply inv_on_yield; auto.
  - destruct (pc s) eqn:Hp; try discriminate. injection Hs as <-.
    apply inv_arrive_completion.
    apply Inv_running in HI; [| by rewrite Hp]. rewrite Hp in HI.
    destruct HI as [HC _]. simpl in HC. by rewrite Nat.add_0_r in HC.
  - destruct (pc s) eqn:Hp; try discriminate. injection Hs as <-.
    apply inv_catch_error.
  - (* TimerFired *)
    destruct (pc s) eqn:Hp; try discriminate; injection Hs as <-;
      (apply Inv_running in HI; [| by rewrite Hp]); rewrite Hp in HI;
      destruct HI as [HC _]; simpl in HC.
    + apply inv_arrive_batch. by rewrite Nat.add_0_r in HC.
    + destruct s. apply inv_start_parse. flatten. core_frame HC.
    + by apply inv_next_id.
  - destruct (pc s) eqn:Hp; try discriminate. injection Hs as <-.
    by apply inv_on_parse.
  - destruct (pc s) eqn:Hp; try discriminate. injection Hs as <-.
    by apply inv_on_validity.
  - destruct (list_find _ _) as [[i [h' id]] |] eqn:Hf; [| discriminate].
    injection Hs as <-. apply inv_on_settle; [| exact HI].
    apply list_find_Some in Hf. destruct Hf as (Hl & _). by apply lookup_lt_Some in Hl.
Qed.

Lemma inv_run events : forall n (s s' : state),
  Inv n s -> totals_cover n events -> run s events = Some s' -> exists n', Inv n' s'.
Proof.
  induction events as [| e events IH]; intros n s s' HI Ht Hr; simpl in Hr.
  - injection Hr as <-. eauto.
  - destruct (step s e) as [s1 |] eqn:Hs; [| discriminate].
    apply (IH (n + weight e)%nat s1 s'); [| | exact Hr].
    + eapply inv_step; [exact HI | exact Hs |].
      intros b ->. simpl in Ht. tauto.
    + destruct e; simpl in *; rewrite ?Nat.add_0_r; tauto.
Qed.

Lemma inv_init : Inv 0 (init : state).
Proof. unfold Inv. simpl. auto. Qed.

(** ** The control invariant: dispatch window and cooldowns *)

Lemma cooldowns_snoc t a :
  cooldowns (t ++ [a]) = (cooldowns t + (if is_cooldown a then 1 else 0))%nat.
Proof.
  unfold cooldowns. rewrite List.filter_app, length_app. simpl.
  by destruct (is_cooldown a).
Qed.

Ltac k_crush :=
  unfold K, K0, Pre, window_ok, parked_pending, armed, kview, THRESHOLD in *; flatten;
  rewrite ?cooldowns_snoc in *; simpl in *;
  repeat match goal with
         | H : _ /\ _ |- _ => destruct H
         end;
  subst; simpl in *;
  repeat match goal with
         | H : ?c = false |- context [if ?c then _ else _] => rewrite H
         | H : ?c = true |- context [if ?c then _ else _] => rewrite H
         | H : context [if ?x then _ else _] |- _ => is_var x; destruct x
         | |- context [if ?x then _ else _] => is_var x; destruct x
         | H : context [match ?x with _ => _ end] |- _ => is_var x; destruct x
         | |- context [match ?x with _ => _ end] => is_var x; destruct x
         end;
  simpl in *; repeat split; try congruence; try lia.

Lemma K0_view m (s s' : state) : kview s' = kview s -> K0 m s -> K0 m s'.
Proof.
  unfold kview, K0, window_ok, armed. intros [= -> -> -> ->]. auto.
Qed.

Lemma k_catch_error m started r (s : state) :
  (length (dlPromise s) <= THRESHOLD)%nat -> (cooldowns (trace s) <= m)%nat ->
  K m (catch_error started r s).
Proof.
  intros Hd Hc. destruct s. unfold catch_error, controller_abort, downloadAbort, reject.
  destruct started, aborted0, hooked0, waitUntilDownloadComplete0, (is_Error r); k_crush.
Qed.

Lemma k_finish m (s : state) :
  (length (dlPromise s) <= THRESHOLD)%nat -> (cooldowns (trace s) <= m)%nat ->
  K m (finish s).
Proof. intros Hd Hc. destruct s. k_crush. Qed.

Lemma Pre_le m (s : state) :
  Pre m s -> (length (dlPromise s) <= THRESHOLD)%nat /\ (cooldowns (trace s) <= m)%nat.
Proof. unfold Pre. destruct (status429 s); lia. Qed.

Lemma k_arrive_completion m (s : state) : Pre m s -> K m (arrive_completion s).
Proof.
  intros H. unfold arrive_completion. destruct (waitUntilDownloadComplete s) eqn:Hw.
  - destruct s. simpl in Hw. k_crush.
  - apply k_finish; by apply (Pre_le m).
  - apply k_catch_error; by apply (Pre_le m).
Qed.

Lemma k_arrive_batch m (s : state) : Pre m s -> K m (arrive_batch s).
Proof.
  intros H. unfold arrive_batch. destruct (waitUntilDownloadComplete s) eqn:Hw.
  - destruct s. simpl in Hw. k_crush.
  - by apply k_arrive_completion.
  - apply k_catch_error; by apply (Pre_le m).
Qed.

Lemma k_start_parse m id rest (s : state) : Pre m s -> K m (start_parse id rest s).
Proof. intros H. destruct s. k_crush. Qed.

Lemma k_next_id m ids (s : state) : Pre m s -> K m (next_id ids s).
Proof.
  intros H. unfold next_id. destruct ids as [| id rest]; [by apply k_arrive_batch |].
  destruct (status429 s) eqn:Hs; [| by apply k_start_parse].
  unfold race_sleep. destruct s. flatten. simpl in Hs. subst.
  destruct waitUntilDownloadComplete0.
  - k_crush.
  - k_crush.
  - apply k_catch_error; k_crush.
Qed.

Lemma k_after_threshold m rest (s : state) :
  (cooldowns (trace s) + (if status429 s then 1 else 0) <= m)%nat ->
  K m (after_threshold rest s).
Proof.
  intros H. unfold after_threshold. apply k_next_id. destruct s. k_crush.
Qed.

Lemma k_race_sleep m ms ids park (s : state) :
  is_cooldown (Sleep ms) = false ->
  match park with AwaitPoliteness | AwaitDelay _ => True | _ => False end ->
  Pre m s -> K m (race_sleep ms (next_id ids) park s).
Proof.
  intros Hms Hpark H. unfold race_sleep. destruct s. flatten.
  destruct waitUntilDownloadComplete0.
  - destruct park; try contradiction; k_crush.
  - apply k_next_id. k_crush.
  - apply k_catch_error; k_crush.
Qed.

Lemma k_dispatch m id rest (s : state) : Pre m s -> K m (dispatch id rest s).
Proof.
  intros H. unfold BatchDownload.dispatch. destruct s. flatten.
  match goal with |- context [if ?c then _ else _] => destruct c eqn:Hth end.
  - apply Nat.leb_le in Hth. rewrite length_app in Hth. simpl in Hth.
    match goal with |- context [if ?c then _ else _] => destruct c end.
    + apply k_after_threshold. k_crush.
    + destruct waitUntilDownloadComplete0.
      * k_crush; rewrite length_app; simpl; lia.
      * apply k_after_threshold. k_crush.
      * apply k_catch_error; k_crush; rewrite length_app; simpl; lia.
  - apply Nat.leb_gt in Hth. apply k_race_sleep; [reflexivity | exact I |]. k_crush.
Qed.

Lemma k_wake m (s : state) : K0 m s -> K m (wake s).
Proof.
  intros H. unfold wake. destruct (waitUntilDownloadComplete s) eqn:Hw.
  - split; [exact H |]. unfold parked_pending. by destruct (pc s).
  - destruct (pc s) eqn:Hp; try (split; [exact H | by unfold parked_pending; rewrite Hp]).
    + apply k_arrive_completion. destruct s. simpl in Hp. k_crush.
    + apply k_next_id. destruct s. simpl in Hp. k_crush.
    + destruct s. simpl in Hp. k_crush.
    + apply k_after_threshold. destruct s. simpl in Hp. k_crush.
    + apply k_next_id. destruct s. simpl in Hp. k_crush.
    + apply k_finish; destruct s; simpl in Hp; k_crush.
  - destruct (pc s) eqn:Hp; try (split; [exact H | by unfold parked_pending; rewrite Hp]);
      apply k_catch_error; destruct s; simpl in Hp; k_crush.
Qed.

Ltac kview_crush s :=
  destruct s; rewrite ?notify_eq; unfold kview; flatten;
  rewrite ?cooldowns_snoc; simpl; rewrite ?Nat.add_0_r; reflexivity.

Lemma kview_setArtworkCount t (s : state) : kview (setArtworkCount t s) = kview s.
Proof. unfold setArtworkCount. kview_crush s. Qed.

Lemma kview_addSuccessd id (s : state) : kview (addSuccessd id s) = kview s.
Proof. unfold addSuccessd. kview_crush s. Qed.

Lemma kview_addExcluded id (s : state) : kview (addExcluded id s) = kview s.
Proof. unfold addExcluded. kview_crush s. Qed.

Lemma kview_addExcluded_array ids (s : state) : kview (addExcluded_array ids s) = kview s.
Proof. unfold addExcluded_array. kview_crush s. Qed.

Lemma kview_addFailed item (s : state) : kview (addFailed item s) = kview s.
Proof. unfold addFailed. destruct item as [? []]; kview_crush s. Qed.

Lemma kview_addFailed_array items (s : state) : kview (addFailed_array items s) = kview s.
Proof. unfold addFailed_array. destruct (last items) as [[? []] |]; kview_crush s. Qed.

Lemma kview_handleSucccess id (s : state) : kview (handleSucccess id s) = kview s.
Proof.
  unfold handleSucccess. destruct (aborted s); [reflexivity | apply kview_addSuccessd].
Qed.

Lemma K0_mono m m' (s : state) : (m <= m')%nat -> K0 m s -> K0 m' s.
Proof. unfold K0. intros ? [? ?]. split; [assumption | lia]. Qed.

Lemma k_failedHandler m id r (s : state) :
  K0 m s -> K0 (m + (if is_429 r then 1 else 0)) (failedHandler id r s).
Proof.
  intros H. unfold failedHandler. destruct (aborted s).
  - eapply K0_mono; [| exact H]. lia.
  - apply (K0_view m _ _ (kview_addFailed {| failed_id := id; failed_reason := r |} s)) in H.
    destruct (is_429 r); [| by rewrite Nat.add_0_r].
    destruct (addFailed _ s). k_crush.
Qed.

Lemma Pre_of_K0 m (s : state) :
  match pc s with
  | AwaitBatch | AwaitPoliteness | AwaitParse _ _ | AwaitValidity _ _ _ | AwaitDelay _
  | AwaitCompletion | Idle => True
  | _ => False
  end ->
  K0 m s -> Pre m s.
Proof. destruct s. intros Hp H. simpl in Hp. destruct pc0; try contradiction; k_crush. Qed.

Lemma Pre_view m (s s' : state) : kview s' = kview s -> Pre m s -> Pre m s'.
Proof. unfold kview, Pre. intros [= _ -> -> ->]. auto. Qed.

Lemma Pre_mono m m' (s : state) : (m <= m')%nat -> Pre m s -> Pre m' s.
Proof. unfold Pre. intros ? [? ?]. split; [assumption | lia]. Qed.

Lemma k_on_settle m i h id res (s : state) :
  K0 m s ->
  K (m + (if is_signal (Settle h res : event) then 1 else 0)) (on_settle i h id res s).
Proof.
  intros H. unfold on_settle.
  set (s1 := set_inflight (delete i (inflight s)) s).
  set (s2 := match res with
             | None => handleSucccess id s1
             | Some r => failedHandler id r s1
             end).
  set (s3 := removeTask id s2).
  set (m' := (m + _)%nat).
  assert (H3 : K0 m' s3).
  { apply K0_view with (s := s2); [by destruct s2 |].
    assert (H1 : K0 m s1) by (apply K0_view with (s := s); [by destruct s | exact H]).
    subst s2 m'. destruct res as [r |]; simpl.
    - by apply k_failedHandler.
    - rewrite Nat.add_0_r. by apply K0_view with (s := s1); [apply kview_handleSucccess |]. }
  destruct (pc s3) eqn:Hp; try by apply k_wake.
  destruct (bool_decide _); [| by apply k_wake].
  apply k_after_threshold. destruct s3. simpl in Hp. subst. k_crush.
Qed.

Lemma k_on_yield m b (s : state) :
  pc s = AwaitBatch -> K0 m s -> K m (on_yield b s).
Proof.
  intros Hp H. assert (HP : Pre m s) by (apply Pre_of_K0; [by rewrite Hp | exact H]).
  unfold on_yield, throwIfAborted.
  destruct (aborted s); [apply k_catch_error; by apply (Pre_le m) |].
  set (s1 := setArtworkCount (total b) s).
  set (s2 := if (length (invalid b) =? 0)%nat then s1 else addExcluded_array (invalid b) s1).
  set (s3 := if (length (unavaliable b) =? 0)%nat then s2 else addFailed_array _ s2).
  assert (H3 : Pre m s3).
  { apply Pre_view with (s := s); [| exact HP].
    transitivity (kview s2).
    - subst s3. destruct (length (unavaliable b) =? 0)%nat;
        [reflexivity | apply kview_addFailed_array].
    - transitivity (kview s1); [| apply kview_setArtworkCount].
      subst s2. destruct (length (invalid b) =? 0)%nat;
        [reflexivity | apply kview_addExcluded_array]. }
  destruct (length (avaliable b) =? 0)%nat.
  - by apply k_race_sleep.
  - by apply k_next_id.
Qed.

Lemma k_on_parse m id rest res (s : state) :
  pc s = AwaitParse id rest -> K0 m s ->
  K (m + (if is_signal (Parsed res) then 1 else 0)) (on_parse id rest res s).
Proof.
  intros Hp H. unfold BatchDownload.on_parse, throwIfAborted. destruct res as [a | r]; simpl.
  - rewrite Nat.add_0_r.
    assert (HP : Pre m s) by (apply Pre_of_K0; [by rewrite Hp | exact H]).
    destruct (aborted s); [apply k_catch_error; by apply (Pre_le m) |].
    destruct (filterWhenGenerateIngPage cfg); [by apply k_dispatch |].
    destruct s. simpl in Hp. subst. k_crush.
  - set (m' := (m + _)%nat).
    assert (HP : Pre m' (failedHandler id r s)).
    { apply Pre_of_K0; [| by apply k_failedHandler].
      rewrite (ctl_pc _ _ (ctl_failedHandler id r s)). by rewrite Hp. }
    destruct (aborted _); [apply k_catch_error; by apply (Pre_le m') |].
    by apply k_next_id.
Qed.

Lemma k_on_validity m id a rest (s : state) :
  pc s = AwaitValidity id a rest -> K0 m s -> K m (on_validity id a rest s).
Proof.
  intros Hp H. assert (HP : Pre m s) by (apply Pre_of_K0; [by rewrite Hp | exact H]).
  unfold BatchDownload.on_validity. destruct (checkValidity a); [by apply k_dispatch |].
  apply k_next_id. by apply Pre_view with (s := s); [apply kview_addExcluded |].
Qed.

Lemma kview_controller_abort r (s : state) : kview (controller_abort r s) = kview s.
Proof.
  destruct s. unfold controller_abort, downloadAbort, reject.
  destruct hooked0, waitUntilDownloadComplete0; unfold kview; flatten;
    rewrite ?cooldowns_snoc; simpl; rewrite ?Nat.add_0_r; reflexivity.
Qed.

Lemma k_abort m (s : state) : K m s -> K m (abort s).
Proof.
  intros H. unfold abort. destruct (controller s); [| exact H].
  destruct (aborted s); [exact H |].
  apply k_wake. destruct H as [H _].
  by apply K0_view with (s := s); [apply kview_controller_abort |].
Qed.

Lemma reset_kview (s : state) : kview (reset s) = kview s.
Proof.
  destruct s. unfold reset. rewrite !notify_eq. unfold kview. flatten.
  rewrite ?cooldowns_snoc. simpl. by rewrite ?Nat.add_0_r.
Qed.

Lemma k_batchDownload m fnId (s : state) :
  pc s = Idle -> K m s -> K m (batchDownload fnId s).2.
Proof.
  intros Hp H. unfold BatchDownload.batchDownload. destruct (downloading s); [exact H |].
  destruct H as [H _].
  assert (HP : Pre m s) by (apply Pre_of_K0; [by rewrite Hp | exact H]).
  remember (reset (writeLog Info "Start download..." (set_downloading true s))) as R eqn:HR.
  assert (HR' : Pre m R).
  { apply Pre_view with (s := s); [| exact HP]. rewrite HR, reset_kview.
    destruct s. unfold kview. flatten. rewrite cooldowns_snoc. simpl.
    by rewrite Nat.add_0_r. }
  clear HR. destruct (getGenerator fnId); cbn [snd].
  - unfold dispatchDownload, throwIfAborted. destruct R. flatten.
    apply k_arrive_batch. k_crush.
  - apply k_catch_error; destruct R; k_crush.
Qed.

Lemma k_step m (s s' : state) e :
  K m s -> step s e = Some s' -> K (m + (if is_signal e then 1 else 0)) s'.
Proof.
  intros HK Hs. assert (H0 := proj1 HK). unfold BatchDownload.step in Hs.
  destruct e; try (simpl is_signal; rewrite Nat.add_0_r).
  - destruct (pc s) eqn:Hp; try discriminate;
      try (destruct (downloading s) eqn:Hd; [| discriminate];
           rewrite (batchDownload_busy _ _ Hd) in Hs; by simplify_eq).
    injection Hs as <-. by apply k_batchDownload.
  - injection Hs as <-. by apply k_abort.
  - destruct (pc s) eqn:Hp; try discriminate. injection Hs as <-. by apply k_on_yield.
  - destruct (pc s) eqn:Hp; try discriminate. injection Hs as <-.
    apply k_arrive_completion. apply Pre_of_K0; [by rewrite Hp | exact H0].
  - destruct (pc s) eqn:Hp; try discriminate. injection Hs as <-.
    apply k_catch_error; destruct s; simpl in Hp; subst; k_crush.
  - destruct (pc s) eqn:Hp; try discriminate; injection Hs as <-.
    + apply k_arrive_batch. apply Pre_of_K0; [by rewrite Hp | exact H0].
    + destruct s. simpl in Hp. subst. k_crush.
    + apply k_next_id. apply Pre_of_K0; [by rewrite Hp | exact H0].
  - destruct (pc s) eqn:Hp; try discriminate. injection Hs as <-. by apply k_on_parse.
  - destruct (pc s) eqn:Hp; try discriminate. injection Hs as <-. by apply k_on_validity.
  - destruct (list_find _ _) as [[i [h' id]] |]; [| discriminate].
    injection Hs as <-. by apply k_on_settle.
Qed.

Lemma k_run events : forall m (s s' : state),
  K m s -> run s events = Some s' -> K (m + signals events) s'.
Proof.
  induction events as [| e events IH]; intros m s s' HK Hr; simpl in Hr.
  - injection Hr as <-. unfold signals. simpl. by rewrite Nat.add_0_r.
  - destruct (step s e) as [s1 |] eqn:Hs; [| discriminate].
    apply (k_step m) in Hs; [| exact HK]. apply IH with (s' := s') in Hs; [| exact Hr].
    replace (m + signals (e :: events))%nat
      with (m + (if is_signal e then 1 else 0) + signals events)%nat; [exact Hs |].
    unfold signals. simpl. destruct (is_signal e); simpl; lia.
Qed.

Lemma k_init : K 0 (init : state).
Proof. unfold K, K0, window_ok, parked_pending, armed, THRESHOLD. simpl. auto with lia. Qed.

(** ** Waiting at the threshold *)

Ltac unfold_flow :=
  unfold wake, after_threshold, next_id, after_cooldown, start_parse, race_sleep,
    arrive_batch, arrive_completion, finish, catch_error, controller_abort,
    downloadAbort, reject, writeLog_Error, writeLog, emit in *.

Lemma ctl_dispatched (s s' : state) :
  ctl_view s' = ctl_view s -> dispatched s' = dispatched s.
Proof. by intros [= _ _ _ _ -> _ _]. Qed.
Lemma ctl_dlPromise (s s' : state) :
  ctl_view s' = ctl_view s -> dlPromise s' = dlPromise s.
Proof. by intros [= _ _ _ -> _ _ _]. Qed.

Lemma follows_trans (s1 s2 s3 : state) : follows s1 s2 -> follows s2 s3 -> follows s1 s3.
Proof.
  unfold follows. intros (H1 & H2 & H3 & H4) (H5 & H6 & H7 & H8).
  repeat split; try congruence. auto.
Qed.

Lemma follows_refl (s : state) : follows s s.
Proof. unfold follows. auto. Qed.

Ltac follows_now := unfold follows; flatten; repeat split; auto; try discriminate.

Lemma follows_finish (s : state) : follows s (finish s).
Proof. destruct s. follows_now. Qed.

Lemma follows_catch_error started r (s : state) : follows s (catch_error started r s).
Proof.
  destruct s. unfold catch_error, controller_abort, downloadAbort, reject.
  destruct started, aborted0, hooked0, waitUntilDownloadComplete0, (is_Error r);
    follows_now.
Qed.

Lemma follows_arrive_completion (s : state) : follows s (arrive_completion s).
Proof.
  unfold arrive_completion. destruct (waitUntilDownloadComplete s) eqn:Hw.
  - destruct s. follows_now.
  - apply follows_finish.
  - apply follows_catch_error.
Qed.

Lemma follows_arrive_batch (s : state) : follows s (arrive_batch s).
Proof.
  unfold arrive_batch. destruct (waitUntilDownloadComplete s) eqn:Hw.
  - destruct s. follows_now.
  - apply follows_arrive_completion.
  - apply follows_catch_error.
Qed.

Lemma follows_next_id ids (s : state) : follows s (next_id ids s).
Proof.
  unfold next_id. destruct ids as [| id rest]; [apply follows_arrive_batch |].
  destruct (status429 s); [| destruct s; follows_now].
  unfold race_sleep. destruct s. flatten. destruct waitUntilDownloadComplete0.
  - follows_now.
  - follows_now.
  - eapply follows_trans; [| apply follows_catch_error]. follows_now.
Qed.

Lemma follows_after_threshold rest (s : state) : follows s (after_threshold rest s).
Proof.
  unfold after_threshold. eapply follows_trans; [| apply follows_next_id].
  destruct s. follows_now.
Qed.

Lemma follows_wake (s : state) : follows s (wake s).
Proof.
  unfold wake. destruct (waitUntilDownloadComplete s) eqn:Hw.
  - apply follows_refl.
  - destruct (pc s); try apply follows_refl;
      auto using follows_arrive_completion, follows_next_id, follows_after_threshold,
        follows_finish.
    destruct s. follows_now.
  - destruct (pc s); try apply follows_refl; apply follows_catch_error.
Qed.

Lemma wake_dispatched (s : state) : dispatched (wake s) = dispatched s.
Proof. apply follows_wake. Qed.

Lemma after_threshold_dispatched rest (s : state) :
  dispatched (after_threshold rest s) = dispatched s.
Proof. apply follows_after_threshold. Qed.

Lemma wake_pending (s : state) :
  waitUntilDownloadComplete s = Pending -> wake s = s.
Proof. unfold wake. by intros ->. Qed.

Lemma wake_settled (s : state) :
  waitUntilDownloadComplete s <> Pending -> waitUntilDownloadComplete (wake s) <> Pending.
Proof. apply (follows_wake s). Qed.

Lemma on_settle_dispatched i h id res (s : state) :
  dispatched (on_settle i h id res s) = dispatched s.
Proof.
  unfold on_settle.
  set (s1 := set_inflight (delete i (inflight s)) s).
  set (s2 := match res with
             | None => handleSucccess id s1
             | Some r => failedHandler id r s1
             end).
  set (s3 := removeTask id s2).
  assert (H3 : dispatched s3 = dispatched s).
  { transitivity (dispatched s2); [by destruct s2 |].
    transitivity (dispatched s1); [| by destruct s].
    assert (Hc : ctl_view s2 = ctl_view s1)
      by (subst s2; destruct res; [apply ctl_failedHandler | apply ctl_handleSucccess]).
    exact (ctl_dispatched _ _ Hc). }
  rewrite <- H3.
  destruct (pc s3); try apply wake_dispatched.
  destruct (bool_decide _); [apply after_threshold_dispatched | apply wake_dispatched].
Qed.

Lemma abort_dispatched (s : state) : dispatched (abort s) = dispatched s.
Proof.
  unfold abort. destruct (controller s); [| reflexivity].
  destruct (aborted s); [reflexivity |]. rewrite wake_dispatched.
  destruct s. unfold controller_abort, downloadAbort, reject.
  destruct hooked0, waitUntilDownloadComplete0; reflexivity.
Qed.

(** While the loop waits on [dlPromise], an event dispatches nothing, and
    the loop stays where it is unless one of the awaited downloads settles
    or the event settles the completion promise. *)
Lemma threshold_step rest (s s' : state) e :
  pc s = AwaitThreshold rest -> waitUntilDownloadComplete s = Pending ->
  step s e = Some s' ->
  dispatched s' = dispatched s /\
  ((pc s' = AwaitThreshold rest /\ dlPromise s' = dlPromise s) \/
   (exists h res, e = Settle h res /\ h ∈ dlPromise s) \/
   waitUntilDownloadComplete s' <> Pending).
Proof.
  intros Hp Hw Hs. unfold BatchDownload.step in Hs. rewrite Hp in Hs. destruct e; try discriminate.
  - destruct (downloading s) eqn:Hd; [| discriminate].
    rewrite (batchDownload_busy _ _ Hd) in Hs. simplify_eq. auto.
  - injection Hs as <-. split; [apply abort_dispatched |].
    unfold abort. destruct (controller s); [| by left].
    destruct (aborted s); [by left |].
    destruct (hooked s) eqn:Hh.
    + right. right. apply wake_settled.
      destruct s. simpl in *. subst. unfold controller_abort, downloadAbort, reject.
      flatten. discriminate.
    + left. rewrite wake_pending.
      * destruct s. simpl in *. subst. unfold controller_abort. flatten. auto.
      * destruct s. simpl in *. subst. unfold controller_abort. flatten. reflexivity.
  - destruct (list_find _ _) as [[i [h' id]] |] eqn:Hf; [| discriminate].
    injection Hs as <-. split; [apply on_settle_dispatched |].
    unfold on_settle.
    set (s1 := set_inflight (delete i (inflight s)) s).
    set (s2 := match res with
               | None => handleSucccess id s1
               | Some r => failedHandler id r s1
               end).
    set (s3 := removeTask id s2).
    assert (Hc : ctl_view s2 = ctl_view s1)
      by (subst s2; destruct res; [apply ctl_failedHandler | apply ctl_handleSucccess]).
    assert (Hp3 : pc s3 = AwaitThreshold rest).
    { transitivity (pc s2); [by destruct s2 |]. rewrite (ctl_pc _ _ Hc).
      subst s1. by destruct s. }
    assert (Hd3 : dlPromise s3 = dlPromise s).
    { transitivity (dlPromise s2); [by destruct s2 |].
      transitivity (dlPromise s1); [exact (ctl_dlPromise _ _ Hc) | by destruct s]. }
    rewrite Hp3, Hd3. destruct (bool_decide_reflect (h ∈ dlPromise s)) as [Hin | Hin].
    + right. left. eauto.
    + destruct (waitUntilDownloadComplete s3) eqn:Hw3.
      * left. rewrite wake_pending; auto.
      * right. right. apply wake_settled. congruence.
      * right. right. apply wake_settled. congruence.
Qed.

(** ** The filter pipeline *)

Lemma fold_push_selected_fst selected acc :
  (forall id f, id ∈ selected ->
     find (fun f => String.eqb (filter_id f) id) (filters cfg) = Some f ->
     filter_kind f = exclude) ->
  (fold_left (push_selected cfg) selected acc).1 = acc.1.
Proof.
  revert acc. induction selected as [| id selected IH]; intros acc H; [reflexivity |].
  simpl. rewrite IH.
  - unfold push_selected. destruct (find _ _) as [f |] eqn:Hf; [| reflexivity].
    rewrite (H id f); [reflexivity | left | exact Hf].
  - intros id' f Hin. apply H. by right.
Qed.

Lemma no_include_selected_nil : no_include_selected -> includeFilters = [].
Proof.
  intros H. unfold BatchDownload.includeFilters, select_filters.
  destruct (selectedFilters cfg) as [selected |] eqn:Hs; [| reflexivity].
  rewrite fold_push_selected_fst; [reflexivity |]. intros id f. by apply H.
Qed.

Lemma addExcluded_excluded id (s : state) :
  excluded (addExcluded id s) = excluded s ++ [id].
Proof. destruct s. unfold addExcluded. rewrite notify_eq. reflexivity. Qed.

(** ** The task list *)

Lemma length_append_string (s1 s2 : string) :
  String.length (s1 +:+ s2) = (String.length s1 + String.length s2)%nat.
Proof. induction s1 as [| c s1 IH]; simpl; [reflexivity | by rewrite IH]. Qed.

(** A task id is never the artwork id it was made from. *)
Lemma generateTaskID_differs id (s : state) : generateTaskID cfg id s <> id.
Proof.
  unfold generateTaskID. intros H. apply (f_equal String.length) in H.
  rewrite !length_append_string in H. simpl in H. lia.
Qed.

(** [removeTask] for a settled download leaves the task id of that download
    in [tasks], wherever it stands. *)
Lemma removeTask_keeps_own_task id (s : state) stored later :
  generateTaskID cfg id s ∈
    remove_first id (stored ++ generateTaskID cfg id s :: later).
Proof.
  induction stored as [| t stored IH]; simpl.
  - destruct (String.eqb_spec (generateTaskID cfg id s) id) as [He | _].
    + by apply generateTaskID_differs in He.
    + left.
  - destruct (String.eqb t id).
    + apply elem_of_app. right. left.
    + right. exact IH.
Qed.

(** ** Starting a run *)

(** C10. Called while the [downloading] store is [true], [batchDownload]
    is rejected with the error [Already downloading.] and leaves the whole
    state as it was: count, result lists and everything else of the run in
    progress; as an event of a run under way it changes nothing. *)
Theorem batchDownload_rejected_while_downloading fnId (s : state)
    (H : downloading s = true) :
  batchDownload fnId s = (Some AlreadyDownloading, s) /\
  (running (pc s) -> step s (Call fnId) = Some s).
Proof.
  split; [by apply batchDownload_busy |].
  intros Hr. unfold BatchDownload.step. rewrite batchDownload_busy, H by exact H.
  by destruct (pc s).
Qed.

(** ** The concurrency threshold *)

(** C2, amended. The downloads dispatched since the loop last waited for
    one, [dlPromise], never number more than 5; when they number 5 the loop
    is suspended on them (or the run has ended); and while it is suspended
    there no event dispatches a download, and it stays suspended unless one
    of those 5 settles or the completion promise gets settled.  Downloads
    dispatched before the last wait are not counted. *)
Theorem dispatch_window_bounded events (s : state) :
  run init events = Some s ->
  (length (dlPromise s) <= THRESHOLD)%nat /\
  (length (dlPromise s) = THRESHOLD ->
     (exists rest, pc s = AwaitThreshold rest) \/ (exists o, pc s = Finished o)) /\
  (forall rest e s',
     pc s = AwaitThreshold rest -> step s e = Some s' ->
     dispatched s' = dispatched s /\
     ((pc s' = AwaitThreshold rest /\ dlPromise s' = dlPromise s) \/
      (exists h res, e = Settle h res /\ h ∈ dlPromise s) \/
      waitUntilDownloadComplete s' <> Pending)).
Proof.
  intros Hr. pose proof (k_run events 0 init s k_init Hr) as [[Hw _] Hp].
  unfold window_ok in Hw. unfold parked_pending in Hp.
  split; [| split].
  - destruct (pc s); lia.
  - intros He. destruct (pc s); eauto; lia.
  - intros rest e s' Hpc Hs. rewrite Hpc in Hp.
    exact (threshold_step rest s s' e Hpc Hp Hs).
Qed.

(** ** Rate limiting *)

Lemma failedHandler_sets_flag id r (s : state) :
  aborted s = None -> is_429 r = true -> status429 (failedHandler id r s) = true.
Proof.
  intros Ha Hr. unfold failedHandler. rewrite Ha, Hr. by destruct (addFailed _ s).
Qed.

Lemma next_id_cooldown id rest (s : state) :
  status429 s = true -> waitUntilDownloadComplete s = Pending ->
  pc (next_id (id :: rest) s) = AwaitCooldown id rest /\
  cooldowns (trace (next_id (id :: rest) s)) = S (cooldowns (trace s)) /\
  exists s2, step (next_id (id :: rest) s) TimerFired = Some s2 /\
    status429 s2 = false /\ pc s2 = AwaitParse id rest /\
    cooldowns (trace s2) = S (cooldowns (trace s)).
Proof.
  intros Hs Hw. destruct s. simpl in Hs, Hw. subst.
  unfold next_id, race_sleep, BatchDownload.step. flatten.
  rewrite !cooldowns_snoc. simpl. rewrite !Nat.add_0_r.
  repeat split; try lia.
  eexists. split; [reflexivity |]. flatten. rewrite !cooldowns_snoc. simpl.
  repeat split; lia.
Qed.

(** C4, amended. A failure of a download or of a metadata request that
    carries a 429, seen while the run is not cancelled, sets the flag; when
    the loop takes up the next id with the flag set it starts one 30-second
    pause, raced against the completion promise, and clears the flag when
    the pause is over; the flag is a boolean, so the 429s seen before that
    share one pause: the pauses started never outnumber the 429s seen. *)
Theorem cooldowns_follow_signals events (s : state) :
  run init events = Some s ->
  (cooldowns (trace s) + armed s <= signals events)%nat /\
  (forall id r, aborted s = None -> is_429 r = true ->
     status429 (failedHandler id r s) = true) /\
  (forall id rest,
     status429 s = true -> waitUntilDownloadComplete s = Pending ->
     pc (next_id (id :: rest) s) = AwaitCooldown id rest /\
     cooldowns (trace (next_id (id :: rest) s)) = S (cooldowns (trace s)) /\
     exists s2, step (next_id (id :: rest) s) TimerFired = Some s2 /\
       status429 s2 = false /\ pc s2 = AwaitParse id rest /\
       cooldowns (trace s2) = S (cooldowns (trace s))).
Proof.
  intros Hr. pose proof (k_run events 0 init s k_init Hr) as [[_ Hc] _].
  split; [exact Hc |]. split.
  - intros. by apply failedHandler_sets_flag.
  - intros. by apply next_id_cooldown.
Qed.

(** ** One run after the other *)

Local Abbreviation session := (BatchDownload.session (Meta := Meta)).
Local Abbreviation session_step := (BatchDownload.session_step meta_tags cfg).
Local Abbreviation session_run := (BatchDownload.session_run meta_tags cfg).
Local Abbreviation start_run := (BatchDownload.start_run cfg).
Local Abbreviation Quiet := (BatchDownload.Quiet cfg).
Local Abbreviation filtered_by_generator :=
  (BatchDownload.filtered_by_generator meta_tags cfg).
Local Abbreviation dead := (fun l : leftover => left_aborted l = true).

Lemma wake_ended (s : state) : ended (pc s) = true -> wake s = s.
Proof.
  intros H. unfold wake.
  destruct (waitUntilDownloadComplete s), (pc s); try discriminate; reflexivity.
Qed.

(** *** Accounting *)

(** A run that starts with nothing of its own in flight. *)
Lemma inv_batchDownload_fresh fnId (s : state) :
  downloading s = false -> inflight s = [] -> Inv 0 (batchDownload fnId s).2.
Proof.
  intros Hd Hin. unfold BatchDownload.batchDownload. rewrite Hd.
  destruct (getGenerator fnId); [| apply inv_catch_error].
  remember (reset (writeLog Info "Start download..." (set_downloading true s))) as R eqn:HR.
  destruct (reset_view (writeLog Info "Start download..." (set_downloading true s)))
    as [Hv Hi]. rewrite <- HR in Hv, Hi.
  assert (Hi' : inflight R = []) by (rewrite Hi; destruct s; exact Hin).
  clear HR Hi. destruct R. unfold core_view in Hv. flatten. simpl in Hi'.
  injection Hv as -> -> -> -> -> -> _ _. subst.
  cbn [snd]. unfold dispatchDownload, throwIfAborted, arrive_batch. flatten.
  unfold Inv, Core. flatten. simpl. repeat split; auto; discriminate.
Qed.

Lemma inv_removeTask n id (s : state) : Inv n s -> Inv n (removeTask id s).
Proof. destruct s. unfold removeTask, Inv, Core. flatten. auto. Qed.

(** A download left behind by a run whose signal is aborted settles. *)
Lemma inv_leftover_dead n l res (s : state) :
  left_aborted l = true -> Inv n s -> Inv n (on_leftover_settle l res s).
Proof.
  intros Hl HI. unfold on_leftover_settle. rewrite Hl.
  apply (inv_removeTask n (left_id l)) in HI.
  assert (Hcase : running (pc (removeTask (left_id l) s)) \/
                  ended (pc (removeTask (left_id l) s)) = true)
    by (destruct (pc (removeTask (left_id l) s)); simpl; auto).
  destruct Hcase as [Hrun | Hend]; [| by rewrite wake_ended].
  apply Inv_running in HI; [| exact Hrun]. destruct HI as [HC _].
  apply inv_wake; [| exact HC].
  destruct (pc (removeTask (left_id l) s)); simpl in Hrun; tauto.
Qed.

(** *** A run that failed has its signal aborted *)

Ltac e_now := unfold errored_aborted; flatten; try exact I; try discriminate; auto.

Lemma errored_aborted_view (s s' : state) :
  pc s' = pc s -> aborted s' = aborted s -> errored_aborted s -> errored_aborted s'.
Proof. unfold errored_aborted. by intros -> ->. Qed.

Lemma errored_aborted_ctl (s s' : state) :
  ctl_view s' = ctl_view s -> errored_aborted s -> errored_aborted s'.
Proof.
  intros H. apply errored_aborted_view; [exact (ctl_pc _ _ H) | exact (ctl_aborted _ _ H)].
Qed.

Lemma e_catch_error started r (s : state) : errored_aborted (catch_error started r s).
Proof.
  destruct s. unfold catch_error, controller_abort, downloadAbort, reject.
  destruct started, aborted0, hooked0, waitUntilDownloadComplete0, (is_Error r); e_now.
Qed.

Lemma e_finish (s : state) : errored_aborted (finish s).
Proof. destruct s. e_now. Qed.

Lemma e_arrive_completion (s : state) : errored_aborted (arrive_completion s).
Proof.
  unfold arrive_completion. destruct (waitUntilDownloadComplete s).
  - destruct s. e_now.
  - apply e_finish.
  - apply e_catch_error.
Qed.

Lemma e_arrive_batch (s : state) : errored_aborted (arrive_batch s).
Proof.
  unfold arrive_batch. destruct (waitUntilDownloadComplete s).
  - destruct s. e_now.
  - apply e_arrive_completion.
  - apply e_catch_error.
Qed.

Lemma e_race_sleep ms (k : state -> state) park (s : state) :
  ended park = false -> (forall s', errored_aborted (k s')) ->
  errored_aborted (race_sleep ms k park s).
Proof.
  intros Hpark Hk. unfold race_sleep.
  destruct (waitUntilDownloadComplete (emit (Sleep ms) s)).
  - destruct s, park; try discriminate; e_now.
  - apply Hk.
  - apply e_catch_error.
Qed.

Lemma e_start_parse id rest (s : state) : errored_aborted (start_parse id rest s).
Proof. destruct s. e_now. Qed.

Lemma e_after_cooldown id rest (s : state) : errored_aborted (after_cooldown id rest s).
Proof. destruct s. e_now. Qed.

Lemma e_next_id ids (s : state) : errored_aborted (next_id ids s).
Proof.
  unfold next_id. destruct ids as [| id rest]; [apply e_arrive_batch |].
  destruct (status429 s); [| apply e_start_parse].
  apply e_race_sleep; [reflexivity |]. intros s'. apply e_after_cooldown.
Qed.

Lemma e_after_threshold rest (s : state) : errored_aborted (after_threshold rest s).
Proof. apply e_next_id. Qed.

Lemma e_dispatch id rest (s : state) : errored_aborted (dispatch id rest s).
Proof.
  unfold BatchDownload.dispatch. destruct s. flatten.
  match goal with |- context [if ?c then _ else _] => destruct c end.
  - match goal with |- context [if ?c then _ else _] => destruct c end.
    + apply e_after_threshold.
    + destruct waitUntilDownloadComplete0.
      * e_now.
      * apply e_after_threshold.
      * apply e_catch_error.
  - apply e_race_sleep; [reflexivity |]. intros s'. apply e_next_id.
Qed.

Lemma e_wake (s : state) : errored_aborted s -> errored_aborted (wake s).
Proof.
  intros H. unfold wake. destruct (waitUntilDownloadComplete s); [exact H | |].
  - destruct (pc s) eqn:Hp; try exact H;
      auto using e_arrive_completion, e_next_id, e_after_cooldown, e_after_threshold,
        e_finish.
  - destruct (pc s) eqn:Hp; try exact H; apply e_catch_error.
Qed.

Lemma e_on_yield b (s : state) : errored_aborted (on_yield b s).
Proof.
  unfold on_yield, throwIfAborted. destruct (aborted s); [apply e_catch_error |].
  destruct (length (avaliable b) =? 0)%nat.
  - apply e_race_sleep; [reflexivity |]. intros s'. apply e_next_id.
  - apply e_next_id.
Qed.

Lemma e_on_parse id rest res (s : state) : errored_aborted (on_parse id rest res s).
Proof.
  unfold BatchDownload.on_parse, throwIfAborted.
  set (s1 := match res with inl _ => s | inr r => failedHandler id r s end).
  destruct (aborted s1); [apply e_catch_error |].
  destruct res; [| apply e_next_id].
  destruct (filterWhenGenerateIngPage cfg); [apply e_dispatch |].
  destruct s1. e_now.
Qed.

Lemma e_on_validity id m rest (s : state) : errored_aborted (on_validity id m rest s).
Proof.
  unfold BatchDownload.on_validity.
  destruct (checkValidity m); [apply e_dispatch | apply e_next_id].
Qed.

Lemma e_on_settle i h id res (s : state) :
  errored_aborted s -> errored_aborted (on_settle i h id res s).
Proof.
  intros H. unfold on_settle.
  set (s1 := set_inflight (delete i (inflight s)) s).
  set (s2 := match res with
             | None => handleSucccess id s1
             | Some r => failedHandler id r s1
             end).
  set (s3 := removeTask id s2).
  assert (H3 : errored_aborted s3).
  { apply errored_aborted_view with (s := s2); [by destruct s2 | by destruct s2 |].
    apply errored_aborted_ctl with (s := s1).
    - subst s2. destruct res; [apply ctl_failedHandler | apply ctl_handleSucccess].
    - apply errored_aborted_view with (s := s); [by destruct s | by destruct s | exact H]. }
  destruct (pc s3); try (by apply e_wake).
  destruct (bool_decide _); [apply e_after_threshold | by apply e_wake].
Qed.

Lemma e_abort (s : state) : errored_aborted s -> errored_aborted (abort s).
Proof.
  intros H. unfold abort. destruct (controller s); [| exact H].
  destruct (aborted s) eqn:Ha; [exact H |]. apply e_wake.
  destruct s. unfold controller_abort, downloadAbort, reject, errored_aborted.
  destruct hooked0, waitUntilDownloadComplete0; flatten;
    destruct pc0 as [| | | | | | | | | []]; try exact I; discriminate.
Qed.

Lemma e_dispatchDownload (s : state) : errored_aborted (dispatchDownload s).
Proof.
  unfold dispatchDownload, throwIfAborted.
  destruct (aborted s); [apply e_catch_error | apply e_arrive_batch].
Qed.

Lemma e_batchDownload fnId (s : state) :
  errored_aborted s -> errored_aborted (batchDownload fnId s).2.
Proof.
  intros H. unfold BatchDownload.batchDownload.
  destruct (downloading s); [exact H |].
  destruct (getGenerator fnId); [apply e_dispatchDownload | apply e_catch_error].
Qed.

Lemma e_step (s s' : state) e :
  errored_aborted s -> step s e = Some s' -> errored_aborted s'.
Proof.
  intros H Hs. unfold BatchDownload.step in Hs. destruct e.
  - destruct (pc s) eqn:Hp; try discriminate;
      try (destruct (downloading s); [| discriminate]);
      injection Hs as <-; by apply e_batchDownload.
  - injection Hs as <-. by apply e_abort.
  - destruct (pc s); try discriminate. injection Hs as <-. apply e_on_yield.
  - destruct (pc s); try discriminate. injection Hs as <-. apply e_arrive_completion.
  - destruct (pc s); try discriminate. injection Hs as <-. apply e_catch_error.
  - destruct (pc s); try discriminate; injection Hs as <-;
      auto using e_next_id, e_after_cooldown, e_arrive_batch.
  - destruct (pc s); try discriminate. injection Hs as <-. apply e_on_parse.
  - destruct (pc s); try discriminate. injection Hs as <-. apply e_on_validity.
  - destruct (list_find _ _) as [[i [h' id]] |]; [| discriminate].
    injection Hs as <-. by apply e_on_settle.
Qed.

Lemma e_leftover l res (s : state) :
  errored_aborted s -> errored_aborted (on_leftover_settle l res s).
Proof.
  intros H. unfold on_leftover_settle. apply e_wake.
  set (s1 := if left_aborted l then s else _).
  apply errored_aborted_view with (s := s1); [by destruct s1 | by destruct s1 |].
  subst s1. destruct (left_aborted l); [exact H |].
  destruct res; eapply errored_aborted_ctl; try exact H;
    [apply ctl_addFailed | apply ctl_addSuccessd].
Qed.

(** *** The session invariant *)

Lemma left_behind_dead (n : nat) (s : state) :
  ended (pc s) = true -> Inv n s -> errored_aborted s -> Forall dead (left_behind s).
Proof.
  intros He HI HE. unfold left_behind.
  unfold Inv in HI. unfold errored_aborted in HE.
  destruct (pc s) as [| | | | | | | | | [| r]]; try discriminate.
  - destruct HI as (_ & -> & _). constructor.
  - destruct HI as (_ & _ & ->). constructor.
  - destruct (aborted s); [| done]. apply Forall_forall. intros l Hl.
    apply list_elem_of_fmap in Hl as (t & -> & _). reflexivity.
Qed.

Lemma clean_left_behind (ss : session) :
  clean ss -> Forall dead (earlier ss ++ left_behind (now ss)).
Proof.
  intros [He Hi]. apply Forall_app. split; [exact He |].
  unfold left_behind. destruct (aborted (now ss)).
  - apply Forall_forall. intros l Hl.
    apply list_elem_of_fmap in Hl as (t & -> & _). reflexivity.
  - rewrite Hi by reflexivity. constructor.
Qed.

Lemma session_inv_start fnId (ss : session) :
  downloading (now ss) = false -> Forall dead (earlier ss ++ left_behind (now ss)) ->
  Inv 0 (now (start_run fnId ss)) /\ errored_aborted (now (start_run fnId ss)) /\
  Forall dead (earlier (start_run fnId ss)).
Proof.
  intros Hd Hl. unfold BatchDownload.start_run. simpl.
  split; [| split; [| exact Hl]].
  - apply inv_batchDownload_fresh; by destruct (now ss).
  - unfold BatchDownload.batchDownload.
    replace (downloading (set_inflight [] (now ss))) with false by (by destruct (now ss)).
    destruct (getGenerator fnId); [apply e_dispatchDownload | apply e_catch_error].
Qed.

Lemma session_inv_step n m (ss ss' : session) e :
  (n <= m)%nat -> Inv n (now ss) -> errored_aborted (now ss) -> Forall dead (earlier ss) ->
  session_step ss e = Some ss' ->
  (forall b, e = GenYield b -> (Z.of_nat (m + candidates b) <= total b)%Z) ->
  exists n', (n' <= m + weight e)%nat /\
    Inv n' (now ss') /\ errored_aborted (now ss') /\ Forall dead (earlier ss').
Proof.
  intros Hnm HI HE HF Hs Ht.
  assert (Hkeep : keep ss (step (now ss) e) = Some ss' ->
            exists n', (n' <= m + weight e)%nat /\
              Inv n' (now ss') /\ errored_aborted (now ss') /\ Forall dead (earlier ss')).
  { intros Hk. unfold keep in Hk.
    destruct (step (now ss) e) as [s1 |] eqn:Hs1; [| discriminate].
    injection Hk as <-. simpl. exists (n + weight e)%nat.
    split; [lia |]. split; [| split; [by eapply e_step | exact HF]].
    eapply inv_step; [exact HI | exact Hs1 |].
    intros b Hb. specialize (Ht b Hb). lia. }
  unfold BatchDownload.session_step in Hs. destruct e; try (by apply Hkeep).
  - (* a call *)
    destruct (ended (pc (now ss)) && negb (downloading (now ss))) eqn:Hc;
      [| by apply Hkeep].
    apply andb_prop in Hc as [Hend Hd]. apply negb_true_iff in Hd.
    injection Hs as <-. exists 0%nat. split; [lia |].
    apply session_inv_start; [exact Hd |].
    apply Forall_app. split; [exact HF | by eapply left_behind_dead].
  - (* a download settles *)
    destruct (list_find _ (earlier ss)) as [[i l] |] eqn:Hf; [| by apply Hkeep].
    injection Hs as <-. simpl. exists n. split; [lia |].
    apply list_find_Some in Hf as (Hl & _).
    assert (Hdead : left_aborted l = true).
    { rewrite Forall_forall in HF. apply HF. by eapply list_elem_of_lookup_2. }
    split; [by apply inv_leftover_dead |]. split; [by apply e_leftover |].
    by apply Forall_delete.
Qed.

Lemma session_inv_run events : forall n m (ss ss' : session),
  (n <= m)%nat -> Inv n (now ss) -> errored_aborted (now ss) -> Forall dead (earlier ss) ->
  totals_cover m events -> session_run ss events = Some ss' ->
  exists n', Inv n' (now ss') /\ errored_aborted (now ss') /\ Forall dead (earlier ss').
Proof.
  induction events as [| e events IH]; intros n m ss ss' Hnm HI HE HF Ht Hr; simpl in Hr.
  - injection Hr as <-. eauto.
  - destruct (session_step ss e) as [ss1 |] eqn:Hs; [| discriminate].
    destruct (session_inv_step n m ss ss1 e Hnm HI HE HF Hs) as (n1 & Hn1 & HI1 & HE1 & HF1).
    { intros b ->. simpl in Ht. tauto. }
    apply (IH n1 (m + weight e)%nat ss1 ss'); try assumption.
    destruct e; simpl in *; rewrite ?Nat.add_0_r; tauto.
Qed.

(** A run that starts while no download of an earlier run can write to the
    stores, with a discovery sequence whose totals cover the candidates. *)
Lemma session_inv_from_clean fnId events (ss0 ss : session) :
  ended (pc (now ss0)) = true -> downloading (now ss0) = false -> clean ss0 ->
  totals_cover 0 events -> session_run ss0 (Call fnId :: events) = Some ss ->
  exists n, Inv n (now ss) /\ errored_aborted (now ss) /\ Forall dead (earlier ss).
Proof.
  intros Hend Hd Hclean Ht Hr. simpl in Hr.
  unfold BatchDownload.session_step in Hr. rewrite Hend, Hd in Hr. simpl in Hr.
  destruct (session_inv_start fnId ss0 Hd (clean_left_behind ss0 Hclean))
    as (HI & HE & HF).
  by apply (session_inv_run events 0 0 (start_run fnId ss0) ss).
Qed.


(** *** Nothing selected to include *)

Lemma downloads_snoc t a :
  downloads (t ++ [a]) = downloads t ++ (if is_download a then [a] else []).
Proof. unfold downloads. rewrite List.filter_app. simpl. by destruct (is_download a). Qed.

Ltac d_now :=
  unfold dview; flatten; rewrite ?downloads_snoc; simpl; rewrite ?app_nil_r; reflexivity.

Lemma d_finish (s : state) : dview (finish s) = dview s.
Proof. destruct s. d_now. Qed.

Lemma d_catch_error started r (s : state) : dview (catch_error started r s) = dview s.
Proof.
  destruct s. unfold catch_error, controller_abort, downloadAbort, reject.
  destruct started, aborted0, hooked0, waitUntilDownloadComplete0, (is_Error r); d_now.
Qed.

Lemma d_arrive_completion (s : state) : dview (arrive_completion s) = dview s.
Proof.
  unfold arrive_completion. destruct (waitUntilDownloadComplete s).
  - destruct s. d_now.
  - apply d_finish.
  - apply d_catch_error.
Qed.

Lemma d_arrive_batch (s : state) : dview (arrive_batch s) = dview s.
Proof.
  unfold arrive_batch. destruct (waitUntilDownloadComplete s).
  - destruct s. d_now.
  - apply d_arrive_completion.
  - apply d_catch_error.
Qed.

Lemma d_emit a (s : state) : is_download a = false -> dview (emit a s) = dview s.
Proof. intros H. destruct s. unfold dview. flatten. by rewrite downloads_snoc, H, app_nil_r. Qed.

Lemma d_race_sleep ms (k : state -> state) park (s : state) :
  (forall s', dview (k s') = dview s') -> dview (race_sleep ms k park s) = dview s.
Proof.
  intros Hk. unfold race_sleep. rewrite <- (d_emit (Sleep ms) s) by reflexivity.
  destruct (waitUntilDownloadComplete (emit (Sleep ms) s)).
  - by destruct (emit (Sleep ms) s).
  - apply Hk.
  - apply d_catch_error.
Qed.

Lemma d_start_parse id rest (s : state) : dview (start_parse id rest s) = dview s.
Proof. destruct s. d_now. Qed.

Lemma d_after_cooldown id rest (s : state) : dview (after_cooldown id rest s) = dview s.
Proof. destruct s. d_now. Qed.

Lemma d_next_id ids (s : state) : dview (next_id ids s) = dview s.
Proof.
  unfold next_id. destruct ids as [| id rest]; [apply d_arrive_batch |].
  destruct (status429 s); [| apply d_start_parse].
  rewrite d_race_sleep; [destruct s; d_now |]. intros s'. apply d_after_cooldown.
Qed.

Lemma d_after_threshold rest (s : state) :
  dview (after_threshold rest s) = (dispatched s, inflight s, downloads (trace s)).
Proof. unfold after_threshold. rewrite d_next_id. by destruct s. Qed.

Lemma d_wake (s : state) : dview (wake s) = dview s.
Proof.
  unfold wake. destruct (waitUntilDownloadComplete s); [reflexivity | |].
  - destruct (pc s); try reflexivity;
      auto using d_arrive_completion, d_next_id, d_after_cooldown, d_after_threshold,
        d_finish.
  - destruct (pc s); try reflexivity; apply d_catch_error.
Qed.

Ltac d_store s := destruct s; rewrite ?notify_eq; d_now.

Lemma d_setArtworkCount t (s : state) : dview (setArtworkCount t s) = dview s.
Proof. unfold setArtworkCount. d_store s. Qed.

Lemma d_addExcluded id (s : state) : dview (addExcluded id s) = dview s.
Proof. unfold addExcluded. d_store s. Qed.

Lemma d_addExcluded_array ids (s : state) : dview (addExcluded_array ids s) = dview s.
Proof. unfold addExcluded_array. d_store s. Qed.

Lemma d_addFailed item (s : state) : dview (addFailed item s) = dview s.
Proof. unfold addFailed. destruct item as [? []]; d_store s. Qed.

Lemma d_addFailed_array items (s : state) : dview (addFailed_array items s) = dview s.
Proof. unfold addFailed_array. destruct (last items) as [[? []] |]; d_store s. Qed.

Lemma d_failedHandler id r (s : state) : dview (failedHandler id r s) = dview s.
Proof.
  unfold failedHandler. destruct (aborted s); [reflexivity |].
  rewrite <- (d_addFailed {| failed_id := id; failed_reason := r |} s).
  destruct (is_429 r); [| reflexivity]. by destruct (addFailed _ s).
Qed.

Lemma d_on_yield b (s : state) : dview (on_yield b s) = dview s.
Proof.
  unfold on_yield, throwIfAborted. destruct (aborted s); [apply d_catch_error |].
  set (s1 := setArtworkCount (total b) s).
  set (s2 := if (length (invalid b) =? 0)%nat then s1 else addExcluded_array (invalid b) s1).
  set (s3 := if (length (unavaliable b) =? 0)%nat then s2 else addFailed_array _ s2).
  assert (H3 : dview s3 = dview s).
  { transitivity (dview s2).
    { subst s3. destruct (length (unavaliable b) =? 0)%nat;
        [reflexivity | apply d_addFailed_array]. }
    transitivity (dview s1).
    { subst s2. destruct (length (invalid b) =? 0)%nat;
        [reflexivity | apply d_addExcluded_array]. }
    apply d_setArtworkCount. }
  rewrite <- H3. destruct (length (avaliable b) =? 0)%nat.
  - apply d_race_sleep. intros s'. apply d_next_id.
  - apply d_next_id.
Qed.

Lemma d_on_parse id rest res (s : state) :
  filterWhenGenerateIngPage cfg = false \/ (exists r, res = inr r) ->
  dview (on_parse id rest res s) = dview s.
Proof.
  intros Hmode. unfold BatchDownload.on_parse, throwIfAborted.
  set (s1 := match res with inl _ => s | inr r => failedHandler id r s end).
  assert (H1 : dview s1 = dview s)
    by (subst s1; destruct res; [reflexivity | apply d_failedHandler]).
  rewrite <- H1. destruct (aborted s1); [apply d_catch_error |].
  destruct res as [m | r]; [| apply d_next_id].
  destruct Hmode as [-> | [r Hr]]; [by destruct s1 | discriminate].
Qed.

Lemma d_on_validity id m rest (s : state) :
  checkValidity m = false -> dview (on_validity id m rest s) = dview s.
Proof.
  intros Hv. unfold BatchDownload.on_validity. rewrite Hv.
  rewrite d_next_id. apply d_addExcluded.
Qed.

Lemma d_controller_abort r (s : state) : dview (controller_abort r s) = dview s.
Proof.
  destruct s. unfold controller_abort, downloadAbort, reject.
  destruct hooked0, waitUntilDownloadComplete0; d_now.
Qed.

Lemma d_abort (s : state) : dview (abort s) = dview s.
Proof.
  unfold abort. destruct (controller s); [| reflexivity].
  destruct (aborted s); [reflexivity |]. rewrite d_wake. apply d_controller_abort.
Qed.

Lemma d_reset (s : state) : dview (reset s) = dview s.
Proof. destruct s. unfold reset. rewrite !notify_eq. d_now. Qed.

Lemma d_dispatchDownload (s : state) : dview (dispatchDownload s) = dview s.
Proof.
  unfold dispatchDownload, throwIfAborted. destruct (aborted s); [apply d_catch_error |].
  rewrite d_arrive_batch. by destruct s.
Qed.

Lemma d_batchDownload fnId (s : state) : dview (batchDownload fnId s).2 = dview s.
Proof.
  unfold BatchDownload.batchDownload. destruct (downloading s); [reflexivity |].
  set (s1 := set_aborted None _).
  assert (H1 : dview s1 = dview s).
  { subst s1.
    transitivity (dview (reset (writeLog Info "Start download..." (set_downloading true s)))).
    - by destruct (reset _).
    - rewrite d_reset. destruct s. d_now. }
  rewrite <- H1.
  destruct (getGenerator fnId); [apply d_dispatchDownload | apply d_catch_error].
Qed.

(** Where the loop stands when it has no id in hand. *)
Lemma b_catch_error started r (s : state) : between_batches (pc (catch_error started r s)).
Proof.
  destruct s. unfold catch_error, controller_abort, downloadAbort, reject.
  destruct started, aborted0, hooked0, waitUntilDownloadComplete0, (is_Error r);
    flatten; exact I.
Qed.

Lemma b_finish (s : state) : between_batches (pc (finish s)).
Proof. destruct s. flatten. exact I. Qed.

Lemma b_arrive_completion (s : state) : between_batches (pc (arrive_completion s)).
Proof.
  unfold arrive_completion. destruct (waitUntilDownloadComplete s).
  - destruct s. flatten. exact I.
  - apply b_finish.
  - apply b_catch_error.
Qed.

Lemma b_arrive_batch (s : state) : between_batches (pc (arrive_batch s)).
Proof.
  unfold arrive_batch. destruct (waitUntilDownloadComplete s).
  - destruct s. flatten. exact I.
  - apply b_arrive_completion.
  - apply b_catch_error.
Qed.

Lemma b_politeness (s : state) :
  between_batches (pc (race_sleep 1500 (next_id []) AwaitPoliteness s)).
Proof.
  unfold race_sleep. destruct (waitUntilDownloadComplete (emit (Sleep 1500) s)).
  - destruct s. flatten. exact I.
  - apply b_arrive_batch.
  - apply b_catch_error.
Qed.

Lemma b_wake (s : state) : between_batches (pc s) -> between_batches (pc (wake s)).
Proof.
  intros H. unfold wake. destruct (waitUntilDownloadComplete s); [exact H | |].
  - destruct (pc s) eqn:Hp; try contradiction;
      first [apply b_arrive_completion | apply b_arrive_batch | apply b_finish
            | rewrite Hp; exact I].
  - destruct (pc s) eqn:Hp; try contradiction;
      first [apply b_catch_error | rewrite Hp; exact I].
Qed.

Lemma b_on_yield b (s : state) :
  avaliable b = [] -> between_batches (pc (on_yield b s)).
Proof.
  intros Hb. unfold on_yield, throwIfAborted. rewrite Hb. simpl.
  destruct (aborted s); [apply b_catch_error | apply b_politeness].
Qed.

Lemma b_abort (s : state) : between_batches (pc s) -> between_batches (pc (abort s)).
Proof.
  intros H. unfold abort. destruct (controller s); [| exact H].
  destruct (aborted s); [exact H |]. apply b_wake.
  destruct s. unfold controller_abort, downloadAbort, reject.
  destruct hooked0, waitUntilDownloadComplete0; exact H.
Qed.

Lemma b_batchDownload fnId (s : state) :
  between_batches (pc s) -> between_batches (pc (batchDownload fnId s).2).
Proof.
  intros H. unfold BatchDownload.batchDownload. destruct (downloading s); [exact H |].
  destruct (getGenerator fnId); [| apply b_catch_error].
  unfold dispatchDownload, throwIfAborted.
  match goal with |- context [aborted ?x] => destruct (aborted x) end;
    [apply b_catch_error | apply b_arrive_batch].
Qed.

Lemma no_include_selected_invalid (m : Meta) :
  no_include_selected -> checkValidity m = false.
Proof.
  intros H. unfold BatchDownload.checkValidity, checkValidity_with.
  fold includeFilters. rewrite (no_include_selected_nil H). simpl.
  by destruct (_ && _).
Qed.

Lemma quiet_step (s s' : state) e :
  no_include_selected ->
  (forall b, e = GenYield b -> filterWhenGenerateIngPage cfg = true -> avaliable b = []) ->
  dview s = (0%nat, [], []) ->
  (filterWhenGenerateIngPage cfg = true -> between_batches (pc s)) ->
  step s e = Some s' ->
  dview s' = (0%nat, [], []) /\
  (filterWhenGenerateIngPage cfg = true -> between_batches (pc s')).
Proof.
  intros Hn Hb Hd Hq Hs. unfold BatchDownload.step in Hs. destruct e.
  - assert (s' = (batchDownload fnId s).2) as ->.
    { destruct (pc s); try discriminate;
        try (destruct (downloading s); [| discriminate]); by injection Hs as <-. }
    split; [by rewrite d_batchDownload |]. intros Hm. by apply b_batchDownload, Hq.
  - injection Hs as <-. split; [by rewrite d_abort |]. intros Hm. by apply b_abort, Hq.
  - destruct (pc s); try discriminate. injection Hs as <-.
    split; [by rewrite d_on_yield |]. intros Hm. apply b_on_yield. by apply Hb.
  - destruct (pc s); try discriminate. injection Hs as <-.
    split; [by rewrite d_arrive_completion |]. intros _. apply b_arrive_completion.
  - destruct (pc s); try discriminate. injection Hs as <-.
    split; [by rewrite d_catch_error |]. intros _. apply b_catch_error.
  - destruct (pc s) eqn:Hp; try discriminate; injection Hs as <-.
    + split; [by rewrite d_arrive_batch |]. intros _. apply b_arrive_batch.
    + split; [by rewrite d_after_cooldown |]. intros Hm. destruct (Hq Hm).
    + split; [by rewrite d_next_id |]. intros Hm. destruct (Hq Hm).
  - destruct (pc s) eqn:Hp; try discriminate. injection Hs as <-.
    destruct (filterWhenGenerateIngPage cfg) eqn:Hm; [destruct (Hq eq_refl) |].
    split; [| discriminate]. rewrite d_on_parse by (by left). exact Hd.
  - destruct (pc s) eqn:Hp; try discriminate. injection Hs as <-.
    split; [| intros Hm; destruct (Hq Hm)].
    rewrite d_on_validity by (by apply no_include_selected_invalid). exact Hd.
  - injection Hd as _ Hi _. rewrite Hi in Hs. discriminate.
Qed.

Lemma quiet_session_step (ss ss' : session) e :
  no_include_selected ->
  (forall b, e = GenYield b -> filterWhenGenerateIngPage cfg = true -> avaliable b = []) ->
  Quiet ss -> session_step ss e = Some ss' -> Quiet ss'.
Proof.
  intros Hn Hb (Hd & He & Hq) Hs.
  assert (Hkeep : keep ss (step (now ss) e) = Some ss' -> Quiet ss').
  { unfold keep. destruct (step (now ss) e) as [s1 |] eqn:Hs1; [| discriminate].
    intros [= <-]. destruct (quiet_step _ _ _ Hn Hb Hd Hq Hs1) as [Hd1 Hq1].
    by split; [| split]. }
  unfold BatchDownload.session_step in Hs. destruct e; try (by apply Hkeep).
  - destruct (ended (pc (now ss)) && negb (downloading (now ss))); [| by apply Hkeep].
    injection Hs as <-. unfold BatchDownload.Quiet, BatchDownload.start_run. simpl.
    injection Hd as Hdis Hin Hdl.
    split; [| split].
    + rewrite d_batchDownload. destruct (now ss). unfold dview in *. flatten.
      simpl in *. by rewrite Hdis, Hdl.
    + unfold left_behind. by rewrite He, Hin.
    + intros Hm. apply b_batchDownload. specialize (Hq Hm). by destruct (now ss).
  - rewrite He in Hs. simpl in Hs. by apply Hkeep.
Qed.

Lemma filtered_nothing (events : list event) :
  no_include_selected -> filtered_by_generator events ->
  forall b, GenYield b ∈ events -> avaliable b = [].
Proof.
  intros Hn Hf b Hb. destruct (avaliable b) as [| id ids] eqn:Ha; [reflexivity |].
  destruct (Hf b id Hb) as [m Hm]; [rewrite Ha; left |].
  by rewrite no_include_selected_invalid in Hm.
Qed.

Lemma quiet_session_run events : forall (ss ss' : session),
  no_include_selected ->
  (filterWhenGenerateIngPage cfg = true ->
   forall b, GenYield b ∈ events -> avaliable b = []) ->
  Quiet ss -> session_run ss events = Some ss' -> Quiet ss'.
Proof.
  induction events as [| e events IH]; intros ss ss' Hn Hb HQ Hr; simpl in Hr.
  - by injection Hr as <-.
  - destruct (session_step ss e) as [ss1 |] eqn:Hs; [| discriminate].
    apply (IH ss1 ss' Hn); [| | exact Hr].
    + intros Hm b Hin. apply (Hb Hm). by right.
    + apply (quiet_session_step ss ss1 e Hn); [| exact HQ | exact Hs].
      intros b -> Hm. apply (Hb Hm). left.
Qed.


(** ** What a cancelled run leaves alone *)

Lemma frozen_trans (s1 s2 s3 : state) : frozen s1 s2 -> frozen s2 s3 -> frozen s1 s3.
Proof.
  unfold frozen. intros (H1 & H2 & H3 & H4 & H5) (H6 & H7 & H8 & H9 & H10).
  repeat split; try congruence; auto.
Qed.

Lemma frozen_refl (s : state) : frozen s s.
Proof. unfold frozen. repeat split; auto. Qed.

Ltac frozen_now :=
  unfold frozen; flatten; repeat split; auto; try (intros; discriminate); try congruence.

Lemma frozen_finish (s : state) : frozen s (finish s).
Proof. destruct s. frozen_now. Qed.

Lemma frozen_catch_error started r (s : state) : frozen s (catch_error started r s).
Proof.
  destruct s. unfold catch_error, controller_abort, downloadAbort, reject.
  destruct started, aborted0, hooked0, waitUntilDownloadComplete0, (is_Error r);
    frozen_now.
Qed.

Lemma frozen_arrive_completion (s : state) : frozen s (arrive_completion s).
Proof.
  unfold arrive_completion. destruct (waitUntilDownloadComplete s) eqn:Hw.
  - destruct s. frozen_now.
  - apply frozen_finish.
  - apply frozen_catch_error.
Qed.

Lemma frozen_arrive_batch (s : state) : frozen s (arrive_batch s).
Proof.
  unfold arrive_batch. destruct (waitUntilDownloadComplete s) eqn:Hw.
  - destruct s. frozen_now.
  - apply frozen_arrive_completion.
  - apply frozen_catch_error.
Qed.

Lemma frozen_next_id ids (s : state) : frozen s (next_id ids s).
Proof.
  unfold next_id. destruct ids as [| id rest]; [apply frozen_arrive_batch |].
  destruct (status429 s); [| destruct s; frozen_now].
  unfold race_sleep. destruct s. flatten. destruct waitUntilDownloadComplete0.
  - frozen_now.
  - frozen_now.
  - eapply frozen_trans; [| apply frozen_catch_error]. frozen_now.
Qed.

Lemma frozen_after_threshold rest (s : state) : frozen s (after_threshold rest s).
Proof.
  unfold after_threshold. eapply frozen_trans; [| apply frozen_next_id].
  destruct s. frozen_now.
Qed.

Lemma frozen_race_sleep ms ids park (s : state) :
  park <> Idle -> frozen s (race_sleep ms (next_id ids) park s).
Proof.
  intros Hpark. unfold race_sleep. destruct s. flatten.
  destruct waitUntilDownloadComplete0.
  - frozen_now.
  - eapply frozen_trans; [| apply frozen_next_id]. frozen_now.
  - eapply frozen_trans; [| apply frozen_catch_error]. frozen_now.
Qed.

Lemma frozen_dispatch id rest (s : state) : frozen s (dispatch id rest s).
Proof.
  unfold BatchDownload.dispatch. destruct s. flatten.
  match goal with |- context [if ?c then _ else _] => destruct c end.
  - match goal with |- context [if ?c then _ else _] => destruct c end.
    + eapply frozen_trans; [| apply frozen_after_threshold]. frozen_now.
    + destruct waitUntilDownloadComplete0.
      * frozen_now.
      * eapply frozen_trans; [| apply frozen_after_threshold]. frozen_now.
      * eapply frozen_trans; [| apply frozen_catch_error]. frozen_now.
  - eapply frozen_trans; [| apply frozen_race_sleep; discriminate]. frozen_now.
Qed.

Lemma frozen_wake (s : state) : frozen s (wake s).
Proof.
  unfold wake. destruct (waitUntilDownloadComplete s) eqn:Hw.
  - apply frozen_refl.
  - destruct (pc s); try apply frozen_refl;
      auto using frozen_arrive_completion, frozen_next_id, frozen_after_threshold,
        frozen_finish.
    destruct s. frozen_now.
  - destruct (pc s); try apply frozen_refl; apply frozen_catch_error.
Qed.

Lemma frozen_addExcluded id (s : state) : frozen s (addExcluded id s).
Proof. destruct s. unfold addExcluded. rewrite notify_eq. frozen_now. Qed.

Lemma frozen_removeTask id (s : state) : frozen s (removeTask id s).
Proof. destruct s. frozen_now. Qed.

Lemma frozen_on_settle i h id res (s : state) :
  aborted s <> None -> frozen s (on_settle i h id res s).
Proof.
  intros Ha. unfold on_settle.
  assert (H1 : aborted (set_inflight (delete i (inflight s)) s) = aborted s)
    by (by destruct s).
  destruct (aborted s) as [r0 |] eqn:Has; [| done].
  unfold handleSucccess, failedHandler. rewrite H1.
  assert (H2 : frozen s (removeTask id (set_inflight (delete i (inflight s)) s))).
  { destruct s. simpl in Has. frozen_now. }
  replace (match res with
           | Some _ => set_inflight (delete i (inflight s)) s
           | None => set_inflight (delete i (inflight s)) s
           end) with (set_inflight (delete i (inflight s)) s) by (by destruct res).
  eapply frozen_trans; [exact H2 |].
  destruct (pc _); try apply frozen_wake.
  destruct (bool_decide _); [apply frozen_after_threshold | apply frozen_wake].
Qed.

Lemma frozen_step (s s' : state) e :
  aborted s <> None -> pc s <> Idle -> step s e = Some s' -> frozen s s'.
Proof.
  intros Ha Hp Hs. unfold BatchDownload.step in Hs. destruct e.
  - destruct (pc s) eqn:Hpc; try discriminate; try done;
      (destruct (downloading s) eqn:Hd; [| discriminate]);
      rewrite (batchDownload_busy _ _ Hd) in Hs; simplify_eq; apply frozen_refl.
  - injection Hs as <-. unfold abort. destruct (controller s); [| apply frozen_refl].
    destruct (aborted s); [apply frozen_refl | done].
  - destruct (pc s); try discriminate. injection Hs as <-.
    unfold on_yield, throwIfAborted. destruct (aborted s); [| done].
    apply frozen_catch_error.
  - destruct (pc s); try discriminate. injection Hs as <-. apply frozen_arrive_completion.
  - destruct (pc s); try discriminate. injection Hs as <-. apply frozen_catch_error.
  - destruct (pc s) eqn:Hpc; try discriminate; injection Hs as <-.
    + apply frozen_arrive_batch.
    + destruct s. frozen_now.
    + apply frozen_next_id.
  - destruct (pc s); try discriminate. injection Hs as <-.
    unfold BatchDownload.on_parse, throwIfAborted, failedHandler.
    destruct (aborted s) eqn:Has; [| done].
    destruct res; rewrite ?Has; apply frozen_catch_error.
  - destruct (pc s); try discriminate. injection Hs as <-.
    unfold BatchDownload.on_validity. destruct (checkValidity _).
    + apply frozen_dispatch.
    + eapply frozen_trans; [apply frozen_addExcluded | apply frozen_next_id].
  - destruct (list_find _ _) as [[i [h' id]] |]; [| discriminate].
    injection Hs as <-. by apply frozen_on_settle.
Qed.

Lemma frozen_run events : forall (s s' : state),
  aborted s <> None -> pc s <> Idle -> run s events = Some s' -> frozen s s'.
Proof.
  induction events as [| e events IH]; intros s s' Ha Hp Hr; simpl in Hr.
  - injection Hr as <-. apply frozen_refl.
  - destruct (step s e) as [s1 |] eqn:Hs; [| discriminate].
    pose proof (frozen_step s s1 e Ha Hp Hs) as H1.
    eapply frozen_trans; [exact H1 |].
    destruct H1 as (_ & _ & _ & H4 & H5). apply IH; auto.
Qed.

(** ** The life cycle *)

Lemma abort_calls_snoc t a :
  abort_calls (t ++ [a]) = (abort_calls t + (if is_abort_call a then 1 else 0))%nat.
Proof.
  unfold abort_calls. rewrite List.filter_app, length_app. simpl.
  by destruct (is_abort_call a).
Qed.

Ltac life_crush :=
  unfold Life, Live, signalled, life_view in *; flatten;
  rewrite ?abort_calls_snoc in *; simpl in *;
  repeat match goal with
         | H : _ /\ _ |- _ => destruct H
         end;
  subst; simpl in *;
  repeat match goal with
         | H : context [match ?x with _ => _ end] |- _ => is_var x; destruct x
         | |- context [match ?x with _ => _ end] => is_var x; destruct x
         end;
  simpl in *; repeat split; try congruence; try lia.

Lemma Live_view (s s' : state) : life_view s' = life_view s -> Live s -> Live s'.
Proof. unfold life_view, Live, signalled. intros [= _ -> -> -> -> ->]. auto. Qed.

Lemma Life_view (s s' : state) : life_view s' = life_view s -> Life s -> Life s'.
Proof. unfold life_view, Life, Live, signalled. intros [= -> -> -> -> -> ->]. auto. Qed.

Lemma Life_live (s : state) : running (pc s) -> Life s -> Live s.
Proof. unfold Life. destruct (pc s); simpl; tauto. Qed.

Lemma life_catch_error r (s : state) : Live s -> Life (catch_error true r s).
Proof.
  intros H. destruct s. unfold catch_error, controller_abort, downloadAbort, reject.
  destruct aborted0, hooked0, waitUntilDownloadComplete0, (is_Error r); life_crush.
Qed.

Lemma life_finish (s : state) : Live s -> Life (finish s).
Proof. intros H. destruct s. life_crush. Qed.

Lemma life_arrive_completion (s : state) : Live s -> Life (arrive_completion s).
Proof.
  intros H. unfold arrive_completion. destruct (waitUntilDownloadComplete s) eqn:Hw.
  - destruct s. life_crush.
  - by apply life_finish.
  - by apply life_catch_error.
Qed.

Lemma life_arrive_batch (s : state) : Live s -> Life (arrive_batch s).
Proof.
  intros H. unfold arrive_batch. destruct (waitUntilDownloadComplete s) eqn:Hw.
  - destruct s. life_crush.
  - by apply life_arrive_completion.
  - by apply life_catch_error.
Qed.

Lemma life_next_id ids (s : state) : Live s -> Life (next_id ids s).
Proof.
  intros H. unfold next_id. destruct ids as [| id rest]; [by apply life_arrive_batch |].
  destruct (status429 s); [| destruct s; life_crush].
  unfold race_sleep. destruct s. flatten. destruct waitUntilDownloadComplete0.
  - life_crush.
  - life_crush.
  - apply life_catch_error. life_crush.
Qed.

Lemma life_after_threshold rest (s : state) : Live s -> Life (after_threshold rest s).
Proof. intros H. unfold after_threshold. apply life_next_id. destruct s. life_crush. Qed.

Lemma life_race_sleep ms ids park (s : state) :
  match park with AwaitPoliteness | AwaitDelay _ => True | _ => False end ->
  Live s -> Life (race_sleep ms (next_id ids) park s).
Proof.
  intros Hpark H. unfold race_sleep. destruct s. flatten.
  destruct waitUntilDownloadComplete0.
  - destruct park; try contradiction; life_crush.
  - apply life_next_id. life_crush.
  - apply life_catch_error. life_crush.
Qed.

Lemma life_dispatch id rest (s : state) : Live s -> Life (dispatch id rest s).
Proof.
  intros H. unfold BatchDownload.dispatch. destruct s. flatten.
  match goal with |- context [if ?c then _ else _] => destruct c end.
  - match goal with |- context [if ?c then _ else _] => destruct c end.
    + apply life_after_threshold. life_crush.
    + destruct waitUntilDownloadComplete0.
      * life_crush.
      * apply life_after_threshold. life_crush.
      * apply life_catch_error. life_crush.
  - apply life_race_sleep; [exact I |]. life_crush.
Qed.

Lemma life_wake (s : state) : Life s -> Life (wake s).
Proof.
  intros H. unfold wake. destruct (waitUntilDownloadComplete s) eqn:Hw; [exact H | |].
  - destruct (pc s) eqn:Hp; try exact H;
      assert (HL : Live s) by (apply Life_live; [by rewrite Hp | exact H]).
    + by apply life_arrive_completion.
    + by apply life_next_id.
    + destruct s. simpl in Hp. life_crush.
    + by apply life_after_threshold.
    + by apply life_next_id.
    + by apply life_finish.
  - destruct (pc s) eqn:Hp; try exact H;
      apply life_catch_error; apply Life_live; (by rewrite Hp) || exact H.
Qed.

Ltac lview_crush s :=
  destruct s; rewrite ?notify_eq; unfold life_view; flatten;
  rewrite ?abort_calls_snoc; simpl; rewrite ?Nat.add_0_r; reflexivity.

Lemma lview_setArtworkCount t (s : state) : life_view (setArtworkCount t s) = life_view s.
Proof. unfold setArtworkCount. lview_crush s. Qed.

Lemma lview_addSuccessd id (s : state) : life_view (addSuccessd id s) = life_view s.
Proof. unfold addSuccessd. lview_crush s. Qed.

Lemma lview_addExcluded id (s : state) : life_view (addExcluded id s) = life_view s.
Proof. unfold addExcluded. lview_crush s. Qed.

Lemma lview_addExcluded_array ids (s : state) :
  life_view (addExcluded_array ids s) = life_view s.
Proof. unfold addExcluded_array. lview_crush s. Qed.

Lemma lview_addFailed item (s : state) : life_view (addFailed item s) = life_view s.
Proof. unfold addFailed. destruct item as [? []]; lview_crush s. Qed.

Lemma lview_addFailed_array items (s : state) :
  life_view (addFailed_array items s) = life_view s.
Proof. unfold addFailed_array. destruct (last items) as [[? []] |]; lview_crush s. Qed.

Lemma lview_handleSucccess id (s : state) : life_view (handleSucccess id s) = life_view s.
Proof.
  unfold handleSucccess. destruct (aborted s); [reflexivity | apply lview_addSuccessd].
Qed.

Lemma lview_failedHandler id r (s : state) : life_view (failedHandler id r s) = life_view s.
Proof.
  unfold failedHandler. destruct (aborted s); [reflexivity |].
  destruct (is_429 r); [| apply lview_addFailed].
  rewrite <- (lview_addFailed {| failed_id := id; failed_reason := r |} s).
  destruct (addFailed _ s). reflexivity.
Qed.

Lemma life_on_settle i h id res (s : state) : Life s -> Life (on_settle i h id res s).
Proof.
  intros H. unfold on_settle.
  set (s1 := set_inflight (delete i (inflight s)) s).
  set (s2 := match res with
             | None => handleSucccess id s1
             | Some r => failedHandler id r s1
             end).
  set (s3 := removeTask id s2).
  assert (H3 : Life s3).
  { apply Life_view with (s := s2); [by destruct s2 |].
    assert (H1 : Life s1) by (apply Life_view with (s := s); [by destruct s | exact H]).
    apply Life_view with (s := s1); [| exact H1].
    subst s2. destruct res; [apply lview_failedHandler | apply lview_handleSucccess]. }
  destruct (pc s3) eqn:Hp; try by apply life_wake.
  destruct (bool_decide _); [| by apply life_wake].
  apply life_after_threshold. apply Life_live; [by rewrite Hp | exact H3].
Qed.

Lemma life_on_yield b (s : state) : pc s = AwaitBatch -> Life s -> Life (on_yield b s).
Proof.
  intros Hp H. assert (HL : Live s) by (apply Life_live; [by rewrite Hp | exact H]).
  unfold on_yield, throwIfAborted.
  destruct (aborted s); [by apply life_catch_error |].
  set (s1 := setArtworkCount (total b) s).
  set (s2 := if (length (invalid b) =? 0)%nat then s1 else addExcluded_array (invalid b) s1).
  set (s3 := if (length (unavaliable b) =? 0)%nat then s2 else addFailed_array _ s2).
  assert (H3 : Live s3).
  { apply Live_view with (s := s); [| exact HL].
    transitivity (life_view s2).
    - subst s3. destruct (length (unavaliable b) =? 0)%nat;
        [reflexivity | apply lview_addFailed_array].
    - transitivity (life_view s1); [| apply lview_setArtworkCount].
      subst s2. destruct (length (invalid b) =? 0)%nat;
        [reflexivity | apply lview_addExcluded_array]. }
  destruct (length (avaliable b) =? 0)%nat.
  - by apply life_race_sleep.
  - by apply life_next_id.
Qed.

Lemma life_on_parse id rest res (s : state) :
  pc s = AwaitParse id rest -> Life s -> Life (on_parse id rest res s).
Proof.
  intros Hp H. assert (HL : Live s) by (apply Life_live; [by rewrite Hp | exact H]).
  unfold BatchDownload.on_parse, throwIfAborted. destruct res as [a | r]; simpl.
  - destruct (aborted s); [by apply life_catch_error |].
    destruct (filterWhenGenerateIngPage cfg); [by apply life_dispatch |].
    destruct s. simpl in Hp. life_crush.
  - assert (HL' : Live (failedHandler id r s))
      by (apply Live_view with (s := s); [apply lview_failedHandler | exact HL]).
    destruct (aborted _); [by apply life_catch_error |].
    by apply life_next_id.
Qed.

Lemma life_on_validity id a rest (s : state) :
  pc s = AwaitValidity id a rest -> Life s -> Life (on_validity id a rest s).
Proof.
  intros Hp H. assert (HL : Live s) by (apply Life_live; [by rewrite Hp | exact H]).
  unfold BatchDownload.on_validity. destruct (checkValidity a); [by apply life_dispatch |].
  apply life_next_id. by apply Live_view with (s := s); [apply lview_addExcluded |].
Qed.

Lemma life_controller_abort r (s : state) :
  Life s -> controller s = true -> aborted s = None -> Life (controller_abort r s).
Proof.
  intros H Hc Ha. destruct s. simpl in Hc, Ha. subst.
  unfold controller_abort, downloadAbort, reject.
  destruct pc0 as [| | | | | | | | | []], hooked0, waitUntilDownloadComplete0; life_crush.
Qed.

Lemma life_abort (s : state) : Life s -> Life (abort s).
Proof.
  intros H. unfold abort. destruct (controller s) eqn:Hc; [| exact H].
  destruct (aborted s) eqn:Ha; [exact H |].
  apply life_wake. by apply life_controller_abort.
Qed.

Lemma reset_life_view (s : state) :
  life_view (reset s) =
  (pc s, downloading s, false, aborted s, false, abort_calls (trace s)).
Proof.
  destruct s. unfold reset. rewrite !notify_eq. unfold life_view. flatten.
  rewrite ?abort_calls_snoc. simpl. by rewrite ?Nat.add_0_r.
Qed.

Lemma life_batchDownload fnId (s : state) :
  pc s = Idle -> Life s -> Life (batchDownload fnId s).2.
Proof.
  intros Hp H. unfold BatchDownload.batchDownload.
  destruct (downloading s) eqn:Hd; [exact H |].
  remember (reset (writeLog Info "Start download..." (set_downloading true s))) as R eqn:HR.
  assert (HR' : life_view R = (Idle, true, false, aborted s, false, abort_calls (trace s))).
  { rewrite HR, reset_life_view. destruct s. simpl in Hp. subst. flatten.
    rewrite abort_calls_snoc. simpl. by rewrite Nat.add_0_r. }
  clear HR. unfold Life in H. rewrite Hp in H. destruct H as (_ & _ & Ha & Hn).
  rewrite Ha, Hn in HR'.
  destruct (getGenerator fnId); cbn [snd].
  - unfold dispatchDownload, throwIfAborted. destruct R. unfold life_view in HR'. flatten.
    injection HR' as -> -> -> -> -> Hn'.
    apply life_arrive_batch. life_crush.
  - destruct R. unfold life_view in HR'. flatten.
    injection HR' as -> -> -> -> -> Hn'.
    unfold catch_error, controller_abort, downloadAbort, reject.
    destruct (is_Error error); life_crush.
Qed.

Lemma life_step (s s' : state) e : Life s -> step s e = Some s' -> Life s'.
Proof.
  intros H Hs. unfold BatchDownload.step in Hs. destruct e.
  - destruct (pc s) eqn:Hp; try discriminate;
      try (destruct (downloading s) eqn:Hd; [| discriminate];
           rewrite (batchDownload_busy _ _ Hd) in Hs; by simplify_eq).
    injection Hs as <-. by apply life_batchDownload.
  - injection Hs as <-. by apply life_abort.
  - destruct (pc s) eqn:Hp; try discriminate. injection Hs as <-. by apply life_on_yield.
  - destruct (pc s) eqn:Hp; try discriminate. injection Hs as <-.
    apply life_arrive_completion. apply Life_live; [by rewrite Hp | exact H].
  - destruct (pc s) eqn:Hp; try discriminate. injection Hs as <-.
    apply life_catch_error. apply Life_live; [by rewrite Hp | exact H].
  - destruct (pc s) eqn:Hp; try discriminate; injection Hs as <-.
    + apply life_arrive_batch. apply Life_live; [by rewrite Hp | exact H].
    + destruct s. simpl in Hp. subst. life_crush.
    + apply life_next_id. apply Life_live; [by rewrite Hp | exact H].
  - destruct (pc s) eqn:Hp; try discriminate. injection Hs as <-. by apply life_on_parse.
  - destruct (pc s) eqn:Hp; try discriminate. injection Hs as <-. by apply life_on_validity.
  - destruct (list_find _ _) as [[i [h' id]] |]; [| discriminate].
    injection Hs as <-. by apply life_on_settle.
Qed.

Lemma life_run events : forall (s s' : state),
  Life s -> run s events = Some s' -> Life s'.
Proof.
  induction events as [| e events IH]; intros s s' H Hr; simpl in Hr.
  - by injection Hr as <-.
  - destruct (step s e) as [s1 |] eqn:Hs; [| discriminate].
    apply (IH s1); [| exact Hr]. by apply (life_step s s1 e).
Qed.

Lemma life_init : Life (init : state).
Proof. unfold Life. simpl. auto. Qed.

(** ** What the store helpers and the loop do to the results *)

Lemma results_setArtworkCount t (s : state) :
  results (setArtworkCount t s) = (Some t, successd s, failed s, excluded s).
Proof. destruct s. unfold setArtworkCount. by rewrite notify_eq. Qed.

Lemma results_addExcluded id (s : state) :
  results (addExcluded id s) = (artworkCount s, successd s, failed s, excluded s ++ [id]).
Proof. destruct s. unfold addExcluded. by rewrite notify_eq. Qed.

Lemma results_addExcluded_array ids (s : state) :
  results (addExcluded_array ids s) =
  (artworkCount s, successd s, failed s, excluded s ++ ids).
Proof. destruct s. unfold addExcluded_array. by rewrite notify_eq. Qed.

Lemma results_addFailed item (s : state) :
  results (addFailed item s) = (artworkCount s, successd s, failed s ++ [item], excluded s).
Proof.
  destruct s. unfold addFailed. rewrite notify_eq. by destruct item as [? []].
Qed.

Lemma results_addFailed_array items (s : state) :
  results (addFailed_array items s) =
  (artworkCount s, successd s, failed s ++ items, excluded s).
Proof.
  destruct s. unfold addFailed_array. rewrite notify_eq.
  by destruct (last items) as [[? []] |].
Qed.

Lemma follows_race_sleep ms ids park (s : state) :
  follows s (race_sleep ms (next_id ids) park s).
Proof.
  unfold race_sleep. destruct s. flatten. destruct waitUntilDownloadComplete0.
  - follows_now.
  - eapply follows_trans; [| apply follows_next_id]. follows_now.
  - eapply follows_trans; [| apply follows_catch_error]. follows_now.
Qed.

Lemma flow_results (s s' : state) :
  frozen s s' -> follows s s' ->
  results s' = results s /\ dispatched s' = dispatched s /\ inflight s' = inflight s.
Proof.
  intros (H1 & H2 & H3 & _) (H4 & H5 & H6 & _). unfold results.
  by rewrite H1, H2, H3, H4, H5, H6.
Qed.

(** The store helpers never reject the completion promise. *)
Lemma addFailed_not_rejected item (s : state) :
  (forall r, waitUntilDownloadComplete s <> Rejected r) ->
  forall r, waitUntilDownloadComplete (addFailed item s) <> Rejected r.
Proof.
  intros H r. destruct s. unfold addFailed. rewrite notify_eq.
  destruct item as [? []]; flatten; simpl in *;
    repeat match goal with
           | |- context [if ?c then _ else _] => destruct c
           end;
    try apply H; destruct waitUntilDownloadComplete0; try discriminate; apply H.
Qed.

Lemma next_id_not_errored ids (s : state) :
  (forall r, waitUntilDownloadComplete s <> Rejected r) ->
  forall r, pc (next_id ids s) <> Finished (Errored r).
Proof.
  intros H r. unfold next_id, arrive_batch, arrive_completion, race_sleep.
  destruct s as [ac su fa ex dl dn ta co ab ho w dp flag inf di p tr].
  flatten. simpl in H.
  destruct ids as [| id rest]; [| destruct flag];
    destruct w as [| | r0]; flatten; simpl;
    try discriminate; by destruct (H r0).
Qed.

(** ** Setting a run up *)

Lemma effects_snoc t a :
  effects (t ++ [a]) = effects t ++ (if is_log a then [] else [a]).
Proof. unfold effects. rewrite List.filter_app. simpl. by destruct (is_log a). Qed.

Lemma reset_effects (s : state) :
  effects (trace (reset s)) = effects (trace s) /\
  dispatched (reset s) = dispatched s /\ downloading (reset s) = downloading s.
Proof.
  destruct s. unfold reset. rewrite !notify_eq. flatten.
  rewrite ?effects_snoc. simpl. by rewrite ?app_nil_r.
Qed.

Lemma getGenerator_error fnId :
  (forall ids, ids ∈ pageMatch cfg -> fnId ∉ ids) \/
  (downloadAllPages cfg = false /\ (pageEnd cfg < pageStart cfg)%Z) ->
  exists msg, getGenerator fnId = SetupError (ErrorObj "Error" msg).
Proof.
  intros H. unfold BatchDownload.getGenerator.
  destruct (existsb _ (pageMatch cfg)) eqn:He; simpl; [| eauto].
  destruct H as [H | [Hall Hlt]].
  - apply existsb_exists in He as (ids & Hin & Hid).
    apply list_elem_of_In in Hin. apply bool_decide_eq_true_1 in Hid.
    by destruct (H ids Hin).
  - rewrite Hall. apply Z.ltb_lt in Hlt. rewrite Hlt. simpl. eauto.
Qed.

(** ** More on the filter pipeline *)

Lemma existsb_includes (tags l : list string) :
  existsb (includes tags) l = true <-> exists t, t ∈ l /\ t ∈ tags.
Proof.
  rewrite existsb_exists. unfold includes. split.
  - intros (t & Hin & Ht). exists t. split; [by apply list_elem_of_In |].
    by apply bool_decide_eq_true_1 in Ht.
  - intros (t & Hin & Ht). exists t. split; [by apply list_elem_of_In |].
    by apply bool_decide_eq_true_2.
Qed.

(** X12. [filterTag] lets pass every metadata without a tag list; with an
    allow list, exactly the metadata that carries one of its tags, the deny
    list not being looked at; without an allow list, exactly the metadata
    that carries no tag of the deny list. *)
Theorem filterTag_passes_iff (m : Meta) :
  BatchDownload.filterTag meta_tags cfg m = true <->
  match meta_tags m with
  | None => True
  | Some tags =>
      if decide (whitelistTag cfg = []) then
        forall t, t ∈ blacklistTag cfg -> t ∉ tags
      else exists t, t ∈ whitelistTag cfg /\ t ∈ tags
  end.
Proof.
  unfold BatchDownload.filterTag. destruct (meta_tags m) as [tags |]; [| done].
  destruct (decide (whitelistTag cfg = [])) as [Hw | Hw].
  - rewrite Hw. cbn [length Nat.eqb negb].
    destruct (decide (blacklistTag cfg = [])) as [Hb | Hb].
    + rewrite Hb. cbn. split; [| done]. intros _ t Ht. by apply elem_of_nil in Ht.
    + replace (negb (length (blacklistTag cfg) =? 0)%nat) with true
        by (destruct (blacklistTag cfg); [done | reflexivity]).
      rewrite negb_true_iff, <- not_true_iff_false, existsb_includes.
      split.
      * intros H t Ht Htags. apply H. eauto.
      * intros H (t & Ht & Htags). by apply (H t).
  - replace (negb (length (whitelistTag cfg) =? 0)%nat) with true
      by (destruct (whitelistTag cfg); [done | reflexivity]).
    apply existsb_includes.
Qed.

Lemma first_true_false_iff (fns : list predicate) (m : Meta) :
  first_true fns m = Some false <-> Forall (fun f => f m = Some false) fns.
Proof.
  induction fns as [| f fns IH]; simpl.
  - split; [constructor | done].
  - destruct (f m) as [[|] |] eqn:Hf.
    + split; [done |]. intros H. apply Forall_cons in H as [H _]. congruence.
    + rewrite IH. split; [by constructor |]. intros H. by apply Forall_cons in H as [_ H].
    + split; [done |]. intros H. apply Forall_cons in H as [H _]. congruence.
Qed.

Lemma first_true_true_iff (fns : list predicate) (m : Meta) :
  first_true fns m = Some true <->
  exists before f after,
    fns = before ++ f :: after /\
    Forall (fun g => g m = Some false) before /\ f m = Some true.
Proof.
  induction fns as [| f fns IH]; simpl.
  - split; [done |]. intros (before & g & after & H & _). by destruct before.
  - destruct (f m) as [[|] |] eqn:Hf.
    + split; [| done]. intros _. exists [], f, fns. by repeat split.
    + rewrite IH. split.
      * intros (before & g & after & -> & Hb & Hg).
        exists (f :: before), g, after. repeat split; [| exact Hg]. by constructor.
      * intros (before & g & after & H & Hb & Hg).
        destruct before as [| f' before]; simpl in H.
        -- injection H as -> ->. congruence.
        -- injection H as -> ->. apply Forall_cons in Hb as [_ Hb].
           exists before, g, after. by repeat split.
    + split; [done |]. intros (before & g & after & H & Hb & Hg).
      destruct before as [| f' before]; simpl in H; injection H as -> ->.
      * congruence.
      * apply Forall_cons in Hb as [Hb _]. congruence.
Qed.

(** X13. [checkValidity] accepts a metadata exactly when it passes the tag
    filter (if that is enabled), every selected exclude predicate answers
    [false] for it, and some selected include predicate answers [true]
    after all those before it answered [false]; so a predicate that throws
    before the answer is reached rejects the metadata, and so does an
    exclude predicate that answers [true], whatever the include predicates
    say. *)
Theorem checkValidity_accepts_iff (m : Meta) :
  checkValidity m = true <->
  (enableTagFilter cfg = true -> BatchDownload.filterTag meta_tags cfg m = true) /\
  Forall (fun f => f m = Some false) (BatchDownload.excludeFilters cfg) /\
  exists before f after,
    includeFilters = before ++ f :: after /\
    Forall (fun g => g m = Some false) before /\ f m = Some true.
Proof.
  unfold BatchDownload.checkValidity, checkValidity_with.
  rewrite <- first_true_false_iff, <- first_true_true_iff.
  destruct (enableTagFilter cfg); simpl.
  - destruct (BatchDownload.filterTag meta_tags cfg m); simpl.
    + destruct includeFilters as [| f fs] eqn:Hi.
      * simpl. split; [done |]. by intros (_ & _ & ?).
      * simpl length. simpl Nat.eqb. cbv iota.
        destruct (first_true (BatchDownload.excludeFilters cfg) m) as [[|] |];
          try (split; [done | by intros (_ & ? & _)]).
        destruct (first_true (f :: fs) m) as [[|] |];
          (split; [done | by intros (_ & _ & ?)]).
    + split; [done |]. intros (H & _). by specialize (H eq_refl).
  - destruct includeFilters as [| f fs] eqn:Hi.
    + simpl. split; [done |]. by intros (_ & _ & ?).
    + simpl length. simpl Nat.eqb. cbv iota.
      destruct (first_true (BatchDownload.excludeFilters cfg) m) as [[|] |];
        try (split; [done | by intros (_ & ? & _)]).
      destruct (first_true (f :: fs) m) as [[|] |];
        (split; [done | by intros (_ & _ & ?)]).
Qed.

(** Whatever a selected exclude predicate does other than answer [false]
    rejects the metadata. *)
Lemma exclude_blocks (g : predicate) (m : Meta) :
  g ∈ BatchDownload.excludeFilters cfg -> g m <> Some false -> checkValidity m = false.
Proof.
  intros Hg Hm. unfold BatchDownload.checkValidity, checkValidity_with.
  destruct (_ && _); [reflexivity |]. destruct (_ =? _)%nat; [reflexivity |].
  destruct (first_true (BatchDownload.excludeFilters cfg) m) as [[|] |] eqn:Hf;
    try reflexivity.
  apply first_true_false_iff in Hf. rewrite Forall_forall in Hf.
  by specialize (Hf g Hg).
Qed.

Lemma fold_push_selected_snd selected :
  forall acc g,
    g ∈ acc.2 \/
    (exists id f, id ∈ selected /\
       find (fun f => String.eqb (filter_id f) id) (filters cfg) = Some f /\
       filter_kind f = exclude /\ fn f = g) ->
    g ∈ (fold_left (push_selected cfg) selected acc).2.
Proof.
  induction selected as [| id0 selected IH]; intros acc g H; simpl.
  - destruct H as [H | (id & f & Hin & _)]; [exact H | by apply elem_of_nil in Hin].
  - apply IH. destruct H as [H | (id & f & Hin & Hfind & Hkind & Hfn)].
    + left. unfold push_selected. destruct (find _ _) as [f0 |]; [| exact H].
      destruct (filter_kind f0); simpl; [exact H |].
      apply elem_of_app. by left.
    + apply elem_of_cons in Hin as [-> | Hin]; [| right; eauto 10].
      left. unfold push_selected. rewrite Hfind, Hkind. simpl.
      apply elem_of_app. right. rewrite Hfn. left.
Qed.

(** A selected exclude filter is among the exclude predicates. *)
Lemma selected_exclude (selected : list string) (id : string) (f : FilterSpec) :
  selectedFilters cfg = Some selected -> id ∈ selected ->
  find (fun f => String.eqb (filter_id f) id) (filters cfg) = Some f ->
  filter_kind f = exclude ->
  fn f ∈ BatchDownload.excludeFilters cfg.
Proof.
  intros Hs Hin Hfind Hkind. unfold BatchDownload.excludeFilters, select_filters.
  rewrite Hs. apply fold_push_selected_snd. right. eauto 10.
Qed.

(** ** Cancellation *)


Lemma aborted_controller_abort r (s : state) : aborted (controller_abort r s) = Some r.
Proof.
  destruct s. unfold controller_abort, downloadAbort, reject.
  by destruct hooked0, waitUntilDownloadComplete0.
Qed.

(** X16. [abort] is idempotent: a second call changes nothing, so the abort
    listener runs once; and before the first run, when there is no
    controller, [abort] does nothing at all. *)
Theorem abort_is_idempotent (s : state) :
  abort (abort s) = abort s /\ (controller s = false -> abort s = s).
Proof.
  split; [| unfold abort; by intros ->].
  destruct (controller s) eqn:Hc; [destruct (aborted s) eqn:Ha |].
  - assert (E : abort s = s) by (unfold abort; by rewrite Hc, Ha).
    rewrite E. exact E.
  - assert (E : abort s = wake (controller_abort CancelError s))
      by (unfold abort; by rewrite Hc, Ha).
    rewrite E. set (s1 := wake (controller_abort CancelError s)).
    assert (H1 : aborted s1 <> None).
    { apply (frozen_wake (controller_abort CancelError s)).
      by rewrite aborted_controller_abort. }
    unfold abort. destruct (controller s1); [| reflexivity].
    by destruct (aborted s1).
  - assert (E : abort s = s) by (unfold abort; by rewrite Hc).
    rewrite E. exact E.
Qed.

(** ** The life cycle of a run *)

(** X17. The [downloading] store tells whether a run is under way: in every
    state a run can reach it is [true], with the controller and the abort
    listener in place, while [batchDownload] is suspended, and [false]
    before the run and after it has ended, however it ended. *)
Theorem downloading_tracks_the_run events (s : state)
    (Hr : run init events = Some s) :
  (running (pc s) ->
     downloading s = true /\ controller s = true /\ hooked s = true) /\
  (pc s = Idle \/ (exists o, pc s = Finished o) -> downloading s = false).
Proof.
  pose proof (life_run events init s life_init Hr) as H. unfold Life, Live in H.
  split.
  - intros Hp. destruct (pc s); simpl in Hp; try contradiction; tauto.
  - intros [Hp | [o Hp]]; rewrite Hp in H; [tauto |]. destruct o; tauto.
Qed.

(** X18. [onDownloadAbort] is called at most once in a run, and only when
    the abort signal has fired; a run that ends with an error has fired the
    signal and, if the error came after the loop was set up, has called
    [onDownloadAbort] exactly once. *)
Theorem abort_callback_called_once events (s : state)
    (Hr : run init events = Some s) :
  (abort_calls (trace s) <= 1)%nat /\
  (aborted s = None -> abort_calls (trace s) = 0%nat) /\
  (forall r, pc s = Finished (Errored r) ->
     aborted s <> None /\ (hooked s = true -> abort_calls (trace s) = 1%nat)).
Proof.
  pose proof (life_run events init s life_init Hr) as H.
  unfold Life, Live, signalled in H.
  split; [| split].
  - destruct (pc s) as [| | | | | | | | | []]; destruct (aborted s), (hooked s); lia.
  - intros Ha. rewrite Ha in H.
    destruct (pc s) as [| | | | | | | | | []]; try lia. by destruct H as (_ & _ & ? & _).
  - intros r Hp. rewrite Hp in H. destruct H as (_ & _ & Ha & Hn).
    split; [exact Ha |]. intros Hh. by rewrite Hh in Hn.
Qed.

(** ** Setting a run up *)

(** X19. A call of [batchDownload] with an identifier that names no
    generator, or with a page range that ends before it starts, ends at
    once with an error: the stores are reset, the abort signal carries the
    error, the [downloading] store is [false] again, and nothing was done
    to the outside but logging: no request, no download, no call of
    [onDownloadAbort]. *)
Theorem setup_error_ends_run_quietly fnId (s : state)
    (Hd : downloading s = false)
    (Hbad : (forall ids, ids ∈ pageMatch cfg -> fnId ∉ ids) \/
            (downloadAllPages cfg = false /\ (pageEnd cfg < pageStart cfg)%Z)) :
  exists error s',
    getGenerator fnId = SetupError error /\
    batchDownload fnId s = (None, s') /\
    pc s' = Finished (Errored error) /\ downloading s' = false /\
    aborted s' = Some error /\ results s' = (None, [], [], []) /\
    dispatched s' = dispatched s /\ effects (trace s') = effects (trace s).
Proof.
  destruct (getGenerator_error fnId Hbad) as [msg Hg].
  exists (ErrorObj "Error" msg). eexists. split; [exact Hg |].
  unfold BatchDownload.batchDownload. rewrite Hd, Hg.
  split; [reflexivity |].
  remember (writeLog Info "Start download..." (set_downloading true s)) as X eqn:EX.
  assert (HX : effects (trace X) = effects (trace s) /\ dispatched X = dispatched s).
  { subst X. destruct s. flatten. rewrite effects_snoc. simpl. by rewrite app_nil_r. }
  clear EX. destruct HX as (HX1 & HX2).
  destruct (reset_view X) as [Hcv _].
  destruct (reset_effects X) as (He & Hdi & _).
  rewrite HX1 in He. rewrite HX2 in Hdi. rewrite <- He, <- Hdi. clear He Hdi HX1 HX2.
  remember (reset X) as R eqn:ER. clear ER.
  destruct R as [ac su fa ex dl dn ta co ab ho w dp flag inf di p tr].
  unfold core_view in Hcv. simpl in Hcv.
  injection Hcv as -> -> -> -> -> -> _ _.
  unfold catch_error, controller_abort, results. flatten. simpl.
  rewrite effects_snoc. simpl. rewrite app_nil_r.
  repeat split; reflexivity.
Qed.

(** ** The loop *)

(** X20. A batch is taken apart when it arrives: its total becomes the
    count, its invalid ids go to the excluded list and its unavailable ids
    to the failed list with the reason [Masked.], the success list stays as
    it is, and none of these ids is downloaded. *)
Theorem yield_sorts_the_candidates b (s : state)
    (Hp : pc s = AwaitBatch) (Ha : aborted s = None) :
  exists s', step s (GenYield b) = Some s' /\
    results s' =
      (Some (total b), successd s,
       failed s ++ map (fun id => {| failed_id := id; failed_reason := Text "Masked." |})
                     (unavaliable b),
       excluded s ++ invalid b) /\
    dispatched s' = dispatched s /\ inflight s' = inflight s.
Proof.
  unfold BatchDownload.step. rewrite Hp. eexists. split; [reflexivity |].
  unfold on_yield, throwIfAborted. rewrite Ha.
  set (masked := map _ (unavaliable b)).
  set (s1 := setArtworkCount (total b) s).
  set (s2 := if (length (invalid b) =? 0)%nat then s1 else addExcluded_array (invalid b) s1).
  set (s3 := if (length (unavaliable b) =? 0)%nat then s2 else addFailed_array masked s2).
  assert (H1 : results s1 = (Some (total b), successd s, failed s, excluded s) /\
               ctl_view s1 = ctl_view s).
  { split; [apply results_setArtworkCount | apply ctl_setArtworkCount]. }
  assert (H2 : results s2 = (Some (total b), successd s, failed s, excluded s ++ invalid b)
               /\ ctl_view s2 = ctl_view s).
  { destruct H1 as [H1 H1']. subst s2. destruct (invalid b) as [| i0 inv]; simpl.
    - by rewrite app_nil_r.
    - rewrite results_addExcluded_array, ctl_addExcluded_array.
      unfold results in H1. by injection H1 as -> -> -> ->. }
  assert (H3 : results s3 = (Some (total b), successd s, failed s ++ masked,
                             excluded s ++ invalid b)
               /\ ctl_view s3 = ctl_view s).
  { destruct H2 as [H2 H2']. subst s3 masked.
    destruct (unavaliable b) as [| u0 una]; simpl.
    - by rewrite app_nil_r.
    - rewrite results_addFailed_array, ctl_addFailed_array.
      unfold results in H2. by injection H2 as -> -> -> ->. }
  destruct H3 as [H3 H3'].
  rewrite <- H3, <- (ctl_dispatched _ _ H3'), <- (ctl_inflight _ _ H3').
  destruct (length (avaliable b) =? 0)%nat; apply flow_results;
    auto using frozen_race_sleep, follows_race_sleep, frozen_next_id, follows_next_id.
Qed.

Lemma results_failedHandler id r (s : state) :
  aborted s = None ->
  results (failedHandler id r s) =
    (artworkCount s, successd s,
     failed s ++ [{| failed_id := id; failed_reason := r |}], excluded s) /\
  ((forall r', waitUntilDownloadComplete s <> Rejected r') ->
   forall r', waitUntilDownloadComplete (failedHandler id r s) <> Rejected r').
Proof.
  intros Ha. unfold failedHandler. rewrite Ha.
  pose proof (results_addFailed {| failed_id := id; failed_reason := r |} s) as H1.
  pose proof (addFailed_not_rejected {| failed_id := id; failed_reason := r |} s) as H2.
  destruct (is_429 r); [| by split].
  destruct (addFailed _ s). split; [exact H1 | exact H2].
Qed.

(** X21. A metadata request that fails while the run is not cancelled puts
    the id on the failed list with the reason of the failure and starts no
    download for it; the loop goes on, and the failure does not make the run
    end with an error. *)
Theorem failed_request_is_recorded id rest r (s : state)
    (Hp : pc s = AwaitParse id rest) (Ha : aborted s = None) :
  exists s', step s (Parsed (inr r)) = Some s' /\
    results s' =
      (artworkCount s, successd s,
       failed s ++ [{| failed_id := id; failed_reason := r |}], excluded s) /\
    dispatched s' = dispatched s /\ inflight s' = inflight s /\
    ((forall r', waitUntilDownloadComplete s <> Rejected r') ->
     forall r', pc s' <> Finished (Errored r')).
Proof.
  unfold BatchDownload.step. rewrite Hp. eexists. split; [reflexivity |].
  unfold BatchDownload.on_parse, throwIfAborted.
  destruct (results_failedHandler id r s Ha) as [H1 H1''].
  pose proof (ctl_failedHandler id r s) as H1'.
  rewrite (ctl_aborted _ _ H1'), Ha.
  rewrite <- H1, <- (ctl_dispatched _ _ H1'), <- (ctl_inflight _ _ H1').
  destruct (flow_results (failedHandler id r s) (next_id rest (failedHandler id r s)))
    as (F1 & F2 & F3); [apply frozen_next_id | apply follows_next_id |].
  repeat split; try assumption.
  intros Hw. apply next_id_not_errored. by apply H1''.
Qed.

(** X22. A discovery sequence that ends having yielded fewer candidates
    than the total it announced, or nothing at all, leaves the run waiting
    for a completion that cannot come: with nothing in flight the count is
    not reached, no event but a call of [abort] changes the state, and
    [abort] ends the run as cancelled. *)
Theorem short_discovery_never_completes events (s : state)
    (Hr : run init events = Some s) (Ht : totals_cover 0 events)
    (Hp : pc s = AwaitCompletion) (Hi : inflight s = []) :
  waitUntilDownloadComplete s = Pending /\ checkIfDownloadCompleted s = false /\
  match artworkCount s with
  | None => settled_count s = 0%nat
  | Some t => (Z.of_nat (settled_count s) < t)%Z
  end /\
  (forall e s', step s e = Some s' ->
     (e = AbortReq /\ pc s' = Finished (Errored CancelError)) \/
     (exists fnId, e = Call fnId /\ s' = s)).
Proof.
  destruct (inv_run events 0 init s inv_init Ht Hr) as [n HI].
  pose proof (k_run events 0 init s k_init Hr) as [_ HK].
  pose proof (life_run events init s life_init Hr) as HL.
  unfold parked_pending in HK. rewrite Hp in HK.
  apply Inv_running in HI; [| by rewrite Hp].
  destruct HI as [(_ & Hd & HC) _]. rewrite HK in HC.
  destruct HC as (Ha & Hf & Hn & Hc). rewrite Hi, Hp in Hn. simpl in Hn.
  rewrite Nat.add_0_r in Hn. subst n.
  assert (Hchk : checkIfDownloadCompleted s = false) by congruence.
  split; [exact HK |]. split; [exact Hchk |]. split.
  - unfold count_ok in Hc. unfold checkIfDownloadCompleted in Hchk.
    fold (settled_count s) in Hchk.
    destruct (artworkCount s) as [t |]; [| exact Hc].
    apply Z.eqb_neq in Hchk. lia.
  - intros e s' Hs. unfold BatchDownload.step in Hs. rewrite Hp, Hi in Hs.
    destruct e; try discriminate.
    + right. exists fnId. split; [reflexivity |].
      destruct (downloading s) eqn:Hdl; [| discriminate].
      rewrite (batchDownload_busy _ _ Hdl) in Hs. by injection Hs as <-.
    + left. split; [reflexivity |]. injection Hs as <-.
      unfold Life in HL. rewrite Hp in HL. destruct HL as (_ & Hco & Hh & _).
      destruct s as [ac su fa ex dl dn ta co ab ho w dp flag inf di p tr].
      simpl in *. subst. reflexivity.
Qed.

(** ** Downloads of an earlier run *)

Lemma results_addSuccessd id (s : state) :
  results (addSuccessd id s) = (artworkCount s, successd s ++ [id], failed s, excluded s).
Proof. destruct s. unfold addSuccessd. by rewrite notify_eq. Qed.

(** X30. The stores are shared by all runs and [reset] cancels nothing:
    when a download that an earlier run left in flight settles, its handler
    puts the id on the success list or on the failed list of the run under
    way, unless the signal of its own run is aborted; the count, the
    excluded list and the downloads in flight are as they were, and nothing
    is dispatched. *)
Theorem leftover_settles_into_the_stores (ss : session) (i : nat) (l : leftover)
    (res : option reason)
    (Hfind : list_find (fun l' => (left_handle l' =? left_handle l)%nat) (earlier ss)
             = Some (i, l)) :
  exists ss', session_step ss (Settle (left_handle l) res) = Some ss' /\
    earlier ss' = delete i (earlier ss) /\
    dispatched (now ss') = dispatched (now ss) /\
    inflight (now ss') = inflight (now ss) /\
    results (now ss') =
      (artworkCount (now ss),
       successd (now ss) ++
         (if left_aborted l then []
          else match res with
               | None => [left_id l]
               | Some _ => []
               end),
       failed (now ss) ++
         (if left_aborted l then []
          else match res with
               | None => []
               | Some r => [{| failed_id := left_id l; failed_reason := r |}]
               end),
       excluded (now ss)).
Proof.
  unfold BatchDownload.session_step. rewrite Hfind.
  eexists. split; [reflexivity |]. simpl. split; [reflexivity |].
  unfold on_leftover_settle.
  set (s1 := if left_aborted l then now ss else _).
  destruct (flow_results (removeTask (left_id l) s1) (wake (removeTask (left_id l) s1))
              (frozen_wake _) (follows_wake _)) as (HR & HD & HI).
  rewrite HR, HD, HI.
  replace (results (removeTask (left_id l) s1)) with (results s1) by (by destruct s1).
  replace (dispatched (removeTask (left_id l) s1)) with (dispatched s1) by (by destruct s1).
  replace (inflight (removeTask (left_id l) s1)) with (inflight s1) by (by destruct s1).
  subst s1. destruct (left_aborted l).
  - rewrite !app_nil_r. by destruct (now ss).
  - destruct res as [r |].
    + pose proof (ctl_addFailed {| failed_id := left_id l; failed_reason := r |} (now ss))
        as Hc.
      rewrite (ctl_dispatched _ _ Hc), (ctl_inflight _ _ Hc), results_addFailed.
      by rewrite app_nil_r.
    + pose proof (ctl_addSuccessd (left_id l) (now ss)) as Hc.
      rewrite (ctl_dispatched _ _ Hc), (ctl_inflight _ _ Hc), results_addSuccessd.
      by rewrite app_nil_r.
Qed.

End WithMeta.


(** ** Concrete runs *)

Import Examples.

Local Abbreviation run_inline := (BatchDownload.run tags_of inline_cfg init).

Ltac conjuncts := repeat match goal with |- _ /\ _ => split end.



(** Why the condition on the downloads of earlier runs is needed: a run
    that completed with a download in flight hands it on to the next run,
    whose stores record it; the next run, although its own discovery
    sequence is faithful, then completes with a foreign id on its success
    list and one of its own downloads in flight. *)
Lemma leftover_download_completes_next_run :
  let ss := session_after inline_cfg short_then_two in
  BatchDownload.session_run tags_of inline_cfg session_init short_then_two = Some ss /\
  pc (now ss) = Finished Completed /\
  artworkCount (now ss) = Some 2 /\ successd (now ss) = ["b"; "c"] /\
  inflight (now ss) = [(3%nat, "d")] /\ earlier ss = [].
Proof. intros ss. conjuncts; vm_compute; reflexivity. Qed.

(** C2, as stated, fails: with five downloads dispatched and the first one
    settled, the loop dispatches two more while four of the five are still
    in flight, which makes six. *)
Lemma six_downloads_in_flight :
  ~ (forall events s,
       run_inline events = Some s -> (length (inflight s) <= 5)%nat).
Proof.
  intros H.
  assert (Hr : run_inline six_in_flight = Some (state_after inline_cfg six_in_flight))
    by (vm_compute; reflexivity).
  specialize (H _ _ Hr). revert H. vm_compute. lia.
Qed.

Lemma dispatch_window_bounded_witness :
  let s := state_after inline_cfg five_waiting in
  run_inline five_waiting = Some s /\
  length (dlPromise s) = THRESHOLD /\
  pc s = AwaitThreshold ["6"; "7"] /\
  forall e s',
    BatchDownload.step tags_of inline_cfg s e = Some s' ->
    dispatched s' = dispatched s /\
    ((pc s' = AwaitThreshold ["6"; "7"] /\ dlPromise s' = dlPromise s) \/
     (exists h res, e = Settle h res /\ h ∈ dlPromise s) \/
     waitUntilDownloadComplete s' <> Pending).
Proof.
  intros s.
  assert (Hr : run_inline five_waiting = Some s) by (vm_compute; reflexivity).
  assert (Hp : pc s = AwaitThreshold ["6"; "7"]) by (vm_compute; reflexivity).
  split; [exact Hr |]. split; [vm_compute; reflexivity |]. split; [exact Hp |].
  intros e s'.
  exact (proj2 (proj2 (dispatch_window_bounded tags_of inline_cfg five_waiting s Hr))
           ["6"; "7"] e s' Hp).
Defined.

(** C3: the code at a failing input.  Two downloads are dispatched and the
    first one settles; on cancellation [onDownloadAbort] still receives the
    task id of the settled download next to the one in flight, because
    [removeTask] looks for the artwork id among the stored task ids and so
    removes nothing.  And when the cancellation arrives while
    [checkValidity] is awaited, the download of that id is dispatched after
    the callback has run. *)
Theorem abort_callback_lists_settled_task :
  let s := state_after inline_cfg cancel_after_success in
  let s' := state_after tagged_cfg cancel_during_validity in
  run_inline cancel_after_success = Some s /\
  successd s = ["1"] /\ inflight s = [(1%nat, "2")] /\
  trace s !! 11%nat = Some (OnDownloadAbort ["1_r0"; "2_r1"]) /\
  remove_first "1" ["1_r0"; "2_r1"] = ["1_r0"; "2_r1"] /\
  BatchDownload.run tags_of tagged_cfg init cancel_during_validity = Some s' /\
  trace s' !! 3%nat = Some (OnDownloadAbort []) /\
  trace s' !! 5%nat = Some (Download "1" "1_r0").
Proof.
  intros s s'. conjuncts; vm_compute; reflexivity.
Qed.

(** C4, as stated, fails: two downloads fail with a 429 before the loop
    takes up the next id, and the completed run has paused once. *)
Lemma two_signals_one_cooldown :
  ~ (forall events s,
       run_inline events = Some s -> pc s = Finished Completed ->
       cooldowns (trace s) = signals events).
Proof.
  intros H.
  assert (Hr : run_inline two_signals = Some (state_after inline_cfg two_signals))
    by (vm_compute; reflexivity).
  assert (Hp : pc (state_after inline_cfg two_signals) = Finished Completed)
    by (vm_compute; reflexivity).
  specialize (H _ _ Hr Hp). revert H. vm_compute. discriminate.
Qed.

Lemma cooldowns_follow_signals_witness :
  let s := state_after inline_cfg two_signals in
  run_inline two_signals = Some s /\
  (cooldowns (trace s) + armed s <= signals two_signals)%nat /\
  cooldowns (trace s) = 1%nat /\ signals two_signals = 2%nat.
Proof.
  intros s.
  assert (Hr : run_inline two_signals = Some s) by (vm_compute; reflexivity).
  split; [exact Hr |].
  split; [exact (proj1 (cooldowns_follow_signals tags_of inline_cfg two_signals s Hr)) |].
  split; vm_compute; reflexivity.
Defined.

(** C5: the code at a failing input.  With the allow list ["a"] and the
    deny list ["b"], metadata tagged both ["a"] and ["b"] passes the tag
    filter and the whole validity check: the allow list is consulted first
    and its answer is returned, so the deny list is not looked at.  The deny
    list alone rejects the same metadata. *)
Theorem allow_list_shadows_deny_list :
  let both := Some ["a"; "b"] in
  filterTag tags_of tagged_cfg both = true /\
  checkValidity tags_of tagged_cfg both = true /\
  filterTag tags_of
    {| filters := []; enableTagFilter := true; filterWhenGenerateIngPage := false;
       pageMatch := []; selectedFilters := None; blacklistTag := ["b"];
       whitelistTag := []; downloadAllPages := true; pageStart := 1; pageEnd := 1;
       random := fun _ => "" |} both = false.
Proof. intros both. conjuncts; vm_compute; reflexivity. Qed.



Lemma batchDownload_rejected_while_downloading_witness :
  let s := state_after inline_cfg one_dispatched in
  downloading s = true /\
  BatchDownload.batchDownload inline_cfg "gen" s = (Some AlreadyDownloading, s) /\
  BatchDownload.step tags_of inline_cfg s (Call "gen") = Some s.
Proof.
  intros s.
  assert (Hd : downloading s = true) by (vm_compute; reflexivity).
  pose proof (batchDownload_rejected_while_downloading tags_of inline_cfg "gen" s Hd)
    as [H1 H2].
  split; [exact Hd |]. split; [exact H1 |]. apply H2. vm_compute. exact I.
Defined.

(** ** More concrete runs *)


Lemma downloading_tracks_the_run_witness :
  let s := state_after inline_cfg one_dispatched in
  let s' := state_after inline_cfg two_done in
  run_inline one_dispatched = Some s /\ running (pc s) /\
  (downloading s = true /\ controller s = true /\ hooked s = true) /\
  run_inline two_done = Some s' /\ pc s' = Finished Completed /\
  downloading s' = false.
Proof.
  intros s s'.
  assert (Hr : run_inline one_dispatched = Some s) by (vm_compute; reflexivity).
  assert (Hp : running (pc s)) by (vm_compute; exact I).
  assert (Hr' : run_inline two_done = Some s') by (vm_compute; reflexivity).
  assert (Hp' : pc s' = Finished Completed) by (vm_compute; reflexivity).
  split; [exact Hr |]. split; [exact Hp |].
  split; [exact (proj1 (downloading_tracks_the_run tags_of inline_cfg _ s Hr) Hp) |].
  split; [exact Hr' |]. split; [exact Hp' |].
  apply (proj2 (downloading_tracks_the_run tags_of inline_cfg _ s' Hr')).
  right. by eexists.
Defined.

Lemma abort_callback_called_once_witness :
  let s := state_after inline_cfg cancel_after_success in
  run_inline cancel_after_success = Some s /\
  pc s = Finished (Errored CancelError) /\ hooked s = true /\
  (abort_calls (trace s) <= 1)%nat /\
  (aborted s = None -> abort_calls (trace s) = 0%nat) /\
  aborted s <> None /\ abort_calls (trace s) = 1%nat.
Proof.
  intros s.
  assert (Hr : run_inline cancel_after_success = Some s) by (vm_compute; reflexivity).
  assert (Hp : pc s = Finished (Errored CancelError)) by (vm_compute; reflexivity).
  assert (Hh : hooked s = true) by (vm_compute; reflexivity).
  destruct (abort_callback_called_once tags_of inline_cfg cancel_after_success s Hr)
    as (H1 & H2 & H3).
  destruct (H3 CancelError Hp) as [H4 H5].
  split; [exact Hr |]. split; [exact Hp |]. split; [exact Hh |].
  split; [exact H1 |]. split; [exact H2 |]. split; [exact H4 | exact (H5 Hh)].
Defined.

Lemma setup_error_ends_run_quietly_witness :
  downloading (init : state (Meta := option (list string))) = false /\
  exists error s',
    BatchDownload.getGenerator inline_cfg "nope" = SetupError error /\
    BatchDownload.batchDownload inline_cfg "nope" init = (None, s') /\
    pc s' = Finished (Errored error) /\ downloading s' = false /\
    aborted s' = Some error /\ results s' = (None, [], [], []) /\
    dispatched s' = dispatched (init : state (Meta := option (list string))) /\
    effects (trace s') = effects (trace (init : state (Meta := option (list string)))).
Proof.
  split; [reflexivity |].
  apply (setup_error_ends_run_quietly inline_cfg "nope" init); [reflexivity |].
  left. intros ids Hin. apply list_elem_of_singleton in Hin. subst ids.
  intros H. apply list_elem_of_singleton in H. discriminate.
Defined.

Lemma yield_sorts_the_candidates_witness :
  let s := state_after inline_cfg [Call "gen"] in
  let b := {| total := 3; page := 1; avaliable := ["a"]; invalid := ["x"];
              unavaliable := ["y"] |} in
  pc s = AwaitBatch /\ aborted s = None /\
  exists s', BatchDownload.step tags_of inline_cfg s (GenYield b) = Some s' /\
    results s' =
      (Some 3%Z, successd s,
       failed s ++ [{| failed_id := "y"; failed_reason := Text "Masked." |}],
       excluded s ++ ["x"]) /\
    dispatched s' = dispatched s /\ inflight s' = inflight s.
Proof.
  intros s b.
  assert (Hp : pc s = AwaitBatch) by (vm_compute; reflexivity).
  assert (Ha : aborted s = None) by (vm_compute; reflexivity).
  split; [exact Hp |]. split; [exact Ha |].
  exact (yield_sorts_the_candidates tags_of inline_cfg b s Hp Ha).
Defined.

Lemma failed_request_is_recorded_witness :
  let s := state_after inline_cfg [Call "gen"; GenYield (batch 2 ["a"; "b"])] in
  pc s = AwaitParse "a" ["b"] /\ aborted s = None /\
  exists s',
    BatchDownload.step tags_of inline_cfg s (Parsed (inr too_many_requests)) = Some s' /\
    results s' =
      (artworkCount s, successd s,
       failed s ++ [{| failed_id := "a"; failed_reason := too_many_requests |}],
       excluded s) /\
    dispatched s' = dispatched s /\ inflight s' = inflight s /\
    ((forall r', waitUntilDownloadComplete s <> Rejected r') ->
     forall r', pc s' <> Finished (Errored r')).
Proof.
  intros s.
  assert (Hp : pc s = AwaitParse "a" ["b"]) by (vm_compute; reflexivity).
  assert (Ha : aborted s = None) by (vm_compute; reflexivity).
  split; [exact Hp |]. split; [exact Ha |].
  exact (failed_request_is_recorded tags_of inline_cfg "a" ["b"] too_many_requests s Hp Ha).
Defined.

Lemma short_discovery_never_completes_witness :
  let events := [Call "gen"; GenDone] in
  let s := state_after inline_cfg events in
  run_inline events = Some s /\ totals_cover 0 events /\
  pc s = AwaitCompletion /\ inflight s = [] /\
  waitUntilDownloadComplete s = Pending /\ checkIfDownloadCompleted s = false /\
  match artworkCount s with
  | None => settled_count s = 0%nat
  | Some t => (Z.of_nat (settled_count s) < t)%Z
  end /\
  (forall e s', BatchDownload.step tags_of inline_cfg s e = Some s' ->
     (e = AbortReq /\ pc s' = Finished (Errored CancelError)) \/
     (exists fnId, e = Call fnId /\ s' = s)).
Proof.
  intros events s.
  assert (Hr : run_inline events = Some s) by (vm_compute; reflexivity).
  assert (Ht : totals_cover 0 events) by (vm_compute; exact I).
  assert (Hp : pc s = AwaitCompletion) by (vm_compute; reflexivity).
  assert (Hi : inflight s = []) by (vm_compute; reflexivity).
  split; [exact Hr |]. split; [exact Ht |]. split; [exact Hp |]. split; [exact Hi |].
  exact (short_discovery_never_completes tags_of inline_cfg events s Hr Ht Hp Hi).
Defined.

Lemma leftover_settles_into_the_stores_witness :
  let ss := session_after inline_cfg (take 9 short_then_two) in
  let l := {| left_handle := 1; left_id := "b"; left_aborted := false |} in
  pc (now ss) = AwaitDelay ["d"] /\ earlier ss = [l] /\ successd (now ss) = [] /\
  exists ss',
    BatchDownload.session_step tags_of inline_cfg ss (Settle 1 None) = Some ss' /\
    earlier ss' = [] /\
    dispatched (now ss') = dispatched (now ss) /\
    inflight (now ss') = inflight (now ss) /\
    results (now ss') = (artworkCount (now ss), successd (now ss) ++ ["b"],
                         failed (now ss) ++ [], excluded (now ss)).
Proof.
  intros ss l.
  split; [vm_compute; reflexivity |]. split; [vm_compute; reflexivity |].
  split; [vm_compute; reflexivity |].
  apply (leftover_settles_into_the_stores tags_of inline_cfg ss 0 l None).
  vm_compute. reflexivity.
Defined.

End BatchDownloadSpec.

(* ===================================================================== *)
(** * Properties of the site filters *)
(* ===================================================================== *)

Module SitesSpec.
Import JsNumber HistoryDb BatchDownload Sites.

Local Open Scope string_scope.

Section WithStore.

Context {Meta : Type}.
Variable Number : string -> number.
Variable meta_id : Meta -> option string.
Variable meta_tags : Meta -> option (list string).

Lemma has_after_add (st0 st : db) (id : string) (i : HistoryInfo) :
  consistent st0 -> add (downloaded_record Number id i) st0 = Ok (tt, st) ->
  has Number (inr id) st = Ok (true, st).
Proof.
  intros Hst Hadd.
  destruct (HistoryDbSpec.add_inv _ _ _ Hst Hadd) as (-> & Hk & _).
  simpl in Hk. rewrite HistoryDbSpec.has_eq by exact Hk. simpl.
  rewrite HistoryDbSpec.record_entry. rewrite decide_True by reflexivity.
  rewrite bool_decide_eq_true_2 by (by eexists). reflexivity.
Qed.

(** X14. A work whose download was recorded in the history is not
    downloaded again while the filter [exclude_downloaded] is selected: for
    a metadata with the id of the record the filter answers [true], and
    [checkValidity] rejects it, whatever the other filters say; for a
    metadata without id the filter answers [false]. *)
Theorem recorded_work_is_excluded (cfg : config (Meta := Meta)) (st0 st : db)
    (selected : list string) (id : string) (i : HistoryInfo) (m : Meta)
    (Hst : consistent st0)
    (Hadd : add (downloaded_record Number id i) st0 = Ok (tt, st))
    (Hsel : selectedFilters cfg = Some selected)
    (Hin : "exclude_downloaded" ∈ selected)
    (Hfind : find (fun f => String.eqb (filter_id f) "exclude_downloaded") (filters cfg)
             = Some (exclude_downloaded Number meta_id st))
    (Hid : meta_id m = Some id) (Hne : id <> "") :
  exclude_downloaded_fn Number meta_id st m = Some true /\
  checkValidity meta_tags cfg m = false /\
  (forall m', meta_id m' = None ->
     exclude_downloaded_fn Number meta_id st m' = Some false).
Proof.
  assert (Hfn : exclude_downloaded_fn Number meta_id st m = Some true).
  { unfold exclude_downloaded_fn. rewrite Hid.
    destruct (String.eqb_spec id "") as [-> | _]; [done |].
    by rewrite (has_after_add st0 st id i Hst Hadd). }
  split; [exact Hfn |]. split.
  - apply (BatchDownloadSpec.exclude_blocks meta_tags cfg
             (exclude_downloaded_fn Number meta_id st)).
    + by apply (BatchDownloadSpec.selected_exclude cfg selected "exclude_downloaded"
                  (exclude_downloaded Number meta_id st)).
    + by rewrite Hfn.
  - intros m' Hm'. unfold exclude_downloaded_fn. by rewrite Hm'.
Qed.

End WithStore.

Lemma recorded_work_is_excluded_witness :
  let Number := fun id : string => if String.eqb id "7" then of_Z 7 else NaN in
  let meta_id := fun m : string => Some m in
  let meta_tags := fun _ : string => @None (list string) in
  let st := exec (add (downloaded_record Number "7" no_info)) empty_store in
  let cfg :=
    {| filters := [exclude_downloaded Number meta_id st;
                   {| filter_id := "all"; filter_kind := include;
                      fn := fun _ => Some true |}];
       enableTagFilter := true; filterWhenGenerateIngPage := false;
       pageMatch := [["gen"]];
       selectedFilters := Some ["exclude_downloaded"; "all"];
       blacklistTag := []; whitelistTag := [];
       downloadAllPages := true; pageStart := 1; pageEnd := 1;
       random := fun _ => "" |} in
  exclude_downloaded_fn Number meta_id st "7" = Some true /\
  checkValidity meta_tags cfg "7" = false /\
  (forall m', meta_id m' = None ->
     exclude_downloaded_fn Number meta_id st m' = Some false).
Proof.
  intros Number meta_id meta_tags st cfg.
  apply (recorded_work_is_excluded Number meta_id meta_tags cfg empty_store st
           ["exclude_downloaded"; "all"] "7" no_info "7").
  - exact HistoryDbSpec.empty_store_consistent.
  - vm_compute. reflexivity.
  - reflexivity.
  - apply (bool_decide_unpack _). vm_compute. exact I.
  - reflexivity.
  - reflexivity.
  - discriminate.
Defined.

End SitesSpec.

(* ===================================================================== *)
(** * Properties of [illustMangaGenerator] *)
(* ===================================================================== *)

Module PixivGeneratorSpec.
Import BatchDownload PixivGenerator.

Local Open Scope string_scope.
Local Open Scope list_scope.

Section WithApi.

Context {Meta : Type}.
Variable work_id : Meta -> string.
Variable isMasked : Meta -> bool.
Variable checkValidity : Meta -> bool.
Variable userId : string.
Variable sort_desc : list string -> list string.
Variable getWorks : list string -> list Meta + reason.

Local Abbreviation classify := (PixivGenerator.classify work_id isMasked checkValidity).
Local Abbreviation pages := (PixivGenerator.pages work_id isMasked checkValidity getWorks).
Local Abbreviation illustMangaGenerator :=
  (PixivGenerator.illustMangaGenerator work_id isMasked checkValidity userId sort_desc
     getWorks).

(** ** The loop over the works of a response *)

Lemma sort_work_fold (workDatas : list Meta) :
  forall av inv una,
    let '(av', inv', una') :=
      fold_left (sort_work work_id isMasked checkValidity) workDatas (av, inv, una) in
    av' = av ++ (work_id <$>
                   List.filter (fun w => negb (isMasked w) && checkValidity w) workDatas) /\
    inv' = inv ++ (work_id <$>
                     List.filter (fun w => negb (isMasked w) && negb (checkValidity w))
                       workDatas) /\
    una' = una ++ (work_id <$> List.filter isMasked workDatas).
Proof.
  induction workDatas as [| w ws IH]; intros av inv una; simpl.
  - by rewrite !app_nil_r.
  - destruct (isMasked w); simpl.
    + specialize (IH av inv (una ++ [work_id w])).
      destruct (fold_left _ ws _) as [[av' inv'] una'].
      destruct IH as (-> & -> & ->). by rewrite <- app_assoc.
    + destruct (checkValidity w); simpl.
      * specialize (IH (av ++ [work_id w]) inv una).
        destruct (fold_left _ ws _) as [[av' inv'] una'].
        destruct IH as (-> & -> & ->). by rewrite <- app_assoc.
      * specialize (IH av (inv ++ [work_id w]) una).
        destruct (fold_left _ ws _) as [[av' inv'] una'].
        destruct IH as (-> & -> & ->). by rewrite <- app_assoc.
Qed.

Lemma filter_three_lengths (workDatas : list Meta) :
  (length (List.filter (fun w => negb (isMasked w) && checkValidity w) workDatas) +
   length (List.filter (fun w => negb (isMasked w) && negb (checkValidity w)) workDatas) +
   length (List.filter isMasked workDatas) = length workDatas)%nat.
Proof.
  induction workDatas as [| w ws IH]; simpl; [reflexivity |].
  destruct (isMasked w), (checkValidity w); simpl; lia.
Qed.

Lemma classify_eq (workDatas : list Meta) :
  classify workDatas =
  (work_id <$> List.filter (fun w => negb (isMasked w) && checkValidity w) workDatas,
   work_id <$> List.filter (fun w => negb (isMasked w) && negb (checkValidity w))
                 workDatas,
   work_id <$> List.filter isMasked workDatas).
Proof.
  pose proof (sort_work_fold workDatas [] [] []) as H.
  unfold PixivGenerator.classify.
  destruct (fold_left _ workDatas _) as [[av inv] una].
  by destruct H as (-> & -> & ->).
Qed.

(** X23. The loop over the works of a response puts every work on exactly
    one of the three lists, in the order of the response: the masked works
    on [unavaliable], whatever the validity function says, the others on
    [avaliable] or [invalid] as the validity function decides; so a batch
    has as many candidates as the response has works. *)
Theorem classify_partitions (workDatas : list Meta) :
  let '(avaliable, invalid, unavaliable) := classify workDatas in
  avaliable =
    work_id <$> List.filter (fun w => negb (isMasked w) && checkValidity w) workDatas /\
  invalid =
    work_id <$> List.filter (fun w => negb (isMasked w) && negb (checkValidity w))
                  workDatas /\
  unavaliable = work_id <$> List.filter isMasked workDatas /\
  (length avaliable + length invalid + length unavaliable = length workDatas)%nat.
Proof.
  rewrite classify_eq. repeat split.
  rewrite !length_fmap. apply filter_three_lengths.
Qed.

Lemma classify_candidates (workDatas : list Meta) total page :
  let '(avaliable, invalid, unavaliable) := classify workDatas in
  candidates {| total := total; page := page; avaliable := avaliable;
                invalid := invalid; unavaliable := unavaliable |} = length workDatas.
Proof.
  rewrite classify_eq. unfold candidates. simpl.
  rewrite !length_fmap. apply filter_three_lengths.
Qed.

(** ** The loop over the selected ids *)

Lemma pages_spec (fuel : nat) :
  forall (total page : Z) (selectedIds : list string),
    (0 < length selectedIds <= fuel)%nat ->
    exists rs e,
      pages fuel total page selectedIds = Some (rs, e) /\
      concat rs.*1 `prefix_of` selectedIds /\
      (e = Done -> concat rs.*1 = selectedIds) /\
      (forall r, e = Thrown r -> exists chunk, getWorks chunk = inr r) /\
      Forall (fun cb =>
                BatchDownload.total cb.2 = total /\
                (0 < length cb.1 <= ARTWORKS_PER_PAGE)%nat /\
                exists workDatas,
                  getWorks cb.1 = inl workDatas /\ candidates cb.2 = length workDatas) rs /\
      (forall i cb, rs !! i = Some cb -> BatchDownload.page cb.2 = (page + Z.of_nat i)%Z).
Proof.
  induction fuel as [| fuel IH]; intros total page sel Hlen; [lia |].
  simpl. destruct (getWorks (take ARTWORKS_PER_PAGE sel)) as [works | r] eqn:Hg.
  - pose proof (classify_candidates works total page) as Hc.
    destruct (classify works) as [[av inv] una].
    assert (Hchunk : (0 < length (take ARTWORKS_PER_PAGE sel) <= ARTWORKS_PER_PAGE)%nat)
      by (rewrite length_take; unfold ARTWORKS_PER_PAGE; lia).
    destruct (0 <? length (drop ARTWORKS_PER_PAGE sel))%nat eqn:Hrest.
    + apply Nat.ltb_lt in Hrest.
      destruct (IH total (page + 1)%Z (drop ARTWORKS_PER_PAGE sel))
        as (rs & e & -> & Hpre & Hdone & Hthrown & Hall & Hpage).
      { split; [exact Hrest |]. rewrite length_drop in *. unfold ARTWORKS_PER_PAGE in *. lia. }
      eexists _, e. split; [reflexivity |].
      rewrite fmap_cons, concat_cons. cbn [fst].
      split; [| split; [| split; [| split]]].
      * rewrite <- (take_drop ARTWORKS_PER_PAGE sel) at 2. by apply prefix_app.
      * intros He. rewrite (Hdone He). apply take_drop.
      * exact Hthrown.
      * constructor; [| exact Hall]. simpl. repeat split; try apply Hchunk. eauto.
      * intros [| i] cb Hi; simpl in Hi.
        -- injection Hi as <-. simpl. lia.
        -- rewrite (Hpage i cb Hi). lia.
    + apply Nat.ltb_ge in Hrest.
      assert (Hnil : drop ARTWORKS_PER_PAGE sel = []) by (apply nil_length_inv; lia).
      eexists _, Done. split; [reflexivity |].
      rewrite fmap_cons, concat_cons. cbn [fst fmap list_fmap concat]. rewrite app_nil_r.
      assert (Hsel : take ARTWORKS_PER_PAGE sel = sel).
      { rewrite <- (take_drop ARTWORKS_PER_PAGE sel) at 2. by rewrite Hnil, app_nil_r. }
      split; [| split; [| split; [| split]]].
      * by rewrite Hsel.
      * intros _. exact Hsel.
      * discriminate.
      * constructor; [| constructor]. simpl. repeat split; try apply Hchunk. eauto.
      * intros [| i] cb Hi; simpl in Hi; [| discriminate].
        injection Hi as <-. simpl. lia.
  - eexists [], (Thrown r). split; [reflexivity |]. simpl.
    split; [apply prefix_nil |]. split; [discriminate |].
    split; [intros r' [= <-]; eauto |]. split; [constructor |].
    intros i cb Hi. discriminate.
Qed.

(** X24. Iterated to its end, [illustMangaGenerator] always ends (the loop
    needs no more turns than there are selected ids).  The ids it requests,
    chunk after chunk, are the ids the page range selects among the sorted
    ids of the profile, each once and in order, up to the request that
    fails, if one does; a chunk holds between 1 and 48 ids; every batch
    carries the number of selected ids as its total and as many candidates
    as its response had works; and the pages count up from the start page. *)
Theorem illustMangaGenerator_requests (pageRange : option (Z * Z))
    (illusts manga : option (list string)) :
  let selectedIds :=
    selected pageRange (sort_desc (default [] illusts ++ default [] manga)) in
  let startPage := match pageRange with Some (startPage, _) => startPage | None => 1%Z end in
  exists rs e,
    illustMangaGenerator pageRange illusts manga = Some (rs, e) /\
    concat rs.*1 `prefix_of` selectedIds /\
    (e = Done -> selectedIds <> [] /\ concat rs.*1 = selectedIds) /\
    Forall (fun cb =>
              BatchDownload.total cb.2 = Z.of_nat (length selectedIds) /\
              (0 < length cb.1 <= 48)%nat /\
              exists workDatas,
                getWorks cb.1 = inl workDatas /\ candidates cb.2 = length workDatas) rs /\
    (forall i cb, rs !! i = Some cb ->
       BatchDownload.page cb.2 = (startPage + Z.of_nat i)%Z).
Proof.
  intros sel startPage. unfold PixivGenerator.illustMangaGenerator.
  destruct (length (default [] illusts ++ default [] manga) =? 0)%nat.
  { eexists [], _. split; [reflexivity |]. simpl.
    split; [apply prefix_nil |]. split; [discriminate |]. split; [constructor |].
    intros i cb Hi. discriminate. }
  fold sel. destruct (length sel =? 0)%nat eqn:Hlen.
  { eexists [], _. split; [reflexivity |]. simpl.
    split; [apply prefix_nil |]. split; [discriminate |]. split; [constructor |].
    intros i cb Hi. discriminate. }
  apply Nat.eqb_neq in Hlen.
  destruct (pages_spec (length sel) (Z.of_nat (length sel)) startPage sel)
    as (rs & e & Hrun & Hpre & Hdone & _ & Hall & Hpage); [lia |].
  exists rs, e. split; [exact Hrun |]. split; [exact Hpre |].
  split; [| split; [exact Hall | exact Hpage]].
  intros He. split; [| by apply Hdone]. intros Hnil. by rewrite Hnil in Hlen.
Qed.

(** ** The generator and the orchestrator *)

Context {OMeta : Type}.
Variable meta_tags : OMeta -> option (list string).
Variable cfg : config (Meta := OMeta).

Lemma totals_cover_yields (events : list (event (Meta := OMeta))) :
  forall n,
    totals_cover n events <->
    totals_cover n (GenYield (Meta := OMeta) <$> yields events).
Proof.
  induction events as [| ev events IH]; intros n; [done |].
  destruct ev; simpl; try apply IH.
  by rewrite (IH (n + candidates b)%nat).
Qed.

Lemma totals_cover_prefix (bs1 bs2 : list YieldArtworkId) :
  forall n,
    totals_cover n (GenYield (Meta := OMeta) <$> (bs1 ++ bs2)) ->
    totals_cover n (GenYield (Meta := OMeta) <$> bs1).
Proof.
  induction bs1 as [| b bs1 IH]; intros n; simpl; [done |].
  intros [H1 H2]. split; [exact H1 | by apply IH].
Qed.

Lemma requests_cover (T : nat) (rs : list (list string * YieldArtworkId)) :
  forall n,
    Forall (fun cb => BatchDownload.total cb.2 = Z.of_nat T /\
                      (candidates cb.2 <= length cb.1)%nat) rs ->
    (n + length (concat rs.*1) <= T)%nat ->
    totals_cover n (GenYield (Meta := OMeta) <$> rs.*2).
Proof.
  induction rs as [| [chunk b] rs IH]; intros n Hall Hlen; simpl; [done |].
  apply Forall_cons in Hall as [[Ht Hc] Hall]. simpl in Ht, Hc.
  rewrite fmap_cons, concat_cons, length_app in Hlen. simpl in Hlen.
  split; [lia |]. apply IH; [exact Hall | lia].
Qed.

Lemma generator_cases (pageRange : option (Z * Z)) (illusts manga : option (list string))
    (rs : list (list string * YieldArtworkId)) (e : ending) :
  illustMangaGenerator pageRange illusts manga = Some (rs, e) ->
  rs = [] \/
  exists (selectedIds : list string) (page : Z),
    selectedIds <> [] /\
    pages (length selectedIds) (Z.of_nat (length selectedIds)) page selectedIds
    = Some (rs, e).
Proof.
  unfold PixivGenerator.illustMangaGenerator.
  destruct (length (default [] illusts ++ default [] manga) =? 0)%nat;
    [intros [= <- _]; by left |].
  destruct (length (selected _ _) =? 0)%nat eqn:Hlen; [intros [= <- _]; by left |].
  intros H. right. eexists _, _. split; [| exact H].
  intros Hnil. by rewrite Hnil in Hlen.
Qed.

(** X25. Take a run whose batches come from [illustMangaGenerator], with
    an API that answers a request with at most one work for each id asked
    for, and which starts while no download of an earlier run can write to
    the stores any more.  Such a run never sees a total below the
    candidates yielded so far; hence, when it has completed, [artworkCount]
    is the number of works on the three result lists and none of its
    downloads is in flight. *)
Theorem generated_run_accounts_for_all (pageRange : option (Z * Z))
    (illusts manga : option (list string))
    (rs : list (list string * YieldArtworkId)) (e : ending)
    (fnId : string) (events : list (event (Meta := OMeta)))
    (ss0 ss : session (Meta := OMeta))
    (Hgen : illustMangaGenerator pageRange illusts manga = Some (rs, e))
    (Hapi : forall chunk workDatas,
        getWorks chunk = inl workDatas -> (length workDatas <= length chunk)%nat)
    (Hyields : yields events `prefix_of` rs.*2)
    (Hend : ended (pc (now ss0)) = true) (Hd : downloading (now ss0) = false)
    (Hclean : clean ss0)
    (Hrun : session_run meta_tags cfg ss0 (Call fnId :: events) = Some ss) :
  totals_cover 0 events /\
  (pc (now ss) = Finished Completed ->
     artworkCount (now ss) = Some (Z.of_nat (settled_count (now ss))) /\
     inflight (now ss) = []).
Proof.
  assert (Ht : totals_cover 0 events).
  { apply totals_cover_yields. destruct Hyields as [later Hy].
    apply totals_cover_prefix with (bs2 := later). rewrite <- Hy.
    destruct (generator_cases _ _ _ _ _ Hgen) as [-> | (sel & page & Hsel & Hpages)];
      [done |].
    destruct (pages_spec (length sel) (Z.of_nat (length sel)) page sel)
      as (rs' & e' & Hpages' & Hpre & _ & _ & Hall & _).
    { destruct sel; [done | simpl; lia]. }
    rewrite Hpages in Hpages'. injection Hpages' as <- <-.
    eapply requests_cover.
    - eapply Forall_impl; [exact Hall |]. intros cb (Htot & _ & works & Hg & Hc).
      split; [exact Htot |]. rewrite Hc. by apply Hapi.
    - simpl. by apply prefix_length. }
  split; [exact Ht |]. intros Hp.
  destruct (BatchDownloadSpec.session_inv_from_clean meta_tags cfg fnId events ss0 ss
              Hend Hd Hclean Ht Hrun) as (n & HI & _).
  unfold Inv in HI. rewrite Hp in HI. by destruct HI as (_ & Hc & Hi).
Qed.

End WithApi.

Section WithFollowApi.

Context {Meta : Type}.
Variable work_id : Meta -> string.
Variable work_number : Meta -> option Z.
Variable isMasked : Meta -> bool.
Variable checkValidity : Meta -> bool.
Variable getFollowLatestWorks : Z -> FollowLatest Meta + reason.

Local Abbreviation yieldData :=
  (PixivGenerator.yieldData work_id work_number isMasked checkValidity).
Local Abbreviation follow_loop :=
  (PixivGenerator.follow_loop work_id work_number isMasked checkValidity
     getFollowLatestWorks).
Local Abbreviation followLatestGenerator :=
  (PixivGenerator.followLatestGenerator work_id work_number isMasked checkValidity
     getFollowLatestWorks).

(** The page range as the generator reads it. *)
Local Abbreviation start_of pageRange :=
  (match pageRange with Some (startPage, _) => startPage | None => 1%Z end).
Local Abbreviation end_of pageRange :=
  (match pageRange with
   | Some (_, endPage) => if (endPage >? PAGE_LIMIT)%Z then PAGE_LIMIT else endPage
   | None => PAGE_LIMIT
   end).

Lemma yieldData_some (total : Z) (data : FollowLatest Meta) (page : Z) :
  exists b, yieldData total (Some data) page = inl b /\
    BatchDownload.total b = total /\ BatchDownload.page b = page.
Proof.
  unfold PixivGenerator.yieldData.
  destruct (PixivGenerator.classify _ _ _ _) as [[av inv] una]. eauto.
Qed.

(** X26. With a page range of a single page, [followLatestGenerator]
    requests that page only and yields one batch, whose total is the number
    of ids of the page, and ends. *)
Theorem follow_single_page (pageRange : option (Z * Z)) (data : FollowLatest Meta)
    (Hs : (start_of pageRange <= PAGE_LIMIT)%Z)
    (He : end_of pageRange = start_of pageRange)
    (Hd : getFollowLatestWorks (start_of pageRange) = inl data) :
  exists b,
    followLatestGenerator pageRange = Some ([b], Done) /\
    yieldData (Z.of_nat (length (page_ids data))) (Some data) (start_of pageRange) = inl b /\
    BatchDownload.total b = Z.of_nat (length (page_ids data)) /\
    BatchDownload.page b = start_of pageRange.
Proof.
  destruct (yieldData_some (Z.of_nat (length (page_ids data))) data (start_of pageRange))
    as (b & Hb & Ht & Hp).
  exists b. split; [| by repeat split].
  unfold PixivGenerator.followLatestGenerator.
  destruct (Z.gtb_spec (start_of pageRange) PAGE_LIMIT) as [Hgt | _]; [lia |].
  rewrite Hd. cbv zeta. rewrite He, Z.eqb_refl, Hb. reflexivity.
Qed.

(** X27. When the page range spans more than one page and the first page
    of the feed does not hold exactly 60 ids (it holds fewer, as the last
    page of a feed does), [followLatestGenerator] yields the batch of the
    first page and then throws a [TypeError]: it goes on to yield the page
    cache, which was never filled. *)
Theorem follow_short_feed_throws (pageRange : option (Z * Z)) (data : FollowLatest Meta)
    (Hs : (start_of pageRange <= PAGE_LIMIT)%Z)
    (He : end_of pageRange <> start_of pageRange)
    (Hd : getFollowLatestWorks (start_of pageRange) = inl data)
    (Hn : (length (page_ids data) < 60)%nat) :
  exists b,
    followLatestGenerator pageRange = Some ([b], Thrown undefined_data) /\
    yieldData (Z.of_nat (length (page_ids data))) (Some data) (start_of pageRange) = inl b.
Proof.
  destruct (yieldData_some (Z.of_nat (length (page_ids data))) data (start_of pageRange))
    as (b & Hb & _).
  exists b. split; [| exact Hb].
  unfold PixivGenerator.followLatestGenerator.
  destruct (Z.gtb_spec (start_of pageRange) PAGE_LIMIT) as [Hgt | _]; [lia |].
  rewrite Hd. cbv zeta.
  destruct (Z.eqb_spec (end_of pageRange) (start_of pageRange)) as [Heq | _]; [done |].
  unfold FOLLOW_PER_PAGE.
  assert (E60 : (Z.of_nat (length (page_ids data)) =? 60)%Z = false)
    by (apply Z.eqb_neq; lia).
  assert (E120 : (Z.of_nat (length (page_ids data)) <? 60 * 2)%Z = true)
    by (apply Z.ltb_lt; lia).
  rewrite E60. cbv beta iota zeta. rewrite Hb, E60, E120. reflexivity.
Qed.

(** X28. When the feed has two full pages of new works, the page range
    reaches beyond the second page, and the third page brings no earlier
    work (duplicate works), [followLatestGenerator] yields the first page,
    then the second page, and then the second page once more: the batch of
    the cached page is yielded before the [break] and again after the loop. *)
Theorem follow_duplicate_page_repeats_batch (pageRange : option (Z * Z))
    (first second third : FollowLatest Meta)
    (Hs : (start_of pageRange <= PAGE_LIMIT)%Z)
    (He : (start_of pageRange + 2 <= end_of pageRange)%Z)
    (H1 : getFollowLatestWorks (start_of pageRange) = inl first)
    (H2 : getFollowLatestWorks (start_of pageRange + 1) = inl second)
    (H3 : getFollowLatestWorks (start_of pageRange + 2) = inl third)
    (Hn1 : length (page_ids first) = 60%nat)
    (Hn2 : length (page_ids second) = 60%nat)
    (Hnew : bound_lt (findEarliestId (page_ids second)) (findEarliestId (page_ids first))
            = true)
    (Hdup : bound_lt (findEarliestId (page_ids third)) (findEarliestId (page_ids second))
            = false) :
  exists b1 b2,
    followLatestGenerator pageRange = Some ([b1; b2; b2], Done) /\
    yieldData 120 (Some first) (start_of pageRange) = inl b1 /\
    yieldData 120 (Some second) (start_of pageRange + 1) = inl b2.
Proof.
  destruct (yieldData_some 120 first (start_of pageRange)) as (b1 & Hb1 & _).
  destruct (yieldData_some 120 second (start_of pageRange + 1)) as (b2 & Hb2 & _).
  exists b1, b2. split; [| by split].
  unfold PixivGenerator.followLatestGenerator.
  destruct (Z.gtb_spec (start_of pageRange) PAGE_LIMIT) as [Hgt | _]; [lia |].
  rewrite H1. cbv zeta.
  destruct (Z.eqb_spec (end_of pageRange) (start_of pageRange)) as [Heq | _]; [lia |].
  unfold FOLLOW_PER_PAGE. rewrite Hn1. change (Z.of_nat 60 =? 60)%Z with true. cbv iota.
  rewrite H2, Hnew, Hn2. change (Z.of_nat 60 + Z.of_nat 60)%Z with 120%Z.
  change (120 =? 60)%Z with false. change (120 <? 60 * 2)%Z with false. cbv iota.
  rewrite Hb1. cbn [then_ orb].
  destruct (Z.eqb_spec (end_of pageRange - start_of pageRange) 1) as [H | _]; [lia |].
  destruct (Z.to_nat (end_of pageRange - (start_of pageRange + 1))) as [| fuel] eqn:Hf;
    [lia |].
  cbn [PixivGenerator.follow_loop].
  replace (start_of pageRange + 1 + 1)%Z with (start_of pageRange + 2)%Z by lia.
  destruct (Z.leb_spec (start_of pageRange + 2) (end_of pageRange)) as [_ | H]; [| lia].
  rewrite H3. cbv zeta. rewrite Hdup. cbn [negb].
  replace (start_of pageRange + 2 - 1)%Z with (start_of pageRange + 1)%Z by lia.
  rewrite Hb2. reflexivity.
Qed.

Lemma then_inv (first : YieldArtworkId + reason)
    (rest : option (list YieldArtworkId * ending)) bs en :
  then_ first rest = Some (bs, en) ->
  (exists r, first = inr r /\ bs = [] /\ en = Thrown r) \/
  (exists b bs0, first = inl b /\ rest = Some (bs0, en) /\ bs = b :: bs0).
Proof.
  unfold then_. destruct first as [b | r].
  - destruct rest as [[bs0 e0] |]; [| discriminate].
    intros [= <- <-]. right. eauto.
  - intros [= <- <-]. left. eauto.
Qed.

Lemma then_some (first : YieldArtworkId + reason) r :
  exists r', then_ first (Some r) = Some r'.
Proof. unfold then_. destruct first, r; eauto. Qed.

Lemma follow_loop_ends (endPage : Z) (fuel : nat) :
  forall page earliestId total cache,
    (endPage - page <= Z.of_nat fuel)%Z ->
    exists r, follow_loop fuel page endPage earliestId total cache = Some r.
Proof.
  induction fuel as [| fuel IH]; intros page e total cache Hf.
  - cbn [PixivGenerator.follow_loop].
    destruct (Z.leb_spec (page + 1) endPage) as [H | _]; [lia |]. apply then_some.
  - cbn [PixivGenerator.follow_loop].
    destruct (Z.leb_spec (page + 1) endPage) as [_ | _]; [| apply then_some].
    destruct (getFollowLatestWorks (page + 1)) as [data | r]; [| eauto].
    cbv zeta. destruct (negb _).
    + destruct (then_some (yieldData total cache (page + 1 - 1)) ([], Done)) as [r Hr].
      rewrite Hr. apply then_some.
    + destruct (IH (page + 1)%Z (findEarliestId (page_ids data))
                  (total + Z.of_nat (length (page_ids data)))%Z (Some data)) as [r Hr];
        [lia |].
      rewrite Hr. apply then_some.
Qed.

Lemma follow_loop_without_cache (endPage : Z) (fuel : nat) page earliestId total bs en :
  follow_loop fuel page endPage earliestId total None = Some (bs, en) -> bs = [].
Proof.
  destruct fuel as [| fuel]; cbn [PixivGenerator.follow_loop];
    destruct (page + 1 <=? endPage)%Z; try discriminate;
    try (intros H; by apply then_inv in H as [(r & _ & -> & _) | (b & ? & [=] & _)]).
  destruct (getFollowLatestWorks (page + 1)) as [data | r]; [| by intros [= <- _]].
  cbv zeta. destruct (negb _);
    intros H; by apply then_inv in H as [(r & _ & -> & _) | (b & ? & [=] & _)].
Qed.

(** The API answers with at most one candidate for each id of the page. *)
Local Abbreviation honest :=
  (forall p data, getFollowLatestWorks p = inl data ->
     forall total page b, yieldData total (Some data) page = inl b ->
       (candidates b <= length (page_ids data))%nat).

Lemma follow_loop_cover (endPage : Z) (fuel : nat) :
  honest ->
  forall page earliestId total cache p0 seen bs en,
    getFollowLatestWorks p0 = inl cache ->
    (Z.of_nat (seen + length (page_ids cache)) <= total)%Z ->
    follow_loop fuel page endPage earliestId total (Some cache) = Some (bs, en) ->
    covered_up_to_repeat seen bs.
Proof.
  intros Hapi.
  assert (Hexit : forall page total cache p0 seen bs en,
             getFollowLatestWorks p0 = inl cache ->
             (Z.of_nat (seen + length (page_ids cache)) <= total)%Z ->
             then_ (yieldData total (Some cache) (page + 1 - 1)) (Some ([], Done))
             = Some (bs, en) ->
             covered_up_to_repeat seen bs).
  { intros page total cache p0 seen bs en Hc Hle Hrun.
    apply then_inv in Hrun as [(r & Hy & -> & _) | (b & bs0 & Hy & [= <- <-] & ->)];
      [by left |].
    left. destruct (yieldData_some total cache (page + 1 - 1)) as (b' & Hb' & Ht & _).
    rewrite Hy in Hb'. injection Hb' as <-.
    pose proof (Hapi p0 cache Hc _ _ _ Hy). simpl. split; [lia | done]. }
  induction fuel as [| fuel IH]; intros page e total cache p0 seen bs en Hc Hle Hrun;
    cbn [PixivGenerator.follow_loop] in Hrun;
    destruct (page + 1 <=? endPage)%Z; try discriminate;
    try (by eapply Hexit).
  destruct (getFollowLatestWorks (page + 1)) as [data | r] eqn:Hd;
    [| injection Hrun as <- _; by left].
  cbv zeta in Hrun. destruct (negb _).
  + apply then_inv in Hrun as [(r & Hy & -> & _) | (b & bs0 & Hy & Hrest & ->)];
      [by left |].
    apply then_inv in Hrest as [(r & Hy' & _) | (b' & bs1 & Hy' & [= <- <-] & ->)];
      [congruence |].
    rewrite Hy in Hy'. injection Hy' as <-.
    right. exists [], b. split; [reflexivity |].
    destruct (yieldData_some total cache (page + 1 - 1)) as (b' & Hb' & Ht & _).
    rewrite Hy in Hb'. injection Hb' as <-.
    pose proof (Hapi p0 cache Hc _ _ _ Hy). simpl. split; [lia | done].
  + apply then_inv in Hrun as [(r & Hy & -> & _) | (b & bs0 & Hy & Hrest & ->)];
      [by left |].
    destruct (yieldData_some (total + Z.of_nat (length (page_ids data))) cache
                (page + 1 - 1)) as (b' & Hb' & Ht & _).
    rewrite Hy in Hb'. injection Hb' as <-.
    pose proof (Hapi p0 cache Hc _ _ _ Hy) as Hcand.
    assert (Hle' : (Z.of_nat (seen + candidates b + length (page_ids data))
                    <= total + Z.of_nat (length (page_ids data)))%Z) by lia.
    destruct (IH _ _ _ _ (page + 1)%Z (seen + candidates b)%nat _ _ Hd Hle' Hrest)
      as [Hcov | (bs' & b0 & -> & Hcov)].
    * left. simpl. split; [lia | exact Hcov].
    * right. exists (b :: bs'), b0. split; [reflexivity |].
      simpl. split; [lia | exact Hcov].
Qed.

(** X29. Iterated to its end, [followLatestGenerator] always ends.  With an
    API that answers with at most one candidate for each id of a page, the
    total of every batch covers the candidates yielded so far (the total
    already counts the page fetched ahead), with one exception: when the
    loop stops on a page of duplicate works, the last batch is the batch
    before it once more, and the cover holds for the batches up to the
    first of the two. *)
Theorem follow_totals_cover (pageRange : option (Z * Z)) (Hapi : honest) :
  exists bs en,
    followLatestGenerator pageRange = Some (bs, en) /\
    covered_up_to_repeat 0 bs.
Proof.
  unfold PixivGenerator.followLatestGenerator.
  destruct (start_of pageRange >? PAGE_LIMIT)%Z; [eexists _, _; split; [reflexivity | by left] |].
  destruct (getFollowLatestWorks (start_of pageRange)) as [data | r] eqn:Hd;
    [| eexists _, _; split; [reflexivity | by left]].
  cbv zeta.
  set (n1 := length (page_ids data)).
  assert (Hfirst : forall T b, yieldData T (Some data) (start_of pageRange) = inl b ->
                     BatchDownload.total b = T /\ (candidates b <= n1)%nat).
  { intros T b Hb. split; [| by apply (Hapi _ _ Hd _ _ _ Hb)].
    destruct (yieldData_some T data (start_of pageRange)) as (b' & Hb' & Ht & _).
    rewrite Hb in Hb'. by injection Hb' as <-. }
  destruct (end_of pageRange =? start_of pageRange)%Z.
  { destruct (yieldData_some (Z.of_nat n1) data (start_of pageRange)) as (b & Hb & _).
    rewrite Hb. eexists _, _. split; [reflexivity |]. left.
    destruct (Hfirst _ _ Hb) as [Ht Hc]. simpl. split; [lia | done]. }
  destruct (Z.of_nat n1 =? FOLLOW_PER_PAGE)%Z eqn:H60.
  - apply Z.eqb_eq in H60. unfold FOLLOW_PER_PAGE in H60.
    destruct (getFollowLatestWorks (start_of pageRange + 1)) as [second | r] eqn:Hd2;
      [| eexists _, _; split; [reflexivity | by left]].
    cbv zeta. set (n2 := length (page_ids second)).
    destruct (bound_lt _ _).
    + destruct (yieldData_some (Z.of_nat n1 + Z.of_nat n2) data (start_of pageRange))
        as (b1 & Hb1 & _).
      destruct (Hfirst _ _ Hb1) as [Ht1 Hc1]. rewrite Hb1. cbn [then_].
      destruct (_ =? FOLLOW_PER_PAGE)%Z.
      { eexists _, _. split; [reflexivity |]. left. simpl. split; [lia | done]. }
      destruct (_ || _).
      * destruct (yieldData_some (Z.of_nat n1 + Z.of_nat n2) second (start_of pageRange + 1))
          as (b2 & Hb2 & Ht2 & _).
        pose proof (Hapi _ _ Hd2 _ _ _ Hb2) as Hc2. fold n2 in Hc2.
        rewrite Hb2. eexists _, _. split; [reflexivity |]. left.
        simpl. split; [lia |]. split; [lia | done].
      * destruct (follow_loop_ends (end_of pageRange)
                    (Z.to_nat (end_of pageRange - (start_of pageRange + 1)))
                    (start_of pageRange + 1)%Z (findEarliestId (page_ids second))
                    (Z.of_nat n1 + Z.of_nat n2)%Z (Some second)) as [[bs en] Hloop]; [lia |].
        rewrite Hloop. eexists _, _. split; [reflexivity |].
        assert (Hle : (Z.of_nat (candidates b1 + length (page_ids second))
                       <= Z.of_nat n1 + Z.of_nat n2)%Z) by (fold n2; lia).
        destruct (follow_loop_cover _ _ Hapi _ _ _ _ _ (candidates b1) _ _ Hd2 Hle Hloop)
          as [Hcov | (bs' & b0 & -> & Hcov)].
        -- left. simpl. split; [lia | exact Hcov].
        -- right. exists (b1 :: bs'), b0. split; [reflexivity |].
           simpl. split; [lia | exact Hcov].
    + destruct (yieldData_some (Z.of_nat n1) data (start_of pageRange)) as (b1 & Hb1 & _).
      destruct (Hfirst _ _ Hb1) as [Ht1 Hc1]. rewrite Hb1. cbn [then_].
      destruct (_ =? FOLLOW_PER_PAGE)%Z.
      { eexists _, _. split; [reflexivity |]. left. simpl. split; [lia | done]. }
      destruct (_ || _).
      * eexists _, _. split; [reflexivity |]. left. simpl. split; [lia | done].
      * destruct (follow_loop_ends (end_of pageRange)
                    (Z.to_nat (end_of pageRange - (start_of pageRange + 1)))
                    (start_of pageRange + 1)%Z (findEarliestId (page_ids data))
                    (Z.of_nat n1) None) as [[bs en] Hloop]; [lia |].
        rewrite Hloop. apply follow_loop_without_cache in Hloop as ->.
        eexists _, _. split; [reflexivity |]. left. simpl. split; [lia | done].
  - destruct (yieldData_some (Z.of_nat n1) data (start_of pageRange)) as (b1 & Hb1 & _).
    destruct (Hfirst _ _ Hb1) as [Ht1 Hc1]. rewrite Hb1. cbn [then_]. rewrite H60.
    destruct (_ || _).
    + eexists _, _. split; [reflexivity |]. left. simpl. split; [lia | done].
    + destruct (follow_loop_ends (end_of pageRange)
                  (Z.to_nat (end_of pageRange - start_of pageRange))
                  (start_of pageRange) (findEarliestId (page_ids data))
                  (Z.of_nat n1) None) as [[bs en] Hloop]; [lia |].
      rewrite Hloop. apply follow_loop_without_cache in Hloop as ->.
      eexists _, _. split; [reflexivity |]. left. simpl. split; [lia | done].
Qed.

End WithFollowApi.

Lemma follow_single_page_witness :
  let feed := fun _ : Z =>
    @inl _ reason {| page_ids := [5; 4]%Z; thumbnails_illust := [5; 4]%Z |} in
  exists b,
    PixivGenerator.followLatestGenerator pretty Some (fun _ => false) (fun _ => true) feed
      (Some (1, 1)%Z) = Some ([b], Done) /\
    PixivGenerator.yieldData pretty Some (fun _ => false) (fun _ => true) 2
      (Some {| page_ids := [5; 4]%Z; thumbnails_illust := [5; 4]%Z |}) 1 = inl b /\
    total b = 2%Z /\ page b = 1%Z.
Proof.
  intros feed.
  apply (follow_single_page pretty Some (fun _ => false) (fun _ => true) feed
           (Some (1, 1)%Z) {| page_ids := [5; 4]%Z; thumbnails_illust := [5; 4]%Z |}).
  - unfold PAGE_LIMIT. lia.
  - reflexivity.
  - reflexivity.
Defined.

Lemma follow_short_feed_throws_witness :
  let feed := fun _ : Z =>
    @inl _ reason {| page_ids := [5; 4]%Z; thumbnails_illust := [5; 4]%Z |} in
  exists b,
    PixivGenerator.followLatestGenerator pretty Some (fun _ => false) (fun _ => true) feed
      None = Some ([b], Thrown undefined_data) /\
    PixivGenerator.yieldData pretty Some (fun _ => false) (fun _ => true) 2
      (Some {| page_ids := [5; 4]%Z; thumbnails_illust := [5; 4]%Z |}) 1 = inl b.
Proof.
  intros feed.
  apply (follow_short_feed_throws pretty Some (fun _ => false) (fun _ => true) feed
           None {| page_ids := [5; 4]%Z; thumbnails_illust := [5; 4]%Z |}).
  - unfold PAGE_LIMIT. lia.
  - unfold PAGE_LIMIT. lia.
  - reflexivity.
  - simpl. lia.
Defined.

Lemma follow_duplicate_page_repeats_batch_witness :
  let ids := fun newest : Z => map (fun i => (newest - Z.of_nat i)%Z) (seq 0 60) in
  let data := fun newest : Z =>
    {| page_ids := ids newest; thumbnails_illust := ids newest |} in
  let feed := fun p : Z =>
    @inl _ reason (if (p =? 1)%Z then data 200%Z else data 140%Z) in
  exists b1 b2,
    PixivGenerator.followLatestGenerator pretty Some (fun _ => false) (fun _ => true) feed
      None = Some ([b1; b2; b2], Done) /\
    PixivGenerator.yieldData pretty Some (fun _ => false) (fun _ => true) 120
      (Some (data 200%Z)) 1 = inl b1 /\
    PixivGenerator.yieldData pretty Some (fun _ => false) (fun _ => true) 120
      (Some (data 140%Z)) (1 + 1) = inl b2.
Proof.
  intros ids data feed.
  apply (follow_duplicate_page_repeats_batch pretty Some (fun _ => false) (fun _ => true)
           feed None (data 200%Z) (data 140%Z) (data 140%Z)).
  - unfold PAGE_LIMIT. lia.
  - unfold PAGE_LIMIT. lia.
  - reflexivity.
  - reflexivity.
  - reflexivity.
  - vm_compute. reflexivity.
  - vm_compute. reflexivity.
  - vm_compute. reflexivity.
  - vm_compute. reflexivity.
Defined.

Lemma follow_totals_cover_witness :
  let feed := fun _ : Z =>
    @inl _ reason {| page_ids := [5; 4]%Z; thumbnails_illust := [5; 4]%Z |} in
  exists bs en,
    PixivGenerator.followLatestGenerator pretty Some (fun _ => false) (fun _ => true) feed
      (Some (1, 1)%Z) = Some (bs, en) /\
    covered_up_to_repeat 0 bs.
Proof.
  intros feed.
  apply (follow_totals_cover pretty Some (fun _ => false) (fun _ => true) feed
           (Some (1, 1)%Z)).
  intros p data [= <-] total page b Hb.
  vm_compute in Hb. injection Hb as <-. unfold candidates. simpl. lia.
Defined.

Lemma generated_run_accounts_for_all_witness :
  let getWorks := fun chunk : list string => @inl (list string) reason chunk in
  let gen :=
    PixivGenerator.illustMangaGenerator (fun w : string => w) (fun _ => false)
      (fun _ => true) "1" (fun ids => ids) getWorks None (Some ["a"; "b"]) None in
  let ss0 := Examples.session_after Examples.inline_cfg Examples.cancel_after_success in
  let ss :=
    Examples.session_after Examples.inline_cfg
      (Examples.cancel_after_success ++ Call "gen" :: Examples.second_run) in
  gen = Some ([(["a"; "b"], Examples.batch 2 ["a"; "b"])], Done) /\
  yields Examples.second_run `prefix_of` [Examples.batch 2 ["a"; "b"]] /\
  inflight (now ss0) = [(1%nat, "2")] /\
  session_run Examples.tags_of Examples.inline_cfg ss0 (Call "gen" :: Examples.second_run)
  = Some ss /\
  totals_cover 0 Examples.second_run /\
  pc (now ss) = Finished Completed /\
  artworkCount (now ss) = Some (Z.of_nat (settled_count (now ss))) /\
  inflight (now ss) = [].
Proof.
  intros getWorks gen ss0 ss.
  assert (Hgen : gen = Some ([(["a"; "b"], Examples.batch 2 ["a"; "b"])], Done))
    by (vm_compute; reflexivity).
  assert (Hy : yields Examples.second_run `prefix_of` [Examples.batch 2 ["a"; "b"]])
    by (exists []; vm_compute; reflexivity).
  assert (Hr : session_run Examples.tags_of Examples.inline_cfg ss0
                 (Call "gen" :: Examples.second_run) = Some ss)
    by (vm_compute; reflexivity).
  assert (Hapi : forall chunk workDatas,
             getWorks chunk = inl workDatas -> (length workDatas <= length chunk)%nat)
    by (intros chunk workDatas [= <-]; lia).
  assert (Hclean : clean ss0).
  { split; [vm_compute; constructor |]. vm_compute. discriminate. }
  assert (Hp : pc (now ss) = Finished Completed) by (vm_compute; reflexivity).
  destruct (generated_run_accounts_for_all (fun w : string => w) (fun _ => false)
              (fun _ => true) "1" (fun ids => ids) getWorks
              Examples.tags_of Examples.inline_cfg None (Some ["a"; "b"]) None
              [(["a"; "b"], Examples.batch 2 ["a"; "b"])] Done "gen"
              Examples.second_run ss0 ss
              Hgen Hapi Hy eq_refl eq_refl Hclean Hr) as [Ht Hc].
  split; [exact Hgen |]. split; [exact Hy |]. split; [vm_compute; reflexivity |].
  split; [exact Hr |]. split; [exact Ht |]. split; [exact Hp |]. exact (Hc Hp).
Defined.

End PixivGeneratorSpec.
